(** * FontKitJS: a shallow embedding of the font helper and its properties

    The development follows the source file of the library (the IIFE that
    defines [FontManager] and its helpers).  It has three layers:

    - the host: ECMAScript strings, numbers (IEEE binary64), the regular
      expression matcher, [parseFloat], [parseInt] and [Number::toString];
    - the library: the functions of the source, under their own names;
    - the properties, one theorem per claim. *)

From Stdlib Require Import ZArith NArith List Ascii String Bool Lia.
From Stdlib Require Import Floats.SpecFloat DecimalString.
From Stdlib Require Import Sorting.Sorted Sorting.Permutation.
From stdpp Require Import gmap strings list.

Local Open Scope string_scope.

(** ** Host: characters and strings

    A string is a sequence of code units.  The model keeps the code units
    below 256; the patterns of the source only tell apart ASCII letters,
    digits, quotes, white space and the characters of number literals. *)

Definition code (a : ascii) : nat := nat_of_ascii a.

Definition is_digit (a : ascii) : bool := (48 <=? code a)%nat && (code a <=? 57)%nat.

Definition is_upper (a : ascii) : bool := (65 <=? code a)%nat && (code a <=? 90)%nat.

Definition is_lower (a : ascii) : bool := (97 <=? code a)%nat && (code a <=? 122)%nat.

(** The class [[A-Za-z0-9]]. *)
Definition is_alnum (a : ascii) : bool := is_upper a || is_lower a || is_digit a.

(** The class [\s] on code units below 256: TAB, LF, VT, FF, CR, SP, NBSP. *)
Definition is_space (a : ascii) : bool :=
  ((9 <=? code a)%nat && (code a <=? 13)%nat) || (code a =? 32)%nat || (code a =? 160)%nat.

(** The class of the two quote characters, double (34) and single (39). *)
Definition is_quote (a : ascii) : bool := (code a =? 34)%nat || (code a =? 39)%nat.

Definition is_char (c : ascii) (a : ascii) : bool := Ascii.eqb c a.

Definition dquote : ascii := ascii_of_nat 34.

Fixpoint str_filter (p : ascii -> bool) (s : string) : string :=
  match s with
  | EmptyString => EmptyString
  | String a s' => if p a then String a (str_filter p s') else str_filter p s'
  end.

Fixpoint str_exists (p : ascii -> bool) (s : string) : bool :=
  match s with
  | EmptyString => false
  | String a s' => p a || str_exists p s'
  end.

Fixpoint str_forall (p : ascii -> bool) (s : string) : bool :=
  match s with
  | EmptyString => true
  | String a s' => p a && str_forall p s'
  end.

Fixpoint str_map (f : ascii -> ascii) (s : string) : string :=
  match s with
  | EmptyString => EmptyString
  | String a s' => String (f a) (str_map f s')
  end.

(** [span p s]: the longest prefix of [s] in the class [p], and the rest. *)
Fixpoint span (p : ascii -> bool) (s : string) : string * string :=
  match s with
  | EmptyString => (EmptyString, EmptyString)
  | String a s' =>
      if p a then let '(u, v) := span p s' in (String a u, v)
      else (EmptyString, s)
  end.

Fixpoint drop_while (p : ascii -> bool) (s : string) : string :=
  match s with
  | EmptyString => EmptyString
  | String a s' => if p a then drop_while p s' else s
  end.

(** [String.prototype.endsWith]. *)
Definition endsWith (s suffix : string) : bool :=
  let n := String.length s in
  let m := String.length suffix in
  (m <=? n)%nat && String.eqb (substring (n - m) m s) suffix.

(** [String.prototype.includes]: [sub] occurs in [s]. *)
Fixpoint includes (s sub : string) : bool :=
  String.prefix sub s ||
  match s with
  | EmptyString => false
  | String _ s' => includes s' sub
  end.

(** [String.prototype.toLowerCase] on code units below 256. *)
Definition lower_char (a : ascii) : ascii :=
  if is_upper a then ascii_of_nat (code a + 32)
  else if ((192 <=? code a)%nat && (code a <=? 222)%nat) && negb (code a =? 215)%nat
       then ascii_of_nat (code a + 32)
       else a.

Definition toLowerCase (s : string) : string := str_map lower_char s.

(** [Array.prototype.join]. *)
Fixpoint join (sep : string) (l : list string) : string :=
  match l with
  | [] => ""
  | [x] => x
  | x :: l' => x +:+ sep +:+ join sep l'
  end.

(** ** Host: regular expressions

    The matcher is the backtracking matcher of ECMA-262 (22.2.2): a pattern
    is run against the rest of the input with a continuation, an
    alternative is tried left to right, a quantifier is greedy.  Only the
    constructs the source's patterns use are present. *)

Inductive regex : Type :=
| RChar (p : ascii -> bool)                          (* a literal or a class *)
| RCat (r1 r2 : regex)                               (* r1 r2 *)
| RAlt (r1 r2 : regex)                               (* r1|r2 *)
| RRep (lo : nat) (hi : option nat) (r : regex)      (* r{lo,hi}, greedy *)
| RGroup (i : nat) (r : regex).                      (* the i-th ( ) *)

(** The captures of a match, latest first: group number and text. *)
Definition caps : Type := list (nat * string).

Fixpoint cap (i : nat) (c : caps) : option string :=
  match c with
  | [] => None
  | (j, t) :: c' => if (i =? j)%nat then Some t else cap i c'
  end.

(** The part of [s] read when [s1] is what is left of it. *)
Definition consumed (s s1 : string) : string :=
  substring 0 (String.length s - String.length s1) s.

Section Matcher.
Context {R : Type}.

Definition mcont : Type := string -> caps -> option R.
Definition matcher : Type := string -> caps -> mcont -> option R.

(** RepeatMatcher (22.2.2.3.1) for a greedy quantifier; [fuel] bounds the
    iterations, an iteration either uses up one of [lo] or reads input. *)
Fixpoint rep (m1 : matcher) (k : mcont) (fuel lo : nat) (hi : option nat)
         (s : string) (c : caps) {struct fuel} : option R :=
  match fuel with
  | O => None
  | S fuel' =>
      match hi with
      | Some O => k s c
      | _ =>
          let d : mcont := fun s1 c1 =>
            if (lo =? 0)%nat && (String.length s1 =? String.length s)%nat then None
            else rep m1 k fuel' (Nat.pred lo) (option_map Nat.pred hi) s1 c1 in
          match m1 s c d with
          | Some x => Some x
          | None => if (lo =? 0)%nat then k s c else None
          end
      end
  end.

Fixpoint rmatch (r : regex) (s : string) (c : caps) (k : mcont) {struct r} : option R :=
  match r with
  | RChar p =>
      match s with
      | String a s' => if p a then k s' c else None
      | EmptyString => None
      end
  | RCat r1 r2 => rmatch r1 s c (fun s1 c1 => rmatch r2 s1 c1 k)
  | RAlt r1 r2 =>
      match rmatch r1 s c k with
      | Some x => Some x
      | None => rmatch r2 s c k
      end
  | RGroup i r1 => rmatch r1 s c (fun s1 c1 => k s1 ((i, consumed s s1) :: c1))
  | RRep lo hi r1 => rep (rmatch r1) k (S (lo + String.length s)) lo hi s c
  end.
End Matcher.

Definition RPlus (r : regex) : regex := RRep 1 None r.
Definition ROpt (r : regex) : regex := RRep 0 (Some 1) r.

Fixpoint RLit (s : string) : regex :=
  match s with
  | EmptyString => RRep 0 (Some 0) (RChar (fun _ => false))
  | String a EmptyString => RChar (is_char a)
  | String a s' => RCat (RChar (is_char a)) (RLit s')
  end.

(** The match at the start of [s]: the captures and what is left of [s]. *)
Definition match_here (r : regex) (s : string) : option (caps * string) :=
  rmatch r s [] (fun s1 c1 => Some (c1, s1)).

(** [RegExpBuiltinExec] from [lastIndex]: the leftmost position of the rest
    of the input at which the pattern matches.  The patterns of the source
    have no anchor or look-behind, so the text before [lastIndex] plays no
    part and [s] is the input from [lastIndex] on. *)
Fixpoint exec (r : regex) (s : string) : option (caps * string) :=
  match match_here r s with
  | Some res => Some res
  | None =>
      match s with
      | EmptyString => None
      | String _ s' => exec r s'
      end
  end.

(** [RegExp.prototype.test] of a pattern without the [g] flag. *)
Definition test (r : regex) (s : string) : bool :=
  match exec r s with Some _ => true | None => false end.

(** ** Host: numbers

    A Number is an IEEE 754 binary64 value: [spec_float] at precision 53
    and maximal exponent 1024, with the arithmetic of the standard
    library's specification of floating-point numbers (round to nearest,
    ties to even). *)

Definition number : Type := spec_float.

Definition prec : Z := 53.
Definition emax : Z := 1024.

Definition NaN : number := S754_nan.

Definition num_mul (x y : number) : number := SFmul prec emax x y.
Definition num_div (x y : number) : number := SFdiv prec emax x y.
Definition num_leb (x y : number) : bool := SFleb x y.
Definition num_eqb (x y : number) : bool := SFeqb x y.

(** The Number nearest to the integer [z]. *)
Definition num_of_Z (z : Z) : number := binary_normalize prec emax z 0 false.

(** The Number nearest to [(-1)^neg * d * 10^e], the rounding of
    StringNumericValue (ECMA-262 7.1.4.1.1). *)
Definition num_of_decimal (neg : bool) (d : N) (e : Z) : number :=
  match d with
  | N0 => S754_zero neg
  | Npos p =>
      match e with
      | Zneg q => SFdiv prec emax (S754_finite neg p 0) (S754_finite false (Pos.pow 10 q) 0)
      | _ => binary_round prec emax neg (p * Z.to_pos (10 ^ e)) 0
      end
  end.

(** The value of a sequence of decimal digits. *)
Fixpoint digits_value_from (acc : N) (s : string) : N :=
  match s with
  | EmptyString => acc
  | String a s' => digits_value_from (10 * acc + N.of_nat (code a - 48)) s'
  end.

Definition digits_value (s : string) : N := digits_value_from 0 s.

(** The decimal digits of a natural number, ["0"] for zero. *)
Definition digits_of_N (n : N) : string := NilZero.string_of_uint (N.to_uint n).

Definition digits_of_Z_abs (z : Z) : string := digits_of_N (Z.abs_N z).

(** An optional sign: whether it is a minus, and the rest. *)
Definition read_sign (s : string) : bool * string :=
  match s with
  | String a s' =>
      if is_char "-" a then (true, s')
      else if is_char "+" a then (false, s')
      else (false, s)
  | EmptyString => (false, s)
  end.

(** ExponentPart: [e] or [E], an optional sign and at least one digit;
    zero when the text has no such part. *)
Definition read_exponent (s : string) : Z :=
  match s with
  | String a s' =>
      if is_char "e" a || is_char "E" a then
        let '(neg, s1) := read_sign s' in
        let '(ds, _) := span is_digit s1 in
        match ds with
        | EmptyString => 0%Z
        | _ => if neg then (- Z.of_N (digits_value ds))%Z else Z.of_N (digits_value ds)
        end
      else 0%Z
  | EmptyString => 0%Z
  end.

(** [parseFloat] (ECMA-262 19.2.4): leading white space is dropped, the
    longest prefix that is a StrDecimalLiteral is read, anything after it
    is ignored; [NaN] when there is no such prefix. *)
Definition parseFloat (s : string) : number :=
  let '(neg, s1) := read_sign (drop_while is_space s) in
  if String.prefix "Infinity" s1 then S754_infinity neg
  else
    let '(ip, s2) := span is_digit s1 in
    let '(fp, s3) :=
      match s2 with
      | String a t => if is_char "." a then span is_digit t else (EmptyString, s2)
      | EmptyString => (EmptyString, s2)
      end in
    match ip, fp with
    | EmptyString, EmptyString => NaN
    | _, _ =>
        num_of_decimal neg (digits_value (ip +:+ fp))
                       (read_exponent s3 - Z.of_nat (String.length fp))
    end.

(** [parseInt(s, 10)] (ECMA-262 19.2.5): leading white space, an optional
    sign, the longest run of decimal digits; [NaN] when there is none. *)
Definition parseInt (s : string) : number :=
  let '(neg, s1) := read_sign (drop_while is_space s) in
  let '(ds, _) := span is_digit s1 in
  match ds with
  | EmptyString => NaN
  | _ => num_of_decimal neg (digits_value ds) 0
  end.

(** *** Number::toString (ECMA-262 6.1.6.1.20, radix 10)

    For a positive finite [x = m * 2^e] the digits are the integers
    [n], [k], [s] with [10^(k-1) <= s < 10^k], [s * 10^(n-k)] rounding to
    [x], and [k] as small as possible; of several [s], the one nearest to
    [x]. *)

(** [x = fst / snd] exactly. *)
Definition exact_fraction (m : positive) (e : Z) : Z * Z :=
  match e with
  | Zneg q => (Zpos m, Z.pow 2 (Zpos q))
  | _ => ((Zpos m) * Z.pow 2 e, 1)%Z
  end.

(** The [n] with [10^(n-1) <= num/den < 10^n], found from an estimate [n0]
    that is off by a few units at most. *)
Fixpoint adjust_up (fuel : nat) (num den n : Z) : Z :=
  match fuel with
  | O => n
  | S f =>
      (* num/den >= 10^n ? *)
      if (if (0 <=? n)%Z then (den * 10 ^ n <=? num)%Z else (den <=? num * 10 ^ (- n))%Z)
      then adjust_up f num den (n + 1)%Z else n
  end.

Fixpoint adjust_down (fuel : nat) (num den n : Z) : Z :=
  match fuel with
  | O => n
  | S f =>
      (* num/den < 10^(n-1) ? *)
      if (if (0 <=? n - 1)%Z then (num <? den * 10 ^ (n - 1))%Z
          else (num * 10 ^ (- (n - 1)) <? den)%Z)
      then adjust_down f num den (n - 1)%Z else n
  end.

Definition decimal_exponent (m : positive) (e : Z) : Z :=
  let '(num, den) := exact_fraction m e in
  let bits := (Zpos (digits2_pos m) + e)%Z in
  let n0 := ((bits - 1) * 30103 / 100000)%Z in
  adjust_down 4 num den (adjust_up 4 num den n0).

(** The candidates with [k] digits: the floor of [x * 10^(k-n)] and its
    successor; each is kept when it reads back as [x]. *)
Definition reads_back (m : positive) (e : Z) (s : N) (p : Z) : bool :=
  match SFcompare (num_of_decimal false s p) (S754_finite false m e) with
  | Some Eq => true
  | _ => false
  end.

Definition candidate (m : positive) (e : Z) (n : Z) (k : Z) : option (N * Z) :=
  let '(num, den) := exact_fraction m e in
  let p := (n - k)%Z in
  (* x * 10^(-p) = num' / den' *)
  let num' := if (0 <=? p)%Z then num else (num * 10 ^ (- p))%Z in
  let den' := if (0 <=? p)%Z then (den * 10 ^ p)%Z else den in
  let lo := (num' / den')%Z in
  let hi := (lo + 1)%Z in
  (* the successor of 99..9 is 10..0 with one more place *)
  let '(his, hin) := if (hi =? 10 ^ k)%Z then ((10 ^ (k - 1))%Z, (n + 1)%Z) else (hi, n) in
  let lo_ok := reads_back m e (Z.to_N lo) p in
  let hi_ok := reads_back m e (Z.to_N his) (hin - k)%Z in
  (* lo is nearer than hi when 2 x' < 2 lo + 1 *)
  let lo_nearer := (2 * num' <? (2 * lo + 1) * den')%Z in
  let tie := (2 * num' =? (2 * lo + 1) * den')%Z in
  match lo_ok, hi_ok with
  | true, true =>
      if lo_nearer || (tie && Z.even lo) then Some (Z.to_N lo, n) else Some (Z.to_N his, hin)
  | true, false => Some (Z.to_N lo, n)
  | false, true => Some (Z.to_N his, hin)
  | false, false => None
  end.

(** The shortest digits: [k] from 1 up. *)
Fixpoint shortest (fuel : nat) (m : positive) (e : Z) (n : Z) (k : Z) : N * Z * Z :=
  match fuel with
  | O => (Z.to_N (fst (exact_fraction m e)), k, n)
  | S f =>
      match candidate m e n k with
      | Some (s, n') => (s, k, n')
      | None => shortest f m e n (k + 1)%Z
      end
  end.

Fixpoint zeros (n : nat) : string :=
  match n with
  | O => ""
  | S n' => String "0" (zeros n')
  end.

(** Steps 7 to 12 of Number::toString: the text of the digits [ds] (there
    are [k] of them) with the decimal point after the [n]-th. *)
Definition format_digits (ds : string) (k n : Z) : string :=
  if ((-5 <=? n)%Z && (n <=? 21)%Z)%bool then
    if (k <=? n)%Z then ds +:+ zeros (Z.to_nat (n - k))
    else if (0 <? n)%Z then
      substring 0 (Z.to_nat n) ds +:+ "." +:+ substring (Z.to_nat n) (Z.to_nat (k - n)) ds
    else "0." +:+ zeros (Z.to_nat (- n)) +:+ ds
  else
    let ex := (n - 1)%Z in
    let sign := if (ex <? 0)%Z then "-" else "+" in
    let mant :=
      if (k =? 1)%Z then ds
      else substring 0 1 ds +:+ "." +:+ substring 1 (Z.to_nat (k - 1)) ds in
    mant +:+ "e" +:+ sign +:+ digits_of_Z_abs ex.

Definition NumberToString (x : number) : string :=
  match x with
  | S754_nan => "NaN"
  | S754_zero _ => "0"
  | S754_infinity s => if s then "-Infinity" else "Infinity"
  | S754_finite s m e =>
      let '(d, k, n) := shortest 17 m e (decimal_exponent m e) 1 in
      (if s then "-" else "") +:+ format_digits (digits_of_N d) k n
  end.

(** ** Host: values and objects *)

(** The values the library handles in axis maps, feature maps and style
    fields.  Of an object (a function is one) the library uses only that it
    is one and the text [String] gives for it. *)
Inductive value : Type :=
| VUndefined
| VNull
| VBool (b : bool)
| VNum (x : number)
| VStr (s : string)
| VObject (text : string).

(** ToBoolean. *)
Definition truthy (v : value) : bool :=
  match v with
  | VUndefined | VNull => false
  | VBool b => b
  | VNum (S754_zero _) | VNum S754_nan => false
  | VNum _ => true
  | VStr s => negb (String.eqb s "")
  | VObject _ => true
  end.

(** ToString, as in [String(v)] and in a template literal. *)
Definition ToString (v : value) : string :=
  match v with
  | VUndefined => "undefined"
  | VNull => "null"
  | VBool b => if b then "true" else "false"
  | VNum x => NumberToString x
  | VStr s => s
  | VObject text => text
  end.

(** [v == null]. *)
Definition nullish (v : value) : bool :=
  match v with
  | VUndefined | VNull => true
  | _ => false
  end.

(** An object used as a map: its own enumerable properties in the order
    [Object.entries] lists them, each key once.  The maps of the library are
    made by an object literal, so their prototype is [Object.prototype]. *)
Definition obj : Type := list (string * value).

(** A built-in function, with the text the engines give for it. *)
Definition native_function (nm : string) : value :=
  VObject ("function " +:+ nm +:+ "() { [native code] }").

(** The properties of [Object.prototype]: [constructor] is [Object], the
    accessor [__proto__] gives the prototype itself, the others are
    methods. *)
Definition Object_prototype (k : string) : value :=
  if String.eqb k "constructor" then native_function "Object"
  else if String.eqb k "__proto__" then VObject "[object Object]"
  else if existsb (String.eqb k)
            ["toString"; "toLocaleString"; "valueOf"; "hasOwnProperty"; "isPrototypeOf";
             "propertyIsEnumerable"; "__defineGetter__"; "__defineSetter__";
             "__lookupGetter__"; "__lookupSetter__"]
       then native_function k
  else VUndefined.

(** [o[k]]: the own property, or else the one of the prototype. *)
Fixpoint obj_get (o : obj) (k : string) : value :=
  match o with
  | [] => Object_prototype k
  | (k', v) :: o' => if String.eqb k' k then v else obj_get o' k
  end.

Fixpoint obj_has (o : obj) (k : string) : bool :=
  match o with
  | [] => false
  | (k', _) :: o' => String.eqb k' k || obj_has o' k
  end.

(** An array index: a canonical numeric string below [2^32 - 1].  Such
    keys are listed first, in ascending order, before the other keys in
    insertion order (OrdinaryOwnPropertyKeys). *)
Definition array_index (k : string) : option N :=
  match k with
  | EmptyString => None
  | String a k' =>
      if str_forall is_digit k
         && (negb (is_char "0" a) || String.eqb k' "")
         && (digits_value k <? 4294967295)%N
      then Some (digits_value k) else None
  end.

Fixpoint obj_replace (o : obj) (k : string) (v : value) : obj :=
  match o with
  | [] => []
  | (k', v') :: o' =>
      if String.eqb k' k then (k', v) :: o' else (k', v') :: obj_replace o' k v
  end.

(** A new index key goes before the first key that is no index or a larger
    index. *)
Fixpoint obj_insert_index (o : obj) (i : N) (k : string) (v : value) : obj :=
  match o with
  | [] => [(k, v)]
  | (k', v') :: o' =>
      match array_index k' with
      | Some j => if (j <? i)%N then (k', v') :: obj_insert_index o' i k v
                  else (k, v) :: o
      | None => (k, v) :: o
      end
  end.

(** [o[k] = v] on a plain object: the own properties afterwards.  The key
    [__proto__] is the accessor of [Object.prototype]; assigning to it makes
    no own property. *)
Definition obj_set (o : obj) (k : string) (v : value) : obj :=
  if String.eqb k "__proto__" then o
  else if obj_has o k then obj_replace o k v
  else match array_index k with
       | Some i => obj_insert_index o i k v
       | None => (o ++ [(k, v)])%list
       end.

(** ** The library: utilities (source lines 39-46) *)

Definition isString (v : value) : bool :=
  match v with VStr _ => true | _ => false end.

(** [typeof v === 'number' && !Number.isNaN(v)]. *)
Definition isNumber (v : value) : bool :=
  match v with
  | VNum S754_nan => false
  | VNum _ => true
  | _ => false
  end.

(** [isNumber(v) ? v : parseFloat(String(v))]. *)
Definition toUnitless (v : value) : number :=
  match v with
  | VNum x => if isNumber v then x else parseFloat (ToString v)
  | _ => parseFloat (ToString v)
  end.

Definition toPx (v : value) : string :=
  if isNumber v then ToString v +:+ "px"
  else match v with VStr s => s | _ => "16px" end.

(** [cssEscape]: the quotes are removed, and the name is put between
    double quotes when it had white space or a quote. *)
Definition cssEscape (s : string) : string :=
  let needsQuotes := str_exists (fun a => is_space a || is_quote a) s in
  let safe := str_filter (fun a => negb (is_quote a)) s in
  if needsQuotes then String dquote safe +:+ String dquote "" else safe.

(** ** The library: style strings (source lines 73-98) *)

(** The loop body of [axisToString]: one entry, pushed unless nullish. *)
Definition axis_part (k : string) (v : value) : string :=
  String dquote k +:+ String dquote " " +:+ NumberToString (toUnitless v).

Fixpoint axis_parts (entries : obj) : list string :=
  match entries with
  | [] => []
  | (k, v) :: rest =>
      if nullish v then axis_parts rest
      else axis_part k v :: axis_parts rest
  end.

Definition axisToString (axes : option obj) : string :=
  match axes with
  | None => ""
  | Some o => join ", " (axis_parts o)
  end.

Definition feature_part (k : string) (v : value) : string :=
  let flag := if truthy v then "on" else "off" in
  if isNumber v then String dquote k +:+ String dquote " " +:+ ToString v
  else String dquote k +:+ String dquote " " +:+ flag.

Fixpoint feature_parts (entries : obj) : list string :=
  match entries with
  | [] => []
  | (k, v) :: rest =>
      if nullish v then feature_parts rest
      else feature_part k v :: feature_parts rest
  end.

Definition featuresToString (features : option obj) : string :=
  match features with
  | None => ""
  | Some o => join ", " (feature_parts o)
  end.

(** ** The library: parsing the settings back (source lines 704-730) *)

(** The tag between double quotes, [([A-Za-z0-9]{3,4})] in group 1. *)
Definition re_tag : regex :=
  RCat (RChar (is_char dquote))
       (RCat (RGroup 1 (RRep 3 (Some 4) (RChar is_alnum)))
             (RChar (is_char dquote))).

(** [-?\d+(\.\d+)?] *)
Definition re_decimal : regex :=
  RCat (ROpt (RChar (is_char "-")))
       (RCat (RPlus (RChar is_digit))
             (ROpt (RGroup 3 (RCat (RChar (is_char ".")) (RPlus (RChar is_digit)))))).

(** [-?\d+] *)
Definition re_integer : regex :=
  RCat (ROpt (RChar (is_char "-"))) (RPlus (RChar is_digit)).

(** [on|off] *)
Definition re_on_off : regex := RAlt (RLit "on") (RLit "off").

(** The pattern of [parseAxis]: a tag between double quotes, white space,
    and a number with an optional minus and an optional fraction. *)
Definition re_axis : regex :=
  RCat re_tag (RCat (RPlus (RChar is_space)) (RGroup 2 re_decimal)).

(** [reNum] of [parseFeatures]. *)
Definition re_num : regex :=
  RCat re_tag (RCat (RPlus (RChar is_space)) (RGroup 2 re_integer)).

(** [reFlag] of [parseFeatures]. *)
Definition re_flag : regex :=
  RCat re_tag (RCat (RPlus (RChar is_space)) (RGroup 2 re_on_off)).

(** [m[i]] of a match: the text of the group, [undefined] when the group
    took no part. *)
Definition group (i : nat) (c : caps) : value :=
  match cap i c with
  | Some t => VStr t
  | None => VUndefined
  end.

(** [while ((m = re.exec(s))) { body }] for a pattern with the [g] flag:
    each [exec] starts where the last match ended and the loop ends at the
    first failure.  [None] when [fuel] runs out. *)
Fixpoint exec_loop (fuel : nat) (r : regex) (body : caps -> obj -> obj)
         (s : string) (out : obj) : option obj :=
  match fuel with
  | O => None
  | S f =>
      match exec r s with
      | None => Some out
      | Some (m, s') => exec_loop f r body s' (body m out)
      end
  end.

Definition parseAxis (s : string) : option obj :=
  if String.eqb s "" then Some []
  else exec_loop (S (String.length s)) re_axis
         (fun m out => obj_set out (ToString (group 1 m)) (VNum (parseFloat (ToString (group 2 m)))))
         s [].

Definition parseFeatures (s : string) : option obj :=
  if String.eqb s "" then Some []
  else
    match exec_loop (S (String.length s)) re_num
            (fun m out => obj_set out (ToString (group 1 m)) (VNum (parseInt (ToString (group 2 m)))))
            s [] with
    | None => None
    | Some out =>
        exec_loop (S (String.length s)) re_flag
          (fun m out => obj_set out (ToString (group 1 m))
                          (VNum (if String.eqb (ToString (group 2 m)) "on"
                                 then num_of_Z 1 else num_of_Z 0)))
          s out
    end.

(** ** The library: font descriptors (source lines 120-150) *)

(** An entry of a source list: [{ url, format? }]. *)
Record source : Type := { url : string; format : option string }.

(** The [descriptors] of a font; an absent field is [undefined]. *)
Record descriptors : Type := {
  d_style : value;
  d_weight : value;
  d_stretch : value;
  d_display : value;
  d_unicodeRange : value
}.

(** The empty object [{}]. *)
Definition no_descriptors : descriptors :=
  {| d_style := VUndefined; d_weight := VUndefined; d_stretch := VUndefined;
     d_display := VUndefined; d_unicodeRange := VUndefined |}.

(** The [descriptors] object a caller passes: each field is an own property
    ([Some], whatever its value, [undefined] too) or absent. *)
Record descriptor_fields : Type := {
  own_style : option value;
  own_weight : option value;
  own_stretch : option value;
  own_display : option value;
  own_unicodeRange : option value
}.

Definition no_fields : descriptor_fields :=
  {| own_style := None; own_weight := None; own_stretch := None;
     own_display := None; own_unicodeRange := None |}.

(** The descriptor a caller passes to [loadFont]; every field may be
    absent.  [src] is [None] when the field is no array. *)
Record FontDescriptor : Type := {
  desc_name : option string;
  desc_src : option (list source);
  desc_descriptors : option descriptor_fields;
  desc_axes : option obj;
  desc_features : option obj;
  desc_fallback : option (list string);
  desc_languages : option (list string)
}.

(** A descriptor that is in the registry.  It passed the validation of
    [loadFont], so it has a name; the helpers still guard the other fields,
    which stay optional. *)
Record Font : Type := {
  name : string;
  src : list source;
  font_descriptors : option descriptors;
  axes : option obj;
  features : option obj;
  fallback : option (list string);
  languages : option (list string)
}.

(** [`${v}`] when the field is truthy, as in [if (d.weight) props.push(...)]. *)
Definition prop_line (label : string) (v : value) : list string :=
  if truthy v then [label +:+ ": " +:+ ToString v +:+ ";"] else [].

Definition src_part (s : source) : string :=
  let fmt :=
    match format s with
    | Some f => if String.eqb f "" then ""
                else " format(" +:+ String dquote f +:+ String dquote ")"
    | None => ""
    end in
  "url(" +:+ String dquote (url s) +:+ String dquote ")" +:+ fmt.

Definition buildFontFaceCSS (nm : string) (srcList : list source)
           (ds : option descriptors) : string :=
  let srcs := join ", " (map src_part srcList) in
  let d := match ds with Some d => d | None => no_descriptors end in
  let props :=
    (prop_line "font-style" (d_style d) ++ prop_line "font-weight" (d_weight d)
     ++ prop_line "font-stretch" (d_stretch d) ++ prop_line "font-display" (d_display d)
     ++ prop_line "unicode-range" (d_unicodeRange d))%list in
  "@font-face { font-family: " +:+ cssEscape nm +:+ "; src: " +:+ srcs +:+ "; "
    +:+ join " " props +:+ " }".

(** ** The library: [FontRegistry] (source lines 182-198)

    A [Map] from name to descriptor: setting a present key keeps its place,
    a new key goes last, and [all] lists the values in that order. *)
Module FontRegistry.
Definition t : Type := list (string * Font).

Definition empty : t := [].

Fixpoint get (r : t) (nm : string) : option Font :=
  match r with
  | [] => None
  | (k, f) :: r' => if String.eqb k nm then Some f else get r' nm
  end.

Definition has (r : t) (nm : string) : bool :=
  match get r nm with Some _ => true | None => false end.

Fixpoint set (r : t) (nm : string) (f : Font) : t :=
  match r with
  | [] => [(nm, f)]
  | (k, g) :: r' => if String.eqb k nm then (k, f) :: r' else (k, g) :: set r' nm f
  end.

Definition all (r : t) : list Font := map snd r.
End FontRegistry.

(** ** The library: [StyleInjector] (source lines 200-219)

    [styleEl] is [None] until the first use; then it holds the text nodes
    appended to the style element, oldest first. *)
Module StyleInjector.
Record t : Type := {
  styleEl : option (list string);
  rules : gset string
}.

Definition new : t := {| styleEl := None; rules := ∅ |}.

Definition ensureNode (i : t) : t :=
  match styleEl i with
  | Some _ => i
  | None => {| styleEl := Some []; rules := rules i |}
  end.

Definition inject (cssText : string) (i : t) : t :=
  let i := ensureNode i in
  if decide (cssText ∈ rules i) then i
  else {| styleEl := Some (match styleEl i with
                           | Some nodes => nodes ++ [cssText]
                           | None => [cssText]
                           end)%list;
          rules := {[cssText]} ∪ rules i |}.

(** The text nodes of the style element. *)
Definition nodes (i : t) : list string :=
  match styleEl i with Some l => l | None => [] end.
End StyleInjector.

(** ** The library: [FontMetrics.estimateLineHeight] (source lines 353-361) *)

(** The fields of a style that the estimate reads. *)
Record Style : Type := {
  size : value;
  lineHeight : value
}.

Definition estimateLineHeight (style : Style) : number :=
  let sz := toUnitless (if truthy (size style) then size style else VNum (num_of_Z 16)) in
  let lh := lineHeight style in
  if nullish lh then num_mul sz (num_of_decimal false 125 (-2))
  else
    match lh with
    | VNum x => if isNumber lh then num_mul sz x else num_mul sz (parseFloat (ToString lh))
    | VStr s =>
        if endsWith s "px" then parseFloat s
        else if endsWith s "%" then num_mul sz (num_div (parseFloat s) (num_of_Z 100))
        else num_mul sz (parseFloat (ToString lh))
    | _ => num_mul sz (parseFloat (ToString lh))
    end.

(** ** The library: weight support and language score (source lines 732-757) *)

(** [/\d+\s+\d+/]. *)
Definition re_weight_range : regex :=
  RCat (RPlus (RChar is_digit)) (RCat (RPlus (RChar is_space)) (RPlus (RChar is_digit))).

Definition weight_of (f : Font) : value :=
  d_weight (match font_descriptors f with Some d => d | None => no_descriptors end).

Definition supportsVariableWeight (f : Font) : bool :=
  match weight_of f with
  | VStr w => test re_weight_range w
  | _ => false
  end.

(** [w.split(/\s+/)]: the pieces between the runs of white space. *)
Fixpoint split_ws_from (in_sep : bool) (s : string) : list string :=
  match s with
  | EmptyString => [""]
  | String a s' =>
      if is_space a then
        if in_sep then split_ws_from true s' else "" :: split_ws_from true s'
      else
        match split_ws_from false s' with
        | t :: l => String a t :: l
        | [] => [String a ""]
        end
  end.

Definition split_ws (s : string) : list string := split_ws_from false s.

(** [arr[i]] of an array of numbers; a missing element is [undefined],
    which compares as [NaN]. *)
Definition nth_number (l : list number) (i : nat) : number := nth i l NaN.

Definition supportsWeightRange (f : Font) (range : number * number) : bool :=
  let '(min, max) := range in
  match weight_of f with
  | VStr w =>
      if test re_weight_range w then
        let parts := map parseInt (split_ws w) in
        let a := nth_number parts 0 in
        let b := nth_number parts 1 in
        num_leb a min && num_leb max b
      else true
  | VNum w =>
      if isNumber (VNum w) then num_leb min w && num_leb w max else true
  | _ => true
  end.

Definition str_in (x : string) (l : list string) : bool := existsb (String.eqb x) l.

Fixpoint scoreLang_loop (fontLangs desired : list string) (score : nat) : nat :=
  match desired with
  | [] => score
  | d :: rest =>
      scoreLang_loop fontLangs rest (if str_in d fontLangs then S score else score)
  end.

Definition scoreLang (fontLangs : option (list string)) (desired : list string) : nat :=
  match fontLangs with
  | None | Some [] => 0
  | Some l => scoreLang_loop l desired 0
  end.

(** ** The library: [FontLoader] and the events (source lines 152-180, 221-316) *)

(** The result of [FontLoader.load]: [{ status, font, error }]. *)
Inductive LoadResult : Type :=
| Loaded (font : string)        (* status 'loaded', the FontFace of that family *)
| Injected                      (* status 'injected' *)
| Failed (error : string).      (* status 'failed' *)

(** How the platform settles [fontFace.load()]; a load that the timeout
    cancels is rejected like any other failure. *)
Inductive load_outcome : Type :=
| LoadFulfilled
| LoadRejected (error : string).

(** The payloads [emit] is called with. *)
Inductive event : Type :=
| EvPreset (nm : string)
| EvLoad (nm : string) (result : LoadResult)
| EvReady (nm : string) (ok : bool)
| EvClass (className : string).

(** ** The library: [FontManager] (source lines 421-700)

    [attempts] lists the descriptors handed to [loader.load], and
    [emitted] the calls of [emit], each with the identifier of the
    [loadFont] call that made it ([None] for the other methods).  Both are
    logs kept for the statements; the code has no such fields. *)
Record FontManager : Type := {
  injector : StyleInjector.t;            (* loader.injector *)
  attempts : list Font;
  registry : FontRegistry.t;
  defaultLanguage : string;
  defaultFallback : list string;
  emitted : list (option nat * event)
}.

Definition emit (who : option nat) (e : event) (fm : FontManager) : FontManager :=
  {| injector := injector fm; attempts := attempts fm; registry := registry fm;
     defaultLanguage := defaultLanguage fm; defaultFallback := defaultFallback fm;
     emitted := (emitted fm ++ [(who, e)])%list |}.

Definition with_registry (r : FontRegistry.t) (fm : FontManager) : FontManager :=
  {| injector := injector fm; attempts := attempts fm; registry := r;
     defaultLanguage := defaultLanguage fm; defaultFallback := defaultFallback fm;
     emitted := emitted fm |}.

Definition with_injector (i : StyleInjector.t) (fm : FontManager) : FontManager :=
  {| injector := i; attempts := attempts fm; registry := registry fm;
     defaultLanguage := defaultLanguage fm; defaultFallback := defaultFallback fm;
     emitted := emitted fm |}.

Definition with_attempt (f : Font) (fm : FontManager) : FontManager :=
  {| injector := injector fm; attempts := (attempts fm ++ [f])%list; registry := registry fm;
     defaultLanguage := defaultLanguage fm; defaultFallback := defaultFallback fm;
     emitted := emitted fm |}.

(** The error [loadFont] throws. *)
Definition invalid_descriptor : string := "Invalid font descriptor: missing name/src".

(** Reading a field of an object: [undefined] when it is absent. *)
Definition field (f : option value) : value :=
  match f with Some v => v | None => VUndefined end.

(** [Object.assign({ display: 'swap' }, d)]: the own properties of [d] over
    the default display.  A [display] that [d] has replaces the default,
    also when its value is [undefined]. *)
Definition with_default_display (d : descriptor_fields) : descriptors :=
  {| d_style := field (own_style d); d_weight := field (own_weight d);
     d_stretch := field (own_stretch d);
     d_display := match own_display d with
                  | Some v => v
                  | None => VStr "swap"
                  end;
     d_unicodeRange := field (own_unicodeRange d) |}.

(** The normalized copy: [display: 'swap'] unless the descriptor has the
    field, the default fallback chain, no language. *)
Definition normalize (fm : FontManager) (nm : string) (srcs : list source)
           (desc : FontDescriptor) : Font :=
  {| name := nm;
     src := srcs;
     font_descriptors :=
       Some (with_default_display
               (match desc_descriptors desc with
                | Some d => d
                | None => no_fields
                end));
     axes := desc_axes desc;
     features := desc_features desc;
     fallback := Some (match desc_fallback desc with
                       | Some l => l
                       | None => defaultFallback fm
                       end);
     languages := Some (match desc_languages desc with
                        | Some l => l
                        | None => []
                        end) |}.

(** [loader.load] up to its first [await]: without [FontFace] the rule is
    injected at once; otherwise the platform load is started. *)
Definition load_begin (supportsFontFace : bool) (f : Font) (fm : FontManager) : FontManager :=
  let fm := with_attempt f fm in
  if supportsFontFace then fm
  else with_injector
         (StyleInjector.inject (buildFontFaceCSS (name f) (src f) (font_descriptors f))
                               (injector fm)) fm.

(** [loader.load] from the [await] on. *)
Definition load_settle (supportsFontFace : bool) (o : load_outcome) (f : Font)
           (fm : FontManager) : FontManager * LoadResult :=
  if supportsFontFace then
    match o with
    | LoadFulfilled => (fm, Loaded (name f))
    | LoadRejected e =>
        (with_injector
           (StyleInjector.inject (buildFontFaceCSS (name f) (src f) (font_descriptors f))
                                 (injector fm)) fm,
         Failed e)
    end
  else (fm, Injected).

(** [loadFont] runs in three parts, cut at its two [await]s.

    The first part validates and normalizes the descriptor and calls
    [loader.load]; it throws on an invalid descriptor. *)
Definition loadFont_begin (supportsFontFace : bool) (desc : FontDescriptor)
           (fm : FontManager) : string + FontManager * Font :=
  match desc_name desc, desc_src desc with
  | Some nm, Some (s :: srcs) =>
      if String.eqb nm "" then inl invalid_descriptor
      else
        let normalized := normalize fm nm (s :: srcs) desc in
        inr (load_begin supportsFontFace normalized fm, normalized)
  | _, _ => inl invalid_descriptor
  end.

(** The second part runs when the load has settled: the descriptor is
    registered, [load] is emitted and [loader.waitFor] is called. *)
Definition loadFont_loaded (id : nat) (normalized : Font) (result : LoadResult)
           (fm : FontManager) : FontManager :=
  let fm := with_registry (FontRegistry.set (registry fm) (name normalized) normalized) fm in
  emit (Some id) (EvLoad (name normalized) result) fm.

(** The value [loadFont] resolves to: [{ name, ok, result }]. *)
Record LoadFontResult : Type := {
  res_name : string;
  res_ok : bool;
  res_result : LoadResult
}.

(** The third part runs when [waitFor] has resolved to [ok]. *)
Definition loadFont_ready (id : nat) (normalized : Font) (result : LoadResult) (ok : bool)
           (fm : FontManager) : FontManager * LoadFontResult :=
  (emit (Some id) (EvReady (name normalized) ok) fm,
   {| res_name := name normalized; res_ok := ok; res_result := result |}).

(** A call of [loadFont], from the call to the settled promise. *)
Inductive call : Type :=
| Called (desc : FontDescriptor)                 (* not started *)
| Rejected (error : string)                      (* threw: the promise is rejected *)
| Loading (normalized : Font)                    (* at [await this.loader.load] *)
| Waiting (normalized : Font) (result : LoadResult)   (* at [await this.loader.waitFor] *)
| Resolved (res : LoadFontResult).

(** The manager and the calls of [loadFont] made on it; the identifier of
    a call is its position in [calls]. *)
Record system : Type := {
  manager : FontManager;
  calls : list call
}.

Definition set_call (i : nat) (c : call) (sys : system) (fm : FontManager) : system :=
  {| manager := fm; calls := <[i := c]> (calls sys) |}.

(** One turn of the event loop: a new call of [loadFont], or a call that
    runs to its next [await].  The calls interleave at their [await]s, as
    under [ensureFonts]; the other methods that emit run in between. *)
Inductive step (supportsFontFace : bool) : system -> system -> Prop :=
| step_call desc sys :
    step supportsFontFace sys
         {| manager := manager sys; calls := (calls sys ++ [Called desc])%list |}
| step_reject i desc err sys :
    calls sys !! i = Some (Called desc) ->
    loadFont_begin supportsFontFace desc (manager sys) = inl err ->
    step supportsFontFace sys (set_call i (Rejected err) sys (manager sys))
| step_begin i desc fm f sys :
    calls sys !! i = Some (Called desc) ->
    loadFont_begin supportsFontFace desc (manager sys) = inr (fm, f) ->
    step supportsFontFace sys (set_call i (Loading f) sys fm)
| step_loaded i f o fm result sys :
    calls sys !! i = Some (Loading f) ->
    load_settle supportsFontFace o f (manager sys) = (fm, result) ->
    step supportsFontFace sys
         (set_call i (Waiting f result) sys (loadFont_loaded i f result fm))
| step_ready i f result ok sys :
    calls sys !! i = Some (Waiting f result) ->
    step supportsFontFace sys
         (set_call i (Resolved (snd (loadFont_ready i f result ok (manager sys)))) sys
                   (fst (loadFont_ready i f result ok (manager sys))))
| step_other e sys :
    (match e with EvPreset _ | EvClass _ => True | _ => False end) ->
    step supportsFontFace sys
         {| manager := emit None e (manager sys); calls := calls sys |}.

Inductive steps (supportsFontFace : bool) : system -> system -> Prop :=
| steps_refl sys : steps supportsFontFace sys sys
| steps_step sys1 sys2 sys3 :
    steps supportsFontFace sys1 sys2 ->
    step supportsFontFace sys2 sys3 ->
    steps supportsFontFace sys1 sys3.

(** [loadFont] run to the end with nothing in between: the load settles
    as [o] and [waitFor] resolves to [ok]. *)
Definition loadFont (supportsFontFace : bool) (o : load_outcome) (ok : bool) (id : nat)
           (desc : FontDescriptor) (fm : FontManager) : string + FontManager * LoadFontResult :=
  match loadFont_begin supportsFontFace desc fm with
  | inl err => inl err
  | inr (fm1, normalized) =>
      let '(fm2, result) := load_settle supportsFontFace o normalized fm1 in
      inr (loadFont_ready id normalized result ok (loadFont_loaded id normalized result fm2))
  end.

(** *** [composeFamily] (source lines 479-506) *)

(** [add]: a missing or empty name is skipped, the others are escaped. *)
Definition add (nm : option string) (parts : list string) : list string :=
  match nm with
  | Some s => if String.eqb s "" then parts else (parts ++ [cssEscape s])%list
  | None => parts
  end.

(** [(languages && languages.length ? languages : [defaultLanguage]).filter(Boolean)]. *)
Definition langSet (fm : FontManager) (langs : option (list string)) : list string :=
  List.filter (fun l => negb (String.eqb l ""))
         (match langs with
          | Some (l :: ls) => l :: ls
          | _ => [defaultLanguage fm]
          end).

(** The inner loop: is some language of the font in the set? *)
Fixpoint has_lang (set : list string) (fontLangs : list string) : bool :=
  match fontLangs with
  | [] => false
  | l :: rest => if str_in l set then true else has_lang set rest
  end.

(** The outer loop over [registry.all()]. *)
Fixpoint langMatches_loop (set : list string) (fonts : list Font) (acc : list string)
  : list string :=
  match fonts with
  | [] => acc
  | f :: rest =>
      match languages f with
      | None | Some [] => langMatches_loop set rest acc
      | Some ls =>
          if has_lang set ls then langMatches_loop set rest (acc ++ [name f])%list
          else langMatches_loop set rest acc
      end
  end.

Fixpoint add_matches (primary : option string) (lms : list string) (parts : list string)
  : list string :=
  match lms with
  | [] => parts
  | lm :: rest =>
      let differs := match primary with
                     | Some p => negb (String.eqb lm p)
                     | None => true
                     end in
      add_matches primary rest (if differs then add (Some lm) parts else parts)
  end.

Fixpoint add_all (names : list string) (parts : list string) : list string :=
  match names with
  | [] => parts
  | fb :: rest => add_all rest (add (Some fb) parts)
  end.

Definition composeFamily (fm : FontManager) (primary : option string)
           (fallback : option (list string)) (langs : option (list string)) : string :=
  let set := langSet fm langs in
  let lms := langMatches_loop set (FontRegistry.all (registry fm)) [] in
  let parts := add primary [] in
  let parts := add_matches primary lms parts in
  let parts := add_all (match fallback with
                        | Some l => l
                        | None => defaultFallback fm
                        end) parts in
  join ", " parts.

(** *** [select] (source lines 675-700) *)

(** The argument of [select]; an absent field is [None]. *)
Record criteria : Type := {
  c_languages : option (list string);
  c_variable : option bool;
  c_weightRange : option (number * number);
  c_prefer : option string
}.

(** [Array.prototype.sort] with a comparison function: the array is
    sorted in place and the sort is stable. *)
Fixpoint sort_insert {A : Type} (cmp : A -> A -> Z) (x : A) (l : list A) : list A :=
  match l with
  | [] => [x]
  | y :: l' => if (cmp x y <=? 0)%Z then x :: y :: l' else y :: sort_insert cmp x l'
  end.

Fixpoint sort {A : Type} (cmp : A -> A -> Z) (l : list A) : list A :=
  match l with
  | [] => []
  | x :: l' => sort_insert cmp x (sort cmp l')
  end.

Definition bit (b : bool) : Z := if b then 1%Z else 0%Z.

Section Select.
(** [String.prototype.localeCompare]: negative, zero or positive; the
    order is the host's collation. *)
Variable localeCompare : string -> string -> Z.

(** [prefer ? f.name.toLowerCase().includes(prefer.toLowerCase()) : true]. *)
Definition preferred (prefer : option string) (f : Font) : bool :=
  match prefer with
  | Some p => if String.eqb p "" then true
              else includes (toLowerCase (name f)) (toLowerCase p)
  | None => true
  end.

Definition hasLang (langs : list string) (f : Font) : bool :=
  match languages f with
  | None | Some [] => true
  | Some ls => existsb (fun l => str_in l langs) ls
  end.

(** The test of the loop of [select]. *)
Definition matches (langs : list string) (variable : bool)
           (weightRange : option (number * number)) (prefer : option string)
           (f : Font) : bool :=
  let hasVar := if variable then supportsVariableWeight f else true in
  let weightOk := match weightRange with
                  | Some r => supportsWeightRange f r
                  | None => true
                  end in
  hasLang langs f && hasVar && weightOk && preferred prefer f.

(** The comparison function of the sort. *)
Definition compare_fonts (langs : list string) (prefer : option string) (a b : Font) : Z :=
  let avar := bit (supportsVariableWeight a) in
  let bvar := bit (supportsVariableWeight b) in
  if negb (avar =? bvar)%Z then (bvar - avar)%Z
  else
    let alang := Z.of_nat (scoreLang (languages a) langs) in
    let blang := Z.of_nat (scoreLang (languages b) langs) in
    if negb (alang =? blang)%Z then (blang - alang)%Z
    else
      let by_name := localeCompare (name a) (name b) in
      match prefer with
      | Some p =>
          if String.eqb p "" then by_name
          else
            let ap := bit (includes (toLowerCase (name a)) (toLowerCase p)) in
            let bp := bit (includes (toLowerCase (name b)) (toLowerCase p)) in
            if negb (ap =? bp)%Z then (bp - ap)%Z else by_name
      | None => by_name
      end.

Definition select (fm : FontManager) (c : criteria) : list Font :=
  let langs := match c_languages c with
               | Some l => l
               | None => [defaultLanguage fm]
               end in
  let variable := match c_variable c with
                  | Some b => b
                  | None => true
                  end in
  let found := List.filter (matches langs variable (c_weightRange c) (c_prefer c))
                      (FontRegistry.all (registry fm)) in
  sort (compare_fonts langs (c_prefer c)) found.
End Select.

(** *** [setAxis] and [getAxis] (source lines 610-619) *)

(** The two properties of [el.style] that the axis and feature helpers
    read and write; an assignment stores the text as it is. *)
Record Element : Type := {
  fontVariationSettings : string;
  fontFeatureSettings : string
}.

Definition setAxis (el : Element) (axisName : string) (v : value) : option Element :=
  match parseAxis (fontVariationSettings el) with
  | None => None
  | Some current =>
      let current := obj_set current axisName v in
      Some {| fontVariationSettings := axisToString (Some current);
              fontFeatureSettings := fontFeatureSettings el |}
  end.

Definition getAxis (el : Element) (axisName : string) : option value :=
  match parseAxis (fontVariationSettings el) with
  | None => None
  | Some current => Some (obj_get current axisName)
  end.

(** ** Definitions for the statements *)

(** A sequence of [inject] calls, first to last. *)
Definition inject_all (texts : list string) (i : StyleInjector.t) : StyleInjector.t :=
  fold_left (fun i t => StyleInjector.inject t i) texts i.

(** Each distinct text once, at the place of its first occurrence. *)
Fixpoint first_occurrences (texts : list string) : list string :=
  match texts with
  | [] => []
  | t :: rest => t :: List.filter (fun u => negb (String.eqb u t)) (first_occurrences rest)
  end.

(** The events that the call [id] of [loadFont] emitted, oldest first. *)
Definition events_of (id : nat) (log : list (option nat * event)) : list event :=
  map snd (List.filter (fun p => match fst p with
                            | Some j => (j =? id)%nat
                            | None => false
                            end) log).

(** The invariant of the injector: the set of rules is the set of the
    appended nodes. *)
Definition rules_are_nodes (i : StyleInjector.t) : Prop :=
  forall u : string, u ∈ StyleInjector.rules i <-> In u (StyleInjector.nodes i).

(** What a call has emitted when it is in a given state: nothing before
    the load has settled, [load] while it waits, [load] then [ready] once
    it is resolved. *)
Definition expected_events (c : option call) : list event :=
  match c with
  | Some (Waiting f result) => [EvLoad (name f) result]
  | Some (Resolved res) =>
      [EvLoad (res_name res) (res_result res); EvReady (res_name res) (res_ok res)]
  | _ => []
  end.

(** The languages a font declares. *)
Definition declared (f : Font) : list string :=
  match languages f with Some l => l | None => [] end.






(** A font matches a set of languages when it declares none, or declares
    one of the set. *)
Definition language_match (langs : list string) (f : Font) : Prop :=
  declared f = [] \/ exists l : string, In l (declared f) /\ In l langs.


(** A manager as the constructor leaves it, and no call made yet. *)
Definition initial (fm : FontManager) : system := {| manager := fm; calls := [] |}.

(** A tag that the patterns of [parseAxis] and [parseFeatures] read: three
    or four ASCII letters or digits. *)
Definition tag_ok (k : string) : bool :=
  str_forall is_alnum k && (3 <=? String.length k)%nat && (String.length k <=? 4)%nat.

(** A text of the form [-?digits(.digits)?]: an optional minus, digits, and
    an optional fraction. *)
Definition plain_decimal (t : string) : bool :=
  let t1 := match t with
            | String a t' => if is_char "-" a then t' else t
            | EmptyString => t
            end in
  let '(ip, t2) := span is_digit t1 in
  negb (String.eqb ip "") &&
  match t2 with
  | EmptyString => true
  | String a fd => is_char "." a && negb (String.eqb fd "") && str_forall is_digit fd
  end.

(** The text of a value as [axisToString] writes it. *)
Definition axis_text (v : value) : string := NumberToString (toUnitless v).

(** The entries that [axisToString] and [featuresToString] write: the ones
    whose value is not nullish. *)
Definition non_null (o : obj) : obj := List.filter (fun kv => negb (nullish (snd kv))) o.

(** [tail_n p n s t]: [t] is what is left of [s] after [n] characters of
    the class [p]. *)
Inductive tail_n (p : ascii -> bool) : nat -> string -> string -> Prop :=
| tail_here (s : string) : tail_n p 0 s s
| tail_next (a : ascii) (n : nat) (s t : string) :
    p a = true -> tail_n p n s t -> tail_n p (S n) (String a s) t.

(** No character of the class [p] at the start of [s]. *)
Definition starts_without (p : ascii -> bool) (s : string) : Prop :=
  match s with
  | EmptyString => True
  | String a _ => p a = false
  end.

(** What follows an entry in the text of [axisToString] or
    [featuresToString]: nothing, or the comma of the separator. *)
Definition sep_or_end (rest : string) : Prop :=
  rest = "" \/ exists t : string, rest = String "," t.

(** The text of an entry: the tag between double quotes, a space, the
    text of the value. *)
Definition entry_text (k t : string) : string :=
  String dquote k +:+ String dquote " " +:+ t.

(** No double quote in a text. *)
Definition no_dquote (s : string) : bool := str_forall (fun a => negb (is_char dquote a)) s.

(** The assignments [out[k] = v] of a list of pairs, first to last. *)
Definition set_all (updates : list (string * value)) (out : obj) : obj :=
  fold_left (fun o kv => obj_set o (fst kv) (snd kv)) updates out.

(** The pairs that a loop assigns, given what it does on each entry. *)
Definition updates_of {E : Type} (upd : E -> option (string * value)) (es : list E)
  : list (string * value) :=
  flat_map (fun e => match upd e with Some u => [u] | None => [] end) es.

(** The text of a feature value as [featuresToString] writes it. *)
Definition feature_text (v : value) : string :=
  if isNumber v then ToString v else if truthy v then "on" else "off".

(** What a pattern that starts with the tag does on the text [entry e] of
    an entry, whatever follows it: it matches at its first quote, leaves
    a text without quotes, and the loop body makes the assignment [upd e];
    or it passes over the entry. *)
Definition reads {E : Type} (X : regex) (body : caps -> obj -> obj) (entry : E -> string)
           (upd : E -> option (string * value)) (e : E) : Prop :=
  forall rest : string,
    sep_or_end rest ->
    match upd e with
    | Some (k, v) =>
        exists (m : caps) (junk : string),
          exec (RCat re_tag X) (entry e +:+ rest) = Some (m, junk +:+ rest) /\
          no_dquote junk = true /\
          forall o, body m o = obj_set o k v
    | None => exec (RCat re_tag X) (entry e +:+ rest) = exec (RCat re_tag X) rest
    end.

(** The round trip of an axis map: [parseAxis] reads the text of
    [axisToString] back as an object with as many entries as the map has
    entries with a value, each tag with the parsed float of its value. *)
Definition axis_round_trip_at (axes : obj) : Prop :=
  exists out : obj,
    parseAxis (axisToString (Some axes)) = Some out /\
    length out = length (non_null axes) /\
    forall k v, In (k, v) axes -> nullish v = false ->
                obj_get out k = VNum (parseFloat (ToString v)).

(** A text that begins with an integer: an optional minus and digits; the
    rest has no double quote.  The text of every finite number is one. *)
Definition integer_led (t : string) : bool :=
  let t1 := match t with
            | String a t' => if is_char "-" a then t' else t
            | EmptyString => t
            end in
  let '(ip, t2) := span is_digit t1 in
  negb (String.eqb ip "") && no_dquote t2.

(** The integer part of the number that a decimal literal denotes.  The
    sign, the digits, the fraction and the exponent are read as
    [parseFloat] reads them; the value [digits * 10^e] is cut at the
    decimal point, exactly, and the integer is rounded to a Number. *)
Definition integer_part (t : string) : number :=
  let '(neg, s1) := read_sign (drop_while is_space t) in
  if String.prefix "Infinity" s1 then S754_infinity neg
  else
    let '(ip, s2) := span is_digit s1 in
    let '(fp, s3) :=
      match s2 with
      | String a r => if is_char "." a then span is_digit r else (EmptyString, s2)
      | EmptyString => (EmptyString, s2)
      end in
    match ip, fp with
    | EmptyString, EmptyString => NaN
    | _, _ =>
        let d := Z.of_N (digits_value (ip +:+ fp)) in
        let e := (read_exponent s3 - Z.of_nat (String.length fp))%Z in
        let z := if (0 <=? e)%Z then (d * 10 ^ e)%Z else (d / 10 ^ (- e))%Z in
        num_of_decimal neg (Z.to_N z) 0
    end.

(** The number of a value that is one. *)
Definition number_of (v : value) : number :=
  match v with VNum x => x | _ => NaN end.

(** The round trip of a feature map: a number comes back as the integer
    part of the number written for it, any other value as 1 when truthy
    and 0 when falsy. *)
Definition features_round_trip_at (features : obj) : Prop :=
  exists out : obj,
    parseFeatures (featuresToString (Some features)) = Some out /\
    length out = length (non_null features) /\
    forall k v, In (k, v) features -> nullish v = false ->
                obj_get out k
                = VNum (if isNumber v then integer_part (ToString v)
                        else if truthy v then num_of_Z 1 else num_of_Z 0).

(** An integer of at most three digits. *)
Definition small_integer (v : value) : Prop :=
  exists z : Z, (-999 <= z <= 999)%Z /\ v = VNum (num_of_Z z).

(** Two numbers are the same value, bit for bit. *)
Definition number_eqb (x y : number) : bool :=
  match x, y with
  | S754_zero a, S754_zero b => Bool.eqb a b
  | S754_infinity a, S754_infinity b => Bool.eqb a b
  | S754_nan, S754_nan => true
  | S754_finite a m e, S754_finite b m' e' => Bool.eqb a b && Pos.eqb m m' && Z.eqb e e'
  | _, _ => false
  end.

(** The integer [z] is a number that is written as a plain decimal, from
    which [parseInt] reads it back. *)
Definition integer_recovered (z : Z) : bool :=
  let x := num_of_Z z in
  isNumber (VNum x) && plain_decimal (NumberToString x)
  && number_eqb (parseInt (NumberToString x)) x.

(** [p] holds of the [n] integers from [z] on. *)
Fixpoint all_from (p : Z -> bool) (z : Z) (n : nat) : bool :=
  match n with
  | O => true
  | S n' => p z && all_from p (z + 1)%Z n'
  end.

(** [p] holds of the integers from [lo] to [hi]. *)
Definition all_between (p : Z -> bool) (lo hi : Z) : bool :=
  all_from p lo (Z.to_nat (hi - lo + 1)).

(** A value that is not an infinite number. *)
Definition not_infinite (v : value) : bool :=
  match v with
  | VNum (S754_infinity _) => false
  | _ => true
  end.

(** The numbers of the examples. *)
Definition num (text : string) : value := VNum (parseFloat text).

(** ** Sample data: the fonts of the usage example of the source *)

Definition sample_manager : FontManager :=
  {| injector := StyleInjector.new; attempts := []; registry := FontRegistry.empty;
     defaultLanguage := "ko";
     defaultFallback := ["system-ui"; "Segoe UI"; "Apple SD Gothic Neo"; "Noto Sans KR";
                         "sans-serif"];
     emitted := [] |}.

(** The descriptors [{ style: 'normal', weight: w, display: 'swap' }]. *)
Definition weight_only (w : value) : descriptors :=
  {| d_style := VStr "normal"; d_weight := w; d_stretch := VUndefined;
     d_display := VStr "swap"; d_unicodeRange := VUndefined |}.

(** The descriptor of the example at the head of the source (lines 21-30). *)
Definition sample_descriptor : FontDescriptor :=
  {| desc_name := Some "Inter";
     desc_src := Some [{| url := "/fonts/Inter.var.woff2"; format := Some "woff2" |}];
     desc_descriptors :=
       Some {| own_style := Some (VStr "normal"); own_weight := Some (VStr "100 900");
               own_stretch := Some (VStr "75% 125%"); own_display := None;
               own_unicodeRange := None |};
     desc_axes := Some [("wght", num "500"); ("wdth", num "100"); ("ital", num "0");
                        ("opsz", num "14")];
     desc_features := Some [("liga", num "1"); ("kern", num "1"); ("ss01", num "1")];
     desc_fallback := None;
     desc_languages := None |}.

(** The three fonts of the usage example (lines 859-890), as [loadFont]
    registers them. *)
Definition pretendard : Font :=
  {| name := "Pretendard";
     src := [{| url := "/fonts/PretendardVariable.woff2"; format := Some "woff2" |}];
     font_descriptors := Some (weight_only (VStr "100 900"));
     axes := Some [("wght", num "400"); ("wdth", num "100"); ("opsz", num "14")];
     features := Some [("liga", num "1"); ("kern", num "1")];
     fallback := Some ["Noto Sans KR"; "Apple SD Gothic Neo"; "system-ui"; "sans-serif"];
     languages := Some ["ko"] |}.





(** ** The library: the rest of the helpers

    The functions of the source that the statements above do not need:
    [clamp], [splitGraphemes], [EventEmitter], the registry readers,
    [ensureFonts], [createClass], [applyToElement], the presets, the
    feature helpers, [FontMetrics.baseline] and [detectLanguage]. *)

(** *** [clamp] (source line 42) *)

Definition is_nan (x : number) : bool :=
  match x with S754_nan => true | _ => false end.

(** [Math.max] of two Numbers (ECMA-262 21.3.2.24): [NaN] when one is, the
    second when it is above the first, and [+0] for [-0] and [+0]. *)
Definition Math_max (x y : number) : number :=
  if is_nan x || is_nan y then NaN
  else if SFltb x y then y
  else match x, y with
       | S754_zero true, S754_zero false => S754_zero false
       | _, _ => x
       end.

(** [Math.min] of two Numbers (ECMA-262 21.3.2.25). *)
Definition Math_min (x y : number) : number :=
  if is_nan x || is_nan y then NaN
  else if SFltb y x then y
  else match x, y with
       | S754_zero false, S754_zero true => S754_zero true
       | _, _ => x
       end.

Definition clamp (v min max : number) : number := Math_min (Math_max v min) max.

(** *** [splitGraphemes] (source lines 49-63)

    Here a string is the list of its UTF-16 code units, since the loop
    works on surrogate pairs. *)







(** *** [EventEmitter] (source lines 152-180)

    [listeners] is a [Map] from the type of an event to the array of its
    listeners.  A listener is a function, and [indexOf] tells two functions
    apart by identity; the model keeps the identity, a number. *)
Module EventEmitter.
Definition t : Type := list (string * list nat).

Definition new : t := [].

(** [listeners.get(type)]. *)
Fixpoint get (e : t) (type : string) : option (list nat) :=
  match e with
  | [] => None
  | (k, arr) :: e' => if String.eqb k type then Some arr else get e' type
  end.

(** [listeners.set(type, arr)]. *)
Fixpoint set (e : t) (type : string) (arr : list nat) : t :=
  match e with
  | [] => [(type, arr)]
  | (k, a) :: e' => if String.eqb k type then (k, arr) :: e' else (k, a) :: set e' type arr
  end.

(** [arr.indexOf(fn)], [None] for [-1]. *)
Fixpoint indexOf (fn : nat) (arr : list nat) : option nat :=
  match arr with
  | [] => None
  | g :: arr' => if (g =? fn)%nat then Some 0%nat else option_map S (indexOf fn arr')
  end.

(** [arr.splice(i, 1)]. *)
Definition splice (i : nat) (arr : list nat) : list nat :=
  (firstn i arr ++ skipn (S i) arr)%list.

(** The array is changed in place; the map holds the same array, so the
    change shows in the map. *)
Definition on (type : string) (fn : nat) (e : t) : t :=
  let arr := match get e type with Some arr => arr | None => [] end in
  set e type (arr ++ [fn])%list.

Definition off (type : string) (fn : nat) (e : t) : t :=
  match get e type with
  | None => e
  | Some arr =>
      match indexOf fn arr with
      | Some i => set e type (splice i arr)
      | None => e
      end
  end.

(** [emit]: the listeners it calls, first to last.  The loop runs over a
    copy of the array, and what a listener throws is caught, so each of
    them is called. *)
Definition emit (type : string) (e : t) : list nat :=
  match get e type with
  | None => []
  | Some arr => arr
  end.
End EventEmitter.

(** *** The readers of the registry and [ensureFonts] (source lines 464-474) *)

Definition getFont (fm : FontManager) (nm : string) : option Font :=
  FontRegistry.get (registry fm) nm.

Definition listFonts (fm : FontManager) : list Font := FontRegistry.all (registry fm).

(** A call of [loadFont] as its caller sees it: an [async] function runs
    to its first [await] and returns the promise; what it throws before
    rejects the promise. *)
Definition call_loadFont (supportsFontFace : bool) (desc : FontDescriptor) (sys : system)
  : system :=
  match loadFont_begin supportsFontFace desc (manager sys) with
  | inl err => {| manager := manager sys; calls := (calls sys ++ [Rejected err])%list |}
  | inr (fm, f) => {| manager := fm; calls := (calls sys ++ [Loading f])%list |}
  end.

(** [fonts.map((f) => this.loadFont(f))]: the calls are made one after the
    other, before any of them goes on. *)
Definition ensureFonts (supportsFontFace : bool) (fonts : list FontDescriptor) (sys : system)
  : system :=
  fold_left (fun sys desc => call_loadFont supportsFontFace desc sys) fonts sys.

(** [Promise.all] of the promises of a list of calls: rejected with the
    error of the first rejected call, fulfilled with the results when each
    call is resolved, [None] while it is pending. *)
Fixpoint Promise_all (cs : list call) : option (string + list LoadFontResult) :=
  match cs with
  | [] => Some (inr [])
  | c :: rest =>
      match c, Promise_all rest with
      | Rejected err, _ => Some (inl err)
      | _, Some (inl err) => Some (inl err)
      | Resolved res, Some (inr l) => Some (inr (res :: l))
      | _, _ => None
      end
  end.

(** *** [createClass] and [applyToElement] (source lines 511-584) *)

(** A style object; an absent field is [undefined] or [None]. *)
Record FontStyle : Type := {
  st_family : option string;
  st_size : value;
  st_weight : value;
  st_stretch : value;
  st_style : value;
  st_axes : option obj;
  st_features : option obj;
  st_fallback : option (list string);
  st_languages : option (list string);
  st_lineHeight : value;
  st_letterSpacing : value;
  st_color : value
}.

(** [v || d]. *)
Definition or_else (v d : value) : value := if truthy v then v else d.

(** [x && Object.keys(x).length ? f(x) : none]. *)
Definition with_keys {A : Type} (x : option obj) (f : obj -> A) (none : A) : A :=
  match x with
  | Some (e :: o) => f (e :: o)
  | _ => none
  end.

Definition newline : string := String (ascii_of_nat 10) "".

(** The lines of the rule that [createClass] builds. *)
Definition class_css (fm : FontManager) (className : string) (style : FontStyle)
  : list string :=
  let family := composeFamily fm (st_family style) (st_fallback style) (st_languages style) in
  (["." +:+ className +:+ " {";
    "  font-family: " +:+ family +:+ ";";
    "  font-size: " +:+ toPx (or_else (st_size style) (VNum (num_of_Z 16))) +:+ ";";
    "  font-weight: "
      +:+ ToString (if nullish (st_weight style) then VStr "normal" else st_weight style)
      +:+ ";";
    "  font-style: " +:+ ToString (or_else (st_style style) (VStr "normal")) +:+ ";";
    "  font-stretch: "
      +:+ (if isNumber (st_stretch style) then ToString (st_stretch style) +:+ "%"
           else ToString (or_else (st_stretch style) (VStr "normal")))
      +:+ ";"]
   ++ with_keys (st_axes style)
        (fun o => ["  font-variation-settings: " +:+ axisToString (Some o) +:+ ";"]) []
   ++ with_keys (st_features style)
        (fun o => ["  font-feature-settings: " +:+ featuresToString (Some o) +:+ ";"]) []
   ++ (if nullish (st_lineHeight style) then []
       else ["  line-height: " +:+ ToString (st_lineHeight style) +:+ ";"])
   ++ (if nullish (st_letterSpacing style) then []
       else ["  letter-spacing: "
               +:+ (if isNumber (st_letterSpacing style)
                    then ToString (st_letterSpacing style) +:+ "px"
                    else ToString (st_letterSpacing style))
               +:+ ";"])
   ++ (if truthy (st_color style) then ["  color: " +:+ ToString (st_color style) +:+ ";"]
       else [])
   ++ ["}"])%list.

Definition createClass (className : string) (style : FontStyle) (fm : FontManager)
  : FontManager :=
  let css := class_css fm className style in
  emit None (EvClass className)
       (with_injector (StyleInjector.inject (join newline css) (injector fm)) fm).

(** [el.style]: the properties [applyToElement] assigns, with the two
    settings that the axis and feature helpers read.  An assignment stores
    the value as it is. *)
Record ElementStyle : Type := {
  fontFamily : string;
  fontSize : string;
  fontWeight : string;
  fontStretch : string;
  fontStyle : value;
  settings : Element;
  el_lineHeight : string;
  el_letterSpacing : string;
  el_color : value
}.

(** A destructuring default: it stands in for [undefined] only. *)
Definition default_to (v d : value) : value :=
  match v with VUndefined => d | _ => v end.

(** [el] is [None] when the element or its [style] is missing. *)
Definition applyToElement (fm : FontManager) (el : option ElementStyle) (style : FontStyle)
  : option ElementStyle :=
  match el with
  | None => None
  | Some s =>
      let size := default_to (st_size style) (VNum (num_of_Z 16)) in
      let weight := default_to (st_weight style) (VStr "normal") in
      let stretch := default_to (st_stretch style) (VStr "normal") in
      let fontStyle' := default_to (st_style style) (VStr "normal") in
      let lh := st_lineHeight style in
      let ls := st_letterSpacing style in
      Some {| fontFamily :=
                composeFamily fm (st_family style) (st_fallback style) (st_languages style);
              fontSize := toPx size;
              fontWeight := if isString weight || isNumber weight then ToString weight
                            else "normal";
              fontStretch := if isNumber stretch then ToString stretch +:+ "%"
                             else ToString stretch;
              fontStyle := fontStyle';
              settings :=
                {| fontVariationSettings :=
                     with_keys (st_axes style) (fun o => axisToString (Some o)) "";
                   fontFeatureSettings :=
                     with_keys (st_features style) (fun o => featuresToString (Some o)) "" |};
              el_lineHeight := if nullish lh then el_lineHeight s else ToString lh;
              el_letterSpacing :=
                if nullish ls then el_letterSpacing s
                else if isNumber ls then ToString ls +:+ "px" else ToString ls;
              el_color := if truthy (st_color style) then st_color style else el_color s |}
  end.

(** *** The presets (source lines 430-440 and 779-814)

    [presets] is a [Map] from the name of a preset to its style.  The
    manager of the statements above has no such field; here the map goes
    with the manager. *)
Module Presets.
Definition t : Type := list (string * FontStyle).

Definition empty : t := [].

Fixpoint get (p : t) (nm : string) : option FontStyle :=
  match p with
  | [] => None
  | (k, style) :: p' => if String.eqb k nm then Some style else get p' nm
  end.

Fixpoint set (p : t) (nm : string) (style : FontStyle) : t :=
  match p with
  | [] => [(nm, style)]
  | (k, st) :: p' =>
      if String.eqb k nm then (k, style) :: p' else (k, st) :: set p' nm style
  end.
End Presets.

Definition registerPreset (nm : string) (style : FontStyle) (st : Presets.t * FontManager)
  : Presets.t * FontManager :=
  (Presets.set (fst st) nm style, emit None (EvPreset nm) (snd st)).

Definition getPreset (st : Presets.t * FontManager) (nm : string) : option FontStyle :=
  Presets.get (fst st) nm.

(** The three styles of [createKoreanPresets]. *)
Definition body_kr : FontStyle :=
  {| st_family := Some "Noto Sans KR"; st_size := num "16"; st_weight := num "400";
     st_stretch := VStr "normal"; st_style := VStr "normal";
     st_axes := None;
     st_features := Some [("liga", num "1"); ("kern", num "1")];
     st_fallback := Some ["Apple SD Gothic Neo"; "Segoe UI"; "system-ui"; "sans-serif"];
     st_languages := Some ["ko"];
     st_lineHeight := num "1.6"; st_letterSpacing := VUndefined; st_color := VUndefined |}.

Definition headline_kr : FontStyle :=
  {| st_family := Some "Pretendard"; st_size := num "28"; st_weight := num "700";
     st_stretch := VUndefined; st_style := VStr "normal";
     st_axes := Some [("wght", num "700"); ("wdth", num "100"); ("opsz", num "28")];
     st_features := Some [("liga", num "1"); ("kern", num "1")];
     st_fallback := Some ["Noto Sans KR"; "Apple SD Gothic Neo"; "system-ui"; "sans-serif"];
     st_languages := Some ["ko"];
     st_lineHeight := num "1.3"; st_letterSpacing := VUndefined; st_color := VUndefined |}.

Definition mono : FontStyle :=
  {| st_family := Some "JetBrains Mono"; st_size := num "14"; st_weight := num "400";
     st_stretch := VUndefined; st_style := VStr "normal";
     st_axes := None;
     st_features := Some [("liga", num "1"); ("kern", num "1"); ("ss01", num "1")];
     st_fallback := Some ["ui-monospace"; "SFMono-Regular"; "Menlo"; "Consolas"; "monospace"];
     st_languages := Some ["en"; "ko"];
     st_lineHeight := num "1.5"; st_letterSpacing := VUndefined; st_color := VUndefined |}.

Definition createKoreanPresets (st : Presets.t * FontManager) : Presets.t * FontManager :=
  registerPreset "mono" mono
    (registerPreset "headline-kr" headline_kr
       (registerPreset "body-kr" body_kr st)).

(** *** [setFeature] and [getFeature] (source lines 621-630) *)

Definition setFeature (el : Element) (featureName : string) (v : value) : option Element :=
  match parseFeatures (fontFeatureSettings el) with
  | None => None
  | Some current =>
      let current := obj_set current featureName v in
      Some {| fontVariationSettings := fontVariationSettings el;
              fontFeatureSettings := featuresToString (Some current) |}
  end.

Definition getFeature (el : Element) (featureName : string) : option value :=
  match parseFeatures (fontFeatureSettings el) with
  | None => None
  | Some current => Some (obj_get current featureName)
  end.

(** *** [FontMetrics.baseline] (source lines 364-418)

    [img] is the data of the canvas after the text is drawn, four bytes a
    pixel; the function scans its alpha bytes. *)

(** [img[i]]; past the end it is [undefined], which is not above zero. *)
Definition alpha (img : list N) (i : nat) : N := nth i img 0%N.

(** The inner loop: is some alpha byte of the row above zero? *)
Definition row_has_ink (img : list N) (width row : nat) : bool :=
  existsb (fun col => (0 <? alpha img (row * width * 4 + col * 4 + 3))%N) (seq 0 width).

(** The search upwards, from [row] down to row 0. *)
Fixpoint scan_up (img : list N) (width row ascentRow : nat) : nat :=
  if row_has_ink img width row then
    match row with
    | O => O
    | S r => scan_up img width r row
    end
  else ascentRow.

(** The search downwards; [fuel] is the number of rows from [row] to the
    last one. *)
Fixpoint scan_down (img : list N) (width fuel row descentRow : nat) : nat :=
  match fuel with
  | O => descentRow
  | S f =>
      if row_has_ink img width row then scan_down img width f (S row) row
      else descentRow
  end.

Record Baseline : Type := {
  baselineY : Z;
  ascent : Z;
  descent : Z;
  total : Z
}.

Definition baseline_row : nat := 150.

Definition baseline (img : list N) (width height : nat) : Baseline :=
  let y := baseline_row in
  let ascentRow := scan_up img width y y in
  let descentRow := scan_down img width (height - y) y y in
  {| baselineY := Z.of_nat y;
     ascent := Z.of_nat y - Z.of_nat ascentRow;
     descent := Z.of_nat descentRow - Z.of_nat y;
     total := (Z.of_nat y - Z.of_nat ascentRow) + (Z.of_nat descentRow - Z.of_nat y) |}.

(** *** [detectLanguage] (source lines 759-769) *)

(** [navigator]: [languages] is [None] when it is missing, as is
    [language]. *)
Record Navigator : Type := {
  nav_languages : option (list string);
  nav_language : option string
}.

Definition startsWith (s p : string) : bool := String.prefix p s.

(** [s.split('-')[0]]. *)
Definition before_hyphen (s : string) : string :=
  fst (span (fun a => negb (is_char "-" a)) s).

Definition detectLanguage (nav : option Navigator) : string :=
  let langs : list (option string) :=
    match nav with
    | Some n =>
        match nav_languages n with
        | Some l => map Some l
        | None => [nav_language n]
        end
    | None => []
    end in
  let first := match langs with
               | Some s :: _ => if String.eqb s "" then "en" else s
               | _ => "en"
               end in
  let primary := toLowerCase first in
  if startsWith primary "ko" then "ko"
  else if startsWith primary "ja" then "ja"
  else if startsWith primary "zh" then "zh"
  else if startsWith primary "en" then "en"
  else before_hyphen primary.

(** ** Definitions for the statements on the rest of the helpers *)

(** The name and the sources of a descriptor that [loadFont] accepts. *)
Definition validated (desc : FontDescriptor) : option (string * list source) :=
  match desc_name desc, desc_src desc with
  | Some nm, Some (s :: srcs) => if String.eqb nm "" then None else Some (nm, s :: srcs)
  | _, _ => None
  end.

(** A descriptor as [loadFont] registers it: named, with a source, and
    with the three fields that the normalization fills in. *)
Definition normalized (f : Font) : Prop :=
  name f <> "" /\ src f <> [] /\ font_descriptors f <> None /\
  fallback f <> None /\ languages f <> None.

(** A registry whose keys are the names of its fonts, each once, and whose
    fonts are normalized. *)
Definition registry_ok (r : FontRegistry.t) : Prop :=
  List.NoDup (map fst r) /\
  forall k f, In (k, f) r -> k = name f /\ normalized f.

(** The state of the call of [loadFont] on [desc] when it has reached its
    first [await], or has thrown. *)
Definition started (fm : FontManager) (desc : FontDescriptor) : call :=
  match validated desc with
  | Some (nm, srcs) => Loading (normalize fm nm srcs desc)
  | None => Rejected invalid_descriptor
  end.

(** A call that has passed the validation holds a normalized descriptor. *)
Definition pending_ok (c : call) : Prop :=
  match c with
  | Loading f | Waiting f _ => normalized f
  | _ => True
  end.

(** The descriptors that a list of calls of [loadFont] hands to the
    loader, in the order of the calls. *)
Definition handed_over (fm : FontManager) (fonts : list FontDescriptor) : list Font :=
  flat_map (fun desc => match validated desc with
                        | Some (nm, srcs) => [normalize fm nm srcs desc]
                        | None => []
                        end) fonts.

(** An object as [parseAxis] returns it: each key once, a tag of three or
    four letters or digits, with the number of a plain decimal. *)
Definition axis_values (out : obj) : Prop :=
  List.NoDup (map fst out) /\
  forall k v, In (k, v) out ->
              tag_ok k = true /\
              exists t : string, plain_decimal t = true /\ v = VNum (parseFloat t).

(** The text of an integer: an optional minus and digits. *)
Definition integer_text (t : string) : Prop :=
  exists sgn ip : string,
    t = sgn +:+ ip /\ (sgn = "" \/ sgn = "-") /\ ip <> "" /\ str_forall is_digit ip = true.

(** An object as [parseFeatures] returns it: each key once, a tag, with
    the integer of its text or with 1 or 0 for [on] and [off]. *)
Definition feature_values (out : obj) : Prop :=
  List.NoDup (map fst out) /\
  forall k v, In (k, v) out ->
              tag_ok k = true /\
              ((exists t : string, integer_text t /\ v = VNum (parseInt t)) \/
               v = VNum (num_of_Z 1) \/ v = VNum (num_of_Z 0)).


(** The names that [composeFamily] writes, whatever its arguments: the
    primary name, the registered fonts that declare a language of the set
    (but for the primary one), the fallback chain; the empty names are
    left out. *)
Definition family_names (fm : FontManager) (primary : option string)
           (fallback langs : option (list string)) : list string :=
  List.filter (fun nm => negb (String.eqb nm ""))
    ((match primary with Some p => [p] | None => [] end)
     ++ List.filter (fun lm => match primary with
                               | Some p => negb (String.eqb lm p)
                               | None => true
                               end)
          (map name
               (List.filter (fun f => existsb (fun l => str_in l (langSet fm langs)) (declared f))
                            (FontRegistry.all (registry fm))))
     ++ match fallback with Some l => l | None => defaultFallback fm end)%list.

(** * Properties *)

(** ** Strings *)

Lemma string_eqb_refl (s : string) : String.eqb s s = true.
Proof. apply String.eqb_eq. reflexivity. Qed.

Lemma str_in_In (x : string) (l : list string) : str_in x l = true <-> In x l.
Proof.
  unfold str_in. rewrite existsb_exists. split.
  - intros [y [Hy Heq]]. apply String.eqb_eq in Heq. subst. exact Hy.
  - intros H. exists x. split; [exact H | apply string_eqb_refl].
Qed.

Lemma str_in_app (x : string) (l1 l2 : list string) :
  str_in x (l1 ++ l2)%list = str_in x l1 || str_in x l2.
Proof. unfold str_in. apply existsb_app. Qed.

(** ** The style injector *)

Section Injector.
Import StyleInjector.

Lemma rules_are_nodes_new : rules_are_nodes new.
Proof.
  intros u. unfold new, nodes. simpl. split; [| intros []].
  intros H. apply not_elem_of_empty in H. exact H.
Qed.

Lemma nodes_ensureNode (i : t) : nodes (ensureNode i) = nodes i.
Proof. destruct i as [[l |] r]; reflexivity. Qed.

Lemma rules_ensureNode (i : t) : rules (ensureNode i) = rules i.
Proof. destruct i as [[l |] r]; reflexivity. Qed.

Lemma inject_known (u : string) (i : t) :
  u ∈ rules i -> inject u i = ensureNode i.
Proof.
  intros H. unfold inject. rewrite rules_ensureNode.
  destruct (decide (u ∈ rules i)); [reflexivity | contradiction].
Qed.

Lemma nodes_inject_new (u : string) (i : t) :
  u ∉ rules i -> nodes (inject u i) = (nodes i ++ [u])%list.
Proof.
  intros H. unfold inject. rewrite rules_ensureNode.
  destruct (decide (u ∈ rules i)); [contradiction |].
  destruct i as [[l |] r]; reflexivity.
Qed.

Lemma rules_inject (u : string) (i : t) : rules (inject u i) = {[u]} ∪ rules i.
Proof.
  unfold inject. rewrite rules_ensureNode.
  destruct (decide (u ∈ rules i)) as [H | H].
  - rewrite rules_ensureNode. apply leibniz_equiv. intros v.
    rewrite elem_of_union, elem_of_singleton. split; [tauto |].
    intros [-> | Hv]; assumption.
  - reflexivity.
Qed.

Lemma rules_are_nodes_inject (u : string) (i : t) :
  rules_are_nodes i -> rules_are_nodes (inject u i).
Proof.
  intros Hinv v. rewrite rules_inject.
  destruct (decide (u ∈ rules i)) as [H | H].
  - rewrite (inject_known u i H), nodes_ensureNode, <- (Hinv v).
    rewrite elem_of_union, elem_of_singleton. split; [| tauto].
    intros [-> | Hv]; assumption.
  - rewrite (nodes_inject_new u i H), in_app_iff, <- (Hinv v).
    rewrite elem_of_union, elem_of_singleton. simpl. split.
    + intros [-> | Hv]; [right; left; reflexivity | left; exact Hv].
    + intros [Hv | [-> | []]]; [right; exact Hv | left; reflexivity].
Qed.

Lemma filter_drop_known (seen : list string) (u : string) (l : list string) :
  In u seen ->
  List.filter (fun v => negb (str_in v seen)) (List.filter (fun v => negb (String.eqb v u)) l)
  = List.filter (fun v => negb (str_in v seen)) l.
Proof.
  intros Hu. induction l as [| v l IH]; [reflexivity |]. simpl.
  destruct (String.eqb v u) eqn:E; simpl.
  - apply String.eqb_eq in E. subst v.
    assert (Hs : str_in u seen = true) by (apply str_in_In; exact Hu).
    rewrite Hs. simpl. exact IH.
  - destruct (str_in v seen); simpl; rewrite IH; reflexivity.
Qed.

Lemma filter_seen_snoc (seen : list string) (u : string) (l : list string) :
  List.filter (fun v => negb (str_in v (seen ++ [u])%list)) l
  = List.filter (fun v => negb (str_in v seen)) (List.filter (fun v => negb (String.eqb v u)) l).
Proof.
  induction l as [| v l IH]; [reflexivity |]. simpl.
  rewrite str_in_app. unfold str_in at 2. simpl. rewrite orb_false_r.
  destruct (String.eqb v u) eqn:E; simpl.
  - rewrite orb_true_r. simpl. exact IH.
  - rewrite orb_false_r. destruct (str_in v seen); simpl; rewrite IH; reflexivity.
Qed.

(** The nodes after a sequence of calls: the nodes before, then the first
    occurrences of the texts that were not there. *)
Lemma nodes_inject_all (texts : list string) :
  forall i : t, rules_are_nodes i ->
    nodes (inject_all texts i)
    = (nodes i ++ List.filter (fun v => negb (str_in v (nodes i))) (first_occurrences texts))%list.
Proof.
  induction texts as [| u rest IH]; intros i Hinv.
  - simpl. rewrite app_nil_r. reflexivity.
  - unfold inject_all. simpl. fold (inject_all rest (inject u i)).
    rewrite (IH _ (rules_are_nodes_inject u i Hinv)).
    destruct (decide (u ∈ rules i)) as [H | H].
    + rewrite (inject_known u i H), nodes_ensureNode.
      assert (Hin : In u (nodes i)) by (apply Hinv; exact H).
      assert (Hs : str_in u (nodes i) = true) by (apply str_in_In; exact Hin).
      rewrite Hs. simpl. rewrite (filter_drop_known _ _ _ Hin). reflexivity.
    + rewrite (nodes_inject_new u i H).
      assert (Hs : str_in u (nodes i) = false).
      { destruct (str_in u (nodes i)) eqn:E; [| reflexivity].
        apply str_in_In in E. apply Hinv in E. contradiction. }
      rewrite Hs. simpl. rewrite filter_seen_snoc, <- app_assoc. reflexivity.
Qed.

Lemma first_occurrences_In (texts : list string) (u : string) :
  In u (first_occurrences texts) <-> In u texts.
Proof.
  induction texts as [| v rest IH]; simpl; [tauto |].
  rewrite filter_In, IH. split.
  - intros [H | [H _]]; [left | right]; assumption.
  - intros [H | H]; [left; exact H |].
    destruct (String.eqb u v) eqn:E.
    + left. apply String.eqb_eq in E. congruence.
    + right. split; [exact H | reflexivity].
Qed.

Lemma first_occurrences_NoDup (texts : list string) : List.NoDup (first_occurrences texts).
Proof.
  induction texts as [| v rest IH]; simpl; constructor.
  - rewrite filter_In. intros [_ H]. rewrite string_eqb_refl in H. discriminate.
  - apply List.NoDup_filter. exact IH.
Qed.
End Injector.

(** C7. [inject] is idempotent on the rule text: a second call with the
    same text changes nothing, and after any sequence of calls on a new
    injector the style element holds each distinct text once, at the place
    of its first injection. *)
Theorem inject_appends_each_text_once :
  (forall (cssText : string) (i : StyleInjector.t),
      StyleInjector.inject cssText (StyleInjector.inject cssText i)
      = StyleInjector.inject cssText i) /\
  (forall texts : list string,
      let appended := StyleInjector.nodes (inject_all texts StyleInjector.new) in
      appended = first_occurrences texts /\
      List.NoDup appended /\
      (forall cssText : string, In cssText appended <-> In cssText texts)).
Proof.
  split.
  - intros u i. rewrite inject_known.
    + destruct i as [[l |] r]; unfold StyleInjector.inject; simpl;
        destruct (decide (u ∈ r)); reflexivity.
    + rewrite rules_inject. apply elem_of_union_l, elem_of_singleton. reflexivity.
  - intros texts appended.
    assert (E : appended = first_occurrences texts).
    { unfold appended. rewrite (nodes_inject_all texts _ rules_are_nodes_new).
      simpl. clear appended.
      induction (first_occurrences texts) as [| v l IH]; [reflexivity |].
      simpl. f_equal. exact IH. }
    rewrite E. split; [reflexivity |]. split.
    + apply first_occurrences_NoDup.
    + intros u. apply first_occurrences_In.
Qed.

(** ** [loadFont]: validation *)

Lemma loadFont_begin_invalid (supportsFontFace : bool) (desc : FontDescriptor)
      (fm : FontManager) :
  desc_name desc = None \/ desc_name desc = Some "" \/
  desc_src desc = None \/ desc_src desc = Some [] ->
  loadFont_begin supportsFontFace desc fm = inl invalid_descriptor.
Proof.
  unfold loadFont_begin.
  intros [H | [H | [H | H]]]; rewrite H.
  - reflexivity.
  - destruct (desc_src desc) as [[| s srcs] |]; reflexivity.
  - destruct (desc_name desc); reflexivity.
  - destruct (desc_name desc); reflexivity.
Qed.

(** A step leaves the calls it does not run where they were. *)
Lemma step_inv (supportsFontFace : bool) (sys sys' : system) :
  step supportsFontFace sys sys' ->
  (exists desc, manager sys' = manager sys /\ calls sys' = (calls sys ++ [Called desc])%list) \/
  (exists e, manager sys' = emit None e (manager sys) /\ calls sys' = calls sys) \/
  (exists (j : nat) (c c' : call),
      calls sys !! j = Some c /\ calls sys' = <[j := c']> (calls sys) /\
      ((exists desc err, c = Called desc /\ c' = Rejected err /\
                         loadFont_begin supportsFontFace desc (manager sys) = inl err /\
                         manager sys' = manager sys) \/
       (exists desc f, c = Called desc /\ c' = Loading f /\
                       loadFont_begin supportsFontFace desc (manager sys)
                       = inr (manager sys', f)) \/
       (exists f o fm result, c = Loading f /\ c' = Waiting f result /\
                       load_settle supportsFontFace o f (manager sys) = (fm, result) /\
                       manager sys' = loadFont_loaded j f result fm) \/
       (exists f result ok, c = Waiting f result /\
                       c' = Resolved {| res_name := name f; res_ok := ok; res_result := result |} /\
                       manager sys' = emit (Some j) (EvReady (name f) ok) (manager sys)))).
Proof.
  intros Hstep. destruct Hstep.
  - left. eexists. split; reflexivity.
  - right. right. exists i, (Called desc), (Rejected err).
    split; [assumption |]. split; [reflexivity |]. left.
    exists desc, err. auto.
  - right. right. exists i, (Called desc), (Loading f).
    split; [assumption |]. split; [reflexivity |]. right. left.
    exists desc, f. auto.
  - right. right. exists i, (Loading f), (Waiting f result).
    split; [assumption |]. split; [reflexivity |]. right. right. left.
    exists f, o, fm, result. auto.
  - right. right. eexists i, (Waiting f result), _.
    split; [assumption |]. split; [reflexivity |]. right. right. right.
    exists f, result, ok. auto.
  - right. left. exists e. split; reflexivity.
Qed.

(** C3. A descriptor without a name, or whose source list is absent or
    empty, makes [loadFont] throw the validation error at once: the call is
    rejected, and the manager (registry, load attempts, injected rules,
    events) is as it was. *)
Theorem loadFont_rejects_invalid_descriptor :
  forall (supportsFontFace : bool) (desc : FontDescriptor) (fm : FontManager),
    desc_name desc = None \/ desc_name desc = Some "" \/
    desc_src desc = None \/ desc_src desc = Some [] ->
    loadFont_begin supportsFontFace desc fm = inl invalid_descriptor /\
    (forall (o : load_outcome) (ok : bool) (id : nat),
        loadFont supportsFontFace o ok id desc fm = inl invalid_descriptor) /\
    (forall (sys sys' : system) (i : nat),
        calls sys !! i = Some (Called desc) ->
        step supportsFontFace sys sys' ->
        calls sys' !! i = Some (Called desc) \/
        (calls sys' !! i = Some (Rejected invalid_descriptor) /\
         manager sys' = manager sys)).
Proof.
  intros sff desc fm Hbad.
  split; [apply loadFont_begin_invalid; exact Hbad |].
  split.
  - intros o ok id. unfold loadFont.
    rewrite (loadFont_begin_invalid sff desc fm Hbad). reflexivity.
  - intros sys sys' i Hi Hstep.
    destruct (step_inv _ _ _ Hstep) as [[d [Hm Hc]] | [[e [Hm Hc]] | [j [c [c' [Hj [Hc Hcase]]]]]]].
    + left. rewrite Hc. rewrite lookup_app_l; [exact Hi |].
      apply lookup_lt_Some in Hi. exact Hi.
    + left. rewrite Hc. exact Hi.
    + destruct (decide (j = i)) as [-> | Hne].
      * rewrite Hi in Hj. injection Hj as <-.
        pose proof (loadFont_begin_invalid sff desc (manager sys) Hbad) as Hinl.
        destruct Hcase as [[d [err [Hd [Hc' [Hb Hm]]]]] | [[d [f [Hd [_ Hb]]]] | [H | H]]].
        -- injection Hd as <-. rewrite Hinl in Hb. injection Hb as <-.
           right. split; [| exact Hm].
           rewrite Hc, Hc'. apply list_lookup_insert_eq.
           apply lookup_lt_Some in Hi. exact Hi.
        -- injection Hd as <-. rewrite Hinl in Hb. discriminate.
        -- destruct H as [f [o [fm' [r [Hd _]]]]]. discriminate.
        -- destruct H as [f [r [ok [Hd _]]]]. discriminate.
      * left. rewrite Hc. rewrite list_lookup_insert_ne; [exact Hi | exact Hne].
Qed.

(** The descriptor of the specification: a name and an empty source list. *)
Lemma loadFont_rejects_invalid_descriptor_witness :
  let desc := {| desc_name := Some "X"; desc_src := Some []; desc_descriptors := None;
                 desc_axes := None; desc_features := None; desc_fallback := None;
                 desc_languages := None |} in
  let fm := {| injector := StyleInjector.new; attempts := []; registry := FontRegistry.empty;
               defaultLanguage := "en"; defaultFallback := ["sans-serif"]; emitted := [] |} in
  loadFont_begin true desc fm = inl invalid_descriptor.
Proof.
  intros desc fm.
  apply (loadFont_rejects_invalid_descriptor true desc fm).
  right. right. right. reflexivity.
Defined.

(** ** [loadFont]: the order of the events *)

Lemma events_of_app (id : nat) (l1 l2 : list (option nat * event)) :
  events_of id (l1 ++ l2)%list = (events_of id l1 ++ events_of id l2)%list.
Proof. unfold events_of. rewrite List.filter_app, List.map_app. reflexivity. Qed.

Lemma events_of_own (id : nat) (e : event) : events_of id [(Some id, e)] = [e].
Proof. unfold events_of. simpl. rewrite Nat.eqb_refl. reflexivity. Qed.

Lemma events_of_foreign (id j : nat) (e : event) : j <> id -> events_of id [(Some j, e)] = [].
Proof.
  intros H. unfold events_of. simpl.
  destruct (Nat.eqb_spec j id); [contradiction | reflexivity].
Qed.

Lemma events_of_In (id : nat) (e : event) (l : list (option nat * event)) :
  In e (events_of id l) -> In (Some id, e) l.
Proof.
  unfold events_of. rewrite in_map_iff. intros [[who e'] [He Hin]].
  simpl in He. subst e'. apply filter_In in Hin. destruct Hin as [Hin Hw].
  simpl in Hw. destruct who as [j |]; [| discriminate].
  apply Nat.eqb_eq in Hw. subst j. exact Hin.
Qed.

Lemma emitted_load_begin (sff : bool) (f : Font) (fm : FontManager) :
  emitted (load_begin sff f fm) = emitted fm.
Proof. unfold load_begin. destruct sff; reflexivity. Qed.

Lemma emitted_loadFont_begin (sff : bool) (desc : FontDescriptor) (fm fm' : FontManager)
      (f : Font) :
  loadFont_begin sff desc fm = inr (fm', f) -> emitted fm' = emitted fm.
Proof.
  unfold loadFont_begin.
  destruct (desc_name desc) as [nm |]; [| discriminate].
  destruct (desc_src desc) as [[| s srcs] |]; try discriminate.
  destruct (String.eqb nm ""); [discriminate |].
  intros H. injection H as <- _. apply emitted_load_begin.
Qed.

Lemma emitted_load_settle (sff : bool) (o : load_outcome) (f : Font)
      (fm fm' : FontManager) (result : LoadResult) :
  load_settle sff o f fm = (fm', result) -> emitted fm' = emitted fm.
Proof.
  unfold load_settle. destruct sff; [destruct o |]; intros H; injection H as <- _; reflexivity.
Qed.

(** The invariant of the event loop: every call has emitted what its state
    says. *)
Lemma step_events (sff : bool) (sys sys' : system) :
  step sff sys sys' ->
  (forall i, events_of i (emitted (manager sys)) = expected_events (calls sys !! i)) ->
  forall i, events_of i (emitted (manager sys')) = expected_events (calls sys' !! i).
Proof.
  intros Hstep Hinv i.
  destruct (step_inv _ _ _ Hstep) as [[d [Hm Hc]] | [[e [Hm Hc]] | [j [c [c' [Hj [Hc Hcase]]]]]]].
  - rewrite Hm, Hc, Hinv.
    destruct (calls sys !! i) as [ci |] eqn:Hi.
    + rewrite lookup_app_l, Hi; [reflexivity |]. apply lookup_lt_Some in Hi. exact Hi.
    + apply lookup_ge_None in Hi.
      destruct (decide (i = length (calls sys))) as [-> | Hne].
      * rewrite list_lookup_middle; reflexivity.
      * rewrite lookup_ge_None_2; [reflexivity |]. rewrite length_app. simpl. lia.
  - rewrite Hm, Hc. simpl. rewrite events_of_app, Hinv.
    unfold events_of. simpl. apply app_nil_r.
  - assert (Hlt : j < length (calls sys)) by (apply lookup_lt_Some in Hj; exact Hj).
    rewrite Hc. destruct (decide (j = i)) as [-> | Hne].
    + rewrite list_lookup_insert_eq by exact Hlt.
      specialize (Hinv i). rewrite Hj in Hinv.
      destruct Hcase as [[d [err [-> [-> [_ Hm]]]]] | [[d [f [-> [-> Hb]]]] | [H | H]]].
      * rewrite Hm. exact Hinv.
      * rewrite (emitted_loadFont_begin _ _ _ _ _ Hb). exact Hinv.
      * destruct H as [f [o [fm [r [-> [-> [Hs Hm]]]]]]].
        rewrite Hm. simpl. rewrite events_of_app, events_of_own.
        rewrite (emitted_load_settle _ _ _ _ _ _ Hs), Hinv. reflexivity.
      * destruct H as [f [r [ok [-> [-> Hm]]]]].
        rewrite Hm. simpl. rewrite events_of_app, events_of_own, Hinv. reflexivity.
    + rewrite list_lookup_insert_ne by exact Hne. rewrite <- Hinv.
      destruct Hcase as [[d [err [_ [_ [_ Hm]]]]] | [[d [f [_ [_ Hb]]]] | [H | H]]].
      * rewrite Hm. reflexivity.
      * rewrite (emitted_loadFont_begin _ _ _ _ _ Hb). reflexivity.
      * destruct H as [f [o [fm [r [_ [_ [Hs Hm]]]]]]].
        rewrite Hm. simpl. rewrite events_of_app, (events_of_foreign _ _ _ Hne), app_nil_r.
        rewrite (emitted_load_settle _ _ _ _ _ _ Hs). reflexivity.
      * destruct H as [f [r [ok [_ [_ Hm]]]]].
        rewrite Hm. simpl. rewrite events_of_app, (events_of_foreign _ _ _ Hne), app_nil_r.
        reflexivity.
Qed.

Lemma steps_events (sff : bool) (fm : FontManager) (sys : system) :
  emitted fm = [] ->
  steps sff (initial fm) sys ->
  forall i, events_of i (emitted (manager sys)) = expected_events (calls sys !! i).
Proof.
  intros Hfm Hsteps. remember (initial fm) as sys0 eqn:E.
  induction Hsteps as [sys0 | sys0 sys1 sys2 Hsteps IH Hstep].
  - subst sys0. intros i. simpl. rewrite Hfm. reflexivity.
  - apply (step_events _ _ _ Hstep). apply IH. exact E.
Qed.

(** C8. In every run of the event loop from a new manager, each call of
    [loadFont] emits nothing, then [load], then [ready]: wherever a
    [ready] of a call is in the log, the [load] of that call, for the same
    font, is before it; and a resolved call has emitted both. *)
Theorem load_event_before_ready :
  forall (supportsFontFace : bool) (fm : FontManager) (sys : system),
    emitted fm = [] ->
    steps supportsFontFace (initial fm) sys ->
    forall i : nat,
      events_of i (emitted (manager sys)) = expected_events (calls sys !! i) /\
      (forall (before after : list (option nat * event)) (nm : string) (ok : bool),
          emitted (manager sys) = (before ++ (Some i, EvReady nm ok) :: after)%list ->
          (exists result, In (Some i, EvLoad nm result) before) /\
          (forall nm' ok', ~ In (Some i, EvReady nm' ok') before)) /\
      (forall res : LoadFontResult,
          calls sys !! i = Some (Resolved res) ->
          events_of i (emitted (manager sys))
          = [EvLoad (res_name res) (res_result res); EvReady (res_name res) (res_ok res)]).
Proof.
  intros sff fm sys Hfm Hsteps i.
  pose proof (steps_events sff fm sys Hfm Hsteps i) as Hinv.
  split; [exact Hinv |]. split.
  - intros before after nm ok Hlog.
    rewrite Hlog in Hinv.
    change (before ++ (Some i, EvReady nm ok) :: after)%list
      with (before ++ [(Some i, EvReady nm ok)] ++ after)%list in Hinv.
    rewrite !events_of_app, events_of_own in Hinv.
    assert (Hshape : exists result, events_of i before = [EvLoad nm result]).
    { destruct (events_of i before) as [| e1 [| e2 l]];
        destruct (calls sys !! i) as [[d | err | f | f r | res] |];
        simpl in Hinv; inversion Hinv; subst.
      - eexists. reflexivity.
      - destruct l; discriminate. }
    destruct Hshape as [result Hb]. split.
    + exists result. apply events_of_In. rewrite Hb. left. reflexivity.
    + intros nm' ok' Hin.
      assert (Hin' : In (EvReady nm' ok') (events_of i before)).
      { unfold events_of. apply in_map_iff. exists (Some i, EvReady nm' ok').
        split; [reflexivity |]. apply filter_In. split; [exact Hin |].
        simpl. apply Nat.eqb_refl. }
      rewrite Hb in Hin'. destruct Hin' as [H | []]. discriminate.
  - intros res Hres. rewrite Hinv, Hres. reflexivity.
Qed.

(** ** Sorting *)

Lemma sort_insert_perm {A : Type} (cmp : A -> A -> Z) (x : A) (l : list A) :
  Permutation (x :: l) (sort_insert cmp x l).
Proof.
  induction l as [| y l IH]; simpl; [apply Permutation_refl |].
  destruct (cmp x y <=? 0)%Z; [apply Permutation_refl |].
  eapply perm_trans; [apply perm_swap |]. apply perm_skip. exact IH.
Qed.

Lemma sort_perm {A : Type} (cmp : A -> A -> Z) (l : list A) : Permutation l (sort cmp l).
Proof.
  induction l as [| x l IH]; simpl; [apply perm_nil |].
  eapply perm_trans; [apply perm_skip; exact IH | apply sort_insert_perm].
Qed.

Lemma sort_In {A : Type} (cmp : A -> A -> Z) (l : list A) (x : A) :
  In x (sort cmp l) <-> In x l.
Proof.
  split; apply Permutation_in; [apply Permutation_sym |]; apply sort_perm.
Qed.

Section SortedBy.
Context {A : Type} (cmp : A -> A -> Z).
Hypothesis cmp_total : forall a b, (cmp a b <= 0 \/ cmp b a <= 0)%Z.
Hypothesis cmp_trans : forall a b c, (cmp a b <= 0 -> cmp b c <= 0 -> cmp a c <= 0)%Z.


End SortedBy.

(** ** [supportsWeightRange] *)

Lemma select_In (localeCompare : string -> string -> Z) (fm : FontManager) (c : criteria)
      (f : Font) :
  In f (select localeCompare fm c) <->
  In f (FontRegistry.all (registry fm)) /\
  matches (match c_languages c with Some l => l | None => [defaultLanguage fm] end)
          (match c_variable c with Some b => b | None => true end)
          (c_weightRange c) (c_prefer c) f = true.
Proof. unfold select. rewrite sort_In, filter_In. reflexivity. Qed.

(** C10. A font without a weight, or whose weight is neither a number nor a
    string with the two-number pattern, supports every weight range; so
    adding a weight range to the criteria of [select] never removes it. *)
Theorem supportsWeightRange_without_weight :
  forall f : Font,
    isNumber (weight_of f) = false ->
    (forall w : string, weight_of f = VStr w -> test re_weight_range w = false) ->
    (forall range : number * number, supportsWeightRange f range = true) /\
    (forall (localeCompare : string -> string -> Z) (fm : FontManager)
            (langs : option (list string)) (variable : option bool)
            (prefer : option string) (range : number * number),
        In f (select localeCompare fm
                     {| c_languages := langs; c_variable := variable;
                        c_weightRange := None; c_prefer := prefer |}) ->
        In f (select localeCompare fm
                     {| c_languages := langs; c_variable := variable;
                        c_weightRange := Some range; c_prefer := prefer |})).
Proof.
  intros f Hnum Hstr.
  assert (Hall : forall range, supportsWeightRange f range = true).
  { intros [min max]. unfold supportsWeightRange.
    destruct (weight_of f) as [| | b | x | w | ob] eqn:Hw; try reflexivity.
    - rewrite Hnum. reflexivity.
    - rewrite (Hstr w eq_refl). reflexivity. }
  split; [exact Hall |].
  intros lc fm langs variable prefer range.
  rewrite !select_In. simpl. unfold matches. rewrite (Hall range). tauto.
Qed.

(** A font loaded without descriptors, and one with the weight [bold]. *)
Lemma supportsWeightRange_without_weight_witness :
  let f := {| name := "Inter"; src := []; font_descriptors :=
                Some {| d_style := VUndefined; d_weight := VStr "bold"; d_stretch := VUndefined;
                        d_display := VStr "swap"; d_unicodeRange := VUndefined |};
              axes := None; features := None; fallback := None; languages := Some [] |} in
  supportsWeightRange f (num_of_Z 300, num_of_Z 700) = true.
Proof.
  intros f.
  apply (supportsWeightRange_without_weight f).
  - reflexivity.
  - intros w Hw. injection Hw as <-. reflexivity.
Defined.

(** ** [estimateLineHeight] *)

(** The font size that the estimate uses: the [size] of the style, 16 when
    it is missing, as a number. *)
Lemma estimateLineHeight_unfold (style : Style) :
  estimateLineHeight style =
  let sz := toUnitless (if truthy (size style) then size style else VNum (num_of_Z 16)) in
  match lineHeight style with
  | VUndefined | VNull => num_mul sz (num_of_decimal false 125 (-2))
  | VNum x => if isNumber (VNum x) then num_mul sz x
              else num_mul sz (parseFloat (ToString (VNum x)))
  | VStr s => if endsWith s "px" then parseFloat s
              else if endsWith s "%" then num_mul sz (num_div (parseFloat s) (num_of_Z 100))
              else num_mul sz (parseFloat s)
  | VBool b => num_mul sz (parseFloat (ToString (VBool b)))
  | VObject text => num_mul sz (parseFloat text)
  end.
Proof. unfold estimateLineHeight. destruct (lineHeight style); reflexivity. Qed.

(** C4. With [fontSize] the size of the style as a number (16 when the
    style has none), [estimateLineHeight] returns [fontSize * 1.25] without
    a line height, [fontSize * lineHeight] for a number, the parsed pixels
    for a string that ends in [px], [fontSize * (percent / 100)] for a
    string that ends in [%], and [fontSize * parseFloat(lineHeight)]
    otherwise; so 20 for size 16, and 24 for size 16 and [150%]. *)
Theorem estimateLineHeight_cases :
  forall sz lh : value,
    let style := {| size := sz; lineHeight := lh |} in
    let fontSize := toUnitless (if truthy sz then sz else VNum (num_of_Z 16)) in
    (forall n : number, sz = VNum n -> truthy sz = true -> fontSize = n) /\
    (nullish lh = true ->
     estimateLineHeight style = num_mul fontSize (num_of_decimal false 125 (-2))) /\
    (forall x : number, lh = VNum x -> estimateLineHeight style = num_mul fontSize x) /\
    (forall s : string, lh = VStr s -> endsWith s "px" = true ->
                        estimateLineHeight style = parseFloat s) /\
    (forall s : string, lh = VStr s -> endsWith s "px" = false -> endsWith s "%" = true ->
                        estimateLineHeight style
                        = num_mul fontSize (num_div (parseFloat s) (num_of_Z 100))) /\
    (nullish lh = false -> isNumber lh = false ->
     (forall s : string, lh = VStr s -> endsWith s "px" = false /\ endsWith s "%" = false) ->
     estimateLineHeight style = num_mul fontSize (parseFloat (ToString lh))) /\
    estimateLineHeight {| size := VNum (num_of_Z 16); lineHeight := VUndefined |}
    = num_of_Z 20 /\
    estimateLineHeight {| size := VNum (num_of_Z 16); lineHeight := VStr "150%" |}
    = num_of_Z 24.
Proof.
  intros sz lh style fontSize.
  split.
  { intros n -> Ht. unfold fontSize. rewrite Ht. unfold toUnitless.
    destruct n as [s | s | | s m e]; simpl in Ht; try discriminate; reflexivity. }
  split.
  { intros Hn. rewrite estimateLineHeight_unfold. simpl.
    destruct lh; simpl in Hn; try discriminate; reflexivity. }
  split.
  { intros x ->. rewrite estimateLineHeight_unfold. simpl.
    destruct x as [s | s | | s m e]; reflexivity. }
  split.
  { intros s -> Hpx. rewrite estimateLineHeight_unfold. simpl. rewrite Hpx. reflexivity. }
  split.
  { intros s -> Hpx Hpc. rewrite estimateLineHeight_unfold. simpl.
    rewrite Hpx, Hpc. reflexivity. }
  split.
  { intros Hn Hnum Hs. rewrite estimateLineHeight_unfold. simpl.
    destruct lh as [| | b | x | s | ob]; simpl in Hn; try discriminate.
    - reflexivity.
    - destruct x as [s | s | | s m e]; simpl in Hnum; try discriminate; reflexivity.
    - destruct (Hs s eq_refl) as [-> ->]. reflexivity.
    - reflexivity. }
  split; vm_compute; reflexivity.
Qed.

(** Size 16 and the line height [150%]: 16 * (150 / 100) = 24. *)
Lemma estimateLineHeight_cases_witness :
  estimateLineHeight {| size := VNum (num_of_Z 16); lineHeight := VStr "150%" |}
  = num_mul (num_of_Z 16) (num_div (parseFloat "150%") (num_of_Z 100)).
Proof.
  apply (estimateLineHeight_cases (VNum (num_of_Z 16)) (VStr "150%")) with (s := "150%");
    reflexivity.
Defined.

(** ** [composeFamily] *)




Lemma has_lang_existsb (set fontLangs : list string) :
  has_lang set fontLangs = existsb (fun l => str_in l set) fontLangs.
Proof.
  induction fontLangs as [| l rest IH]; simpl; [reflexivity |].
  rewrite IH. destruct (str_in l set); reflexivity.
Qed.

Lemma langMatches_loop_filter (set : list string) (fonts : list Font) (acc : list string) :
  langMatches_loop set fonts acc
  = (acc ++ map name (List.filter (fun f => existsb (fun l => str_in l set) (declared f))
                                  fonts))%list.
Proof.
  revert acc. induction fonts as [| f fonts IH]; intros acc;
    cbn [langMatches_loop List.filter].
  - rewrite app_nil_r. reflexivity.
  - unfold declared at 1. destruct (languages f) as [[| l ls] |].
    + apply IH.
    + rewrite has_lang_existsb.
      destruct (existsb (fun l0 => str_in l0 set) (l :: ls)); cbn [map].
      * rewrite IH, <- app_assoc. reflexivity.
      * apply IH.
    + apply IH.
Qed.







(** ** [select] *)

Lemma hasLang_language_match (langs : list string) (f : Font) :
  hasLang langs f = true <-> language_match langs f.
Proof.
  unfold hasLang, language_match, declared.
  destruct (languages f) as [[| l ls] |].
  - split; [left; reflexivity | reflexivity].
  - rewrite existsb_exists. split.
    + intros [x [Hx Hin]]. right. exists x. split; [exact Hx |]. apply str_in_In. exact Hin.
    + intros [H | [x [Hx Hin]]]; [discriminate |].
      exists x. split; [exact Hx |]. apply str_in_In. exact Hin.
  - split; [left; reflexivity | reflexivity].
Qed.





(** ** Examples on the sample data *)

(** One call on a new manager: the load is fulfilled and the font is
    detected. *)
Lemma load_event_before_ready_witness :
  exists sys : system,
    steps true (initial sample_manager) sys /\
    events_of 0 (emitted (manager sys)) = [EvLoad "Inter" (Loaded "Inter"); EvReady "Inter" true].
Proof.
  assert (Hrun : { sys : system |
                   steps true (initial sample_manager) sys /\
                   calls sys !! 0 = Some (Resolved {| res_name := "Inter"; res_ok := true;
                                                      res_result := Loaded "Inter" |}) }).
  { eexists. split.
    - eapply steps_step;
        [eapply steps_step;
         [eapply steps_step;
          [eapply steps_step; [apply steps_refl | apply (step_call true sample_descriptor)]
          | eapply (step_begin true 0); reflexivity]
         | eapply (step_loaded true 0 _ LoadFulfilled); reflexivity]
        | eapply (step_ready true 0 _ _ true); reflexivity].
    - reflexivity. }
  destruct Hrun as [sys [Hrun Hres]]. exists sys. split; [exact Hrun |].
  destruct (load_event_before_ready true sample_manager sys eq_refl Hrun 0) as [_ [_ H]].
  exact (H _ Hres).
Defined.






(** ** The matcher on runs of a character class *)

Lemma append_nil_l (b : string) : "" +:+ b = b.
Proof. reflexivity. Qed.

Lemma append_cons (x : ascii) (a b : string) : String x a +:+ b = String x (a +:+ b).
Proof. reflexivity. Qed.

Lemma append_assoc (a b c : string) : (a +:+ b) +:+ c = a +:+ (b +:+ c).
Proof.
  induction a as [| x a IH]; [reflexivity |].
  rewrite !append_cons. f_equal. exact IH.
Qed.

Lemma append_nil_r (a : string) : a +:+ "" = a.
Proof.
  induction a as [| x a IH]; [reflexivity |].
  rewrite append_cons. f_equal. exact IH.
Qed.

Lemma length_append (a b : string) :
  String.length (a +:+ b) = String.length a + String.length b.
Proof.
  induction a as [| x a IH]; [reflexivity |].
  rewrite append_cons. cbn [String.length]. rewrite IH. reflexivity.
Qed.

Lemma substring_prefix (a b : string) : substring 0 (String.length a) (a +:+ b) = a.
Proof.
  induction a as [| x a IH].
  - rewrite append_nil_l. destruct b; reflexivity.
  - rewrite append_cons. cbn [String.length substring]. f_equal. exact IH.
Qed.

Lemma consumed_app (u v : string) : consumed (u +:+ v) v = u.
Proof.
  unfold consumed. rewrite length_append.
  replace (String.length u + String.length v - String.length v) with (String.length u) by lia.
  apply substring_prefix.
Qed.

Section Runs.
Context {R : Type}.
Variable p : ascii -> bool.
Variable k : @mcont R.

Lemma rep_step (fuel lo : nat) (hi : option nat) (a : ascii) (s : string) (c : caps) :
  p a = true ->
  hi <> Some 0 ->
  rep (rmatch (RChar p)) k (S fuel) lo hi (String a s) c
  = match rep (rmatch (RChar p)) k fuel (Nat.pred lo) (option_map Nat.pred hi) s c with
    | Some x => Some x
    | None => if (lo =? 0)%nat then k (String a s) c else None
    end.
Proof.
  intros Hp Hhi. cbn [rep rmatch]. rewrite Hp.
  assert (Hlen : (String.length s =? String.length (String a s))%nat = false)
    by (apply Nat.eqb_neq; simpl; lia).
  rewrite Hlen, andb_false_r.
  destruct hi as [[| h] |]; [contradiction | reflexivity | reflexivity].
Qed.

Lemma rep_stop (fuel lo : nat) (hi : option nat) (s : string) (c : caps) :
  starts_without p s \/ hi = Some 0 ->
  (forall h, hi = Some h -> lo <= h) ->
  rep (rmatch (RChar p)) k (S fuel) lo hi s c = if (lo =? 0)%nat then k s c else None.
Proof.
  intros Hs Hlo. cbn [rep].
  destruct hi as [[| h] |].
  - specialize (Hlo 0 eq_refl). assert (lo = 0) by lia. subst lo. reflexivity.
  - destruct Hs as [Hs | Hs]; [| discriminate].
    destruct s as [| a s]; cbn [rmatch]; [reflexivity |].
    simpl in Hs. rewrite Hs. reflexivity.
  - destruct Hs as [Hs | Hs]; [| discriminate].
    destruct s as [| a s]; cbn [rmatch]; [reflexivity |].
    simpl in Hs. rewrite Hs. reflexivity.
Qed.

(** The greedy quantifier takes the whole run when the rest of the pattern
    then succeeds. *)
Lemma rep_class_ok (u : string) :
  forall (v : string) (c : caps) (res : R) (lo : nat) (hi : option nat) (fuel : nat),
    str_forall p u = true ->
    starts_without p v \/ hi = Some (String.length u) ->
    lo <= String.length u ->
    (forall h, hi = Some h -> String.length u <= h) ->
    String.length u < fuel ->
    k v c = Some res ->
    rep (rmatch (RChar p)) k fuel lo hi (u +:+ v) c = Some res.
Proof.
  induction u as [| a u IH]; intros v c res lo hi fuel Hu Hv Hlo Hhi Hfuel Hk.
  - destruct fuel as [| fuel]; [simpl in Hfuel; lia |].
    simpl in Hlo. assert (lo = 0) by lia. subst lo.
    rewrite append_nil_l, rep_stop.
    + exact Hk.
    + exact Hv.
    + intros h _. lia.
  - destruct fuel as [| fuel]; [simpl in Hfuel; lia |].
    simpl in Hu. apply andb_true_iff in Hu. destruct Hu as [Ha Hu].
    rewrite append_cons, rep_step.
    + rewrite (IH v c res).
      * reflexivity.
      * exact Hu.
      * destruct Hv as [Hv | Hv]; [left; exact Hv | right].
        rewrite Hv. reflexivity.
      * simpl in Hlo. lia.
      * intros h Hh. destruct hi as [h0 |]; [| discriminate].
        simpl in Hh. injection Hh as <-. specialize (Hhi h0 eq_refl). simpl in Hhi. lia.
      * simpl in Hfuel. lia.
      * exact Hk.
    + exact Ha.
    + intros Hz. specialize (Hhi 0 Hz). simpl in Hhi. lia.
Qed.

(** The quantifier fails when the rest of the pattern fails after every
    number of characters it may take. *)
Lemma rep_class_none (fuel : nat) :
  forall (lo : nat) (hi : option nat) (s : string) (c : caps),
    (forall h, hi = Some h -> lo <= h) ->
    (forall n t, tail_n p n s t -> lo <= n -> k t c = None) ->
    rep (rmatch (RChar p)) k fuel lo hi s c = None.
Proof.
  induction fuel as [| fuel IH]; intros lo hi s c Hlo Hk; [reflexivity |].
  assert (Hend : (if (lo =? 0)%nat then k s c else None) = None).
  { destruct (Nat.eqb_spec lo 0) as [-> | Hne]; [| reflexivity].
    apply (Hk 0 s); [constructor | lia]. }
  destruct (decide (hi = Some 0)) as [Hz | Hnz].
  - rewrite rep_stop; [exact Hend | right; exact Hz | exact Hlo].
  - destruct s as [| a s].
    + rewrite rep_stop; [exact Hend | left; exact I | exact Hlo].
    + destruct (p a) eqn:Ha.
      * rewrite rep_step by assumption. rewrite IH.
        -- exact Hend.
        -- intros h Hh. destruct hi as [h0 |]; [| discriminate].
           simpl in Hh. injection Hh as <-. specialize (Hlo h0 eq_refl). lia.
        -- intros n t Ht Hn. apply (Hk (S n) t); [constructor; assumption | lia].
      * rewrite rep_stop; [exact Hend | left; exact Ha | exact Hlo].
Qed.
End Runs.

Lemma tail_n_app (p : ascii -> bool) (u : string) :
  forall (n : nat) (v t : string),
    str_forall p u = true ->
    starts_without p v ->
    tail_n p n (u +:+ v) t ->
    exists u1 u2 : string, u = u1 +:+ u2 /\ String.length u1 = n /\ t = u2 +:+ v.
Proof.
  induction u as [| a u IH]; intros n v t Hu Hv Ht.
  - rewrite append_nil_l in Ht. inversion Ht; subst.
    + exists "", "". repeat split.
    + simpl in Hv. congruence.
  - rewrite append_cons in Ht. simpl in Hu. apply andb_true_iff in Hu.
    destruct Hu as [Ha Hu]. inversion Ht; subst.
    + exists "", (String a u). repeat split.
    + destruct (IH _ _ _ Hu Hv H4) as [u1 [u2 [-> [<- ->]]]].
      exists (String a u1), u2. repeat split.
Qed.

Lemma rmatch_rep {R : Type} (lo : nat) (hi : option nat) (r : regex) (s : string)
      (c : caps) (k : @mcont R) :
  rmatch (RRep lo hi r) s c k = rep (rmatch r) k (S (lo + String.length s)) lo hi s c.
Proof. reflexivity. Qed.

Lemma rmatch_cat {R : Type} (r1 r2 : regex) (s : string) (c : caps) (k : @mcont R) :
  rmatch (RCat r1 r2) s c k = rmatch r1 s c (fun s1 c1 => rmatch r2 s1 c1 k).
Proof. reflexivity. Qed.

Lemma rmatch_alt {R : Type} (r1 r2 : regex) (s : string) (c : caps) (k : @mcont R) :
  rmatch (RAlt r1 r2) s c k
  = match rmatch r1 s c k with Some x => Some x | None => rmatch r2 s c k end.
Proof. reflexivity. Qed.

Lemma rmatch_group {R : Type} (i : nat) (r : regex) (s : string) (c : caps) (k : @mcont R) :
  rmatch (RGroup i r) s c k = rmatch r s c (fun s1 c1 => k s1 ((i, consumed s s1) :: c1)).
Proof. reflexivity. Qed.

Lemma rmatch_char {R : Type} (p : ascii -> bool) (a : ascii) (s : string) (c : caps)
      (k : @mcont R) :
  rmatch (RChar p) (String a s) c k = if p a then k s c else None.
Proof. reflexivity. Qed.

Lemma rmatch_char_nil {R : Type} (p : ascii -> bool) (c : caps) (k : @mcont R) :
  rmatch (RChar p) "" c k = None.
Proof. reflexivity. Qed.

Section ClassQuantifier.
Context {R : Type}.
Variable p : ascii -> bool.

Lemma rmatch_class_ok (lo : nat) (hi : option nat) (u v : string) (c : caps)
      (k : @mcont R) (res : R) :
  str_forall p u = true ->
  starts_without p v \/ hi = Some (String.length u) ->
  lo <= String.length u ->
  (forall h, hi = Some h -> String.length u <= h) ->
  k v c = Some res ->
  rmatch (RRep lo hi (RChar p)) (u +:+ v) c k = Some res.
Proof.
  intros Hu Hv Hlo Hhi Hk. rewrite rmatch_rep.
  apply rep_class_ok; try assumption. rewrite length_append. lia.
Qed.

Lemma rmatch_class_none (lo : nat) (hi : option nat) (s : string) (c : caps) (k : @mcont R) :
  (forall h, hi = Some h -> lo <= h) ->
  (forall n t, tail_n p n s t -> lo <= n -> k t c = None) ->
  rmatch (RRep lo hi (RChar p)) s c k = None.
Proof. intros Hlo Hk. rewrite rmatch_rep. apply rep_class_none; assumption. Qed.

(** When the rest of the pattern fails after every shorter run, the
    quantifier is the rest of the pattern after the whole run. *)
Lemma rmatch_class_eq (lo : nat) (hi : option nat) (u v : string) (c : caps) (k : @mcont R) :
  str_forall p u = true ->
  starts_without p v ->
  lo <= String.length u ->
  (forall h, hi = Some h -> String.length u <= h) ->
  (forall u1 u2, u = u1 +:+ u2 -> lo <= String.length u1 -> u2 <> "" ->
                 k (u2 +:+ v) c = None) ->
  rmatch (RRep lo hi (RChar p)) (u +:+ v) c k = k v c.
Proof.
  intros Hu Hv Hlo Hhi Hshort.
  destruct (k v c) as [res |] eqn:Hk.
  - apply rmatch_class_ok; try assumption. left. exact Hv.
  - apply rmatch_class_none.
    + intros h Hh. specialize (Hhi h Hh). lia.
    + intros n t Ht Hn. destruct (tail_n_app p u n v t Hu Hv Ht) as [u1 [u2 [Hsplit [Hlen ->]]]].
      destruct u2 as [| a u2].
      * rewrite append_nil_l. exact Hk.
      * apply (Hshort u1 (String a u2) Hsplit); [lia | discriminate].
Qed.

Lemma rmatch_class_short (lo : nat) (hi : option nat) (s : string) (c : caps) (k : @mcont R) :
  starts_without p s ->
  0 < lo ->
  (forall h, hi = Some h -> lo <= h) ->
  rmatch (RRep lo hi (RChar p)) s c k = None.
Proof.
  intros Hs Hlo Hhi. rewrite rmatch_rep, rep_stop.
  - destruct (Nat.eqb_spec lo 0); [lia | reflexivity].
  - left. exact Hs.
  - exact Hhi.
Qed.
End ClassQuantifier.

(** ** The tag *)

Lemma alnum_not_dquote (a : ascii) : is_alnum a = true -> is_char dquote a = false.
Proof.
  destruct a as [[] [] [] [] [] [] [] []]; vm_compute; intros H; congruence.
Qed.

Lemma alnum_not_space (a : ascii) : is_alnum a = true -> is_space a = false.
Proof.
  destruct a as [[] [] [] [] [] [] [] []]; vm_compute; intros H; congruence.
Qed.

Lemma tag_ok_inv (k : string) :
  tag_ok k = true ->
  str_forall is_alnum k = true /\ 3 <= String.length k <= 4.
Proof.
  unfold tag_ok. rewrite !andb_true_iff, !Nat.leb_le. tauto.
Qed.

(** A tag between double quotes is read as a whole, and in no other way. *)
Lemma tag_match {R : Type} (k rest : string) (c : caps) (K : @mcont R) :
  tag_ok k = true ->
  rmatch re_tag (String dquote (k +:+ String dquote rest)) c K = K rest ((1, k) :: c).
Proof.
  intros Hk. apply tag_ok_inv in Hk. destruct Hk as [Halnum Hlen].
  unfold re_tag. rewrite rmatch_cat, rmatch_char.
  change (is_char dquote dquote) with true. cbv iota.
  rewrite rmatch_cat, rmatch_group, rmatch_class_eq.
  - rewrite consumed_app, rmatch_char. change (is_char dquote dquote) with true.
    reflexivity.
  - exact Halnum.
  - reflexivity.
  - lia.
  - intros h Hh. injection Hh as <-. lia.
  - intros u1 u2 Hsplit _ Hne. destruct u2 as [| a u2]; [contradiction |].
    rewrite append_cons, rmatch_char.
    assert (Ha : is_alnum a = true).
    { rewrite Hsplit in Halnum. clear - Halnum.
      induction u1 as [| b u1 IH].
      - rewrite append_nil_l in Halnum. simpl in Halnum.
        apply andb_true_iff in Halnum. apply Halnum.
      - rewrite append_cons in Halnum. simpl in Halnum.
        apply andb_true_iff in Halnum. apply IH. apply Halnum. }
    rewrite (alnum_not_dquote a Ha). reflexivity.
Qed.

(** ** Numbers in the settings *)

Lemma span_spec (p : ascii -> bool) (s : string) :
  forall u v, span p s = (u, v) ->
              s = u +:+ v /\ str_forall p u = true /\ starts_without p v.
Proof.
  induction s as [| a s IH]; intros u v H; simpl in H.
  - injection H as <- <-. repeat split.
  - destruct (p a) eqn:Ha.
    + destruct (span p s) as [u' v'] eqn:E. injection H as <- <-.
      destruct (IH u' v' eq_refl) as [-> [Hu Hv]].
      rewrite append_cons. simpl. rewrite Ha, Hu. repeat split. exact Hv.
    + injection H as <- <-. repeat split. exact Ha.
Qed.

Lemma plain_decimal_inv (t : string) :
  plain_decimal t = true ->
  exists sgn ip frac : string,
    t = sgn +:+ ip +:+ frac /\
    (sgn = "" \/ sgn = "-") /\
    ip <> "" /\ str_forall is_digit ip = true /\
    (frac = "" \/
     exists fd, frac = String "." fd /\ fd <> "" /\ str_forall is_digit fd = true).
Proof.
  unfold plain_decimal.
  set (t1 := match t with
             | String a t' => if is_char "-" a then t' else t
             | EmptyString => t
             end).
  assert (Hsgn : exists sgn, t = sgn +:+ t1 /\ (sgn = "" \/ sgn = "-")).
  { subst t1. destruct t as [| a t']; [exists ""; split; [reflexivity | left; reflexivity] |].
    destruct (is_char "-" a) eqn:Ha.
    - apply Ascii.eqb_eq in Ha. subst a. exists "-". split; [reflexivity | right; reflexivity].
    - exists "". split; [reflexivity | left; reflexivity]. }
  destruct Hsgn as [sgn [Ht Hs]]. clearbody t1.
  destruct (span is_digit t1) as [ip t2] eqn:E.
  destruct (span_spec _ _ _ _ E) as [-> [Hip _]].
  rewrite andb_true_iff, negb_true_iff, String.eqb_neq. intros [Hne Hfrac].
  exists sgn, ip, t2. split; [exact Ht |]. split; [exact Hs |].
  split; [exact Hne |]. split; [exact Hip |].
  destruct t2 as [| a fd]; [left; reflexivity | right].
  rewrite !andb_true_iff, negb_true_iff, String.eqb_neq in Hfrac.
  destruct Hfrac as [[Ha Hfd] Hd]. apply Ascii.eqb_eq in Ha. subst a.
  exists fd. repeat split; assumption.
Qed.

Lemma digit_not_minus (a : ascii) : is_digit a = true -> is_char "-" a = false.
Proof.
  destruct a as [[] [] [] [] [] [] [] []]; vm_compute; intros H; congruence.
Qed.

Lemma digit_not_space (a : ascii) : is_digit a = true -> is_space a = false.
Proof.
  destruct a as [[] [] [] [] [] [] [] []]; vm_compute; intros H; congruence.
Qed.

Lemma digit_not_o (a : ascii) : is_digit a = true -> is_char "o" a = false.
Proof.
  destruct a as [[] [] [] [] [] [] [] []]; vm_compute; intros H; congruence.
Qed.

Lemma digit_not_dquote (a : ascii) : is_digit a = true -> is_char dquote a = false.
Proof.
  destruct a as [[] [] [] [] [] [] [] []]; vm_compute; intros H; congruence.
Qed.

Lemma digits_start (p : ascii -> bool) (ip rest : string) :
  (forall a, is_digit a = true -> p a = false) ->
  ip <> "" -> str_forall is_digit ip = true -> starts_without p (ip +:+ rest).
Proof.
  intros Hp Hne Hip. destruct ip as [| a ip]; [contradiction |].
  rewrite append_cons. simpl in *. apply andb_true_iff in Hip. apply Hp, Hip.
Qed.

Lemma sep_or_end_start (p : ascii -> bool) (rest : string) :
  p ","%char = false -> sep_or_end rest -> starts_without p rest.
Proof. intros Hp [-> | [t ->]]; [exact I | exact Hp]. Qed.

Lemma rmatch_opt {R : Type} (r : regex) (s : string) (c : caps) (k : @mcont R) :
  rmatch (ROpt r) s c k
  = match rmatch r s c
            (fun s1 c1 =>
               if (String.length s1 =? String.length s)%nat then None
               else rep (rmatch r) k (String.length s) 0 (Some 0) s1 c1) with
    | Some x => Some x
    | None => k s c
    end.
Proof. reflexivity. Qed.

(** The integer pattern reads the sign and all the digits. *)
Lemma integer_match {R : Type} (sgn ip v : string) (c : caps) (K : @mcont R) (res : R) :
  sgn = "" \/ sgn = "-" ->
  ip <> "" -> str_forall is_digit ip = true ->
  starts_without is_digit v ->
  K v c = Some res ->
  rmatch re_integer (sgn +:+ ip +:+ v) c K = Some res.
Proof.
  intros Hs Hne Hip Hv HK. unfold re_integer, ROpt, RPlus. rewrite rmatch_cat.
  apply rmatch_class_ok.
  - destruct Hs as [-> | ->]; reflexivity.
  - left. apply digits_start; [apply digit_not_minus | assumption | assumption].
  - lia.
  - intros h Hh. injection Hh as <-. destruct Hs as [-> | ->]; simpl; lia.
  - apply rmatch_class_ok; try assumption.
    + left. exact Hv.
    + destruct ip; [contradiction | simpl; lia].
    + discriminate.
Qed.

(** The decimal pattern reads the sign, the digits and the fraction. *)
Lemma decimal_match (sgn ip frac rest : string) (c : caps) (K : @mcont (caps * string)) :
  sgn = "" \/ sgn = "-" ->
  ip <> "" -> str_forall is_digit ip = true ->
  frac = "" \/
  (exists fd, frac = String "." fd /\ fd <> "" /\ str_forall is_digit fd = true) ->
  sep_or_end rest ->
  (forall c', cap 1 c' = cap 1 c -> exists res, K rest c' = Some res) ->
  exists c', cap 1 c' = cap 1 c /\
             rmatch re_decimal (sgn +:+ ip +:+ frac +:+ rest) c K = K rest c'.
Proof.
  intros Hs Hne Hip Hfrac Hrest HK. unfold re_decimal, RPlus.
  destruct Hfrac as [-> | [fd [-> [Hfd Hfdd]]]].
  - destruct (HK c eq_refl) as [res Hres].
    exists c. split; [reflexivity |]. rewrite Hres, append_nil_l, rmatch_cat.
    apply rmatch_class_ok.
    + destruct Hs as [-> | ->]; reflexivity.
    + left. apply digits_start; [apply digit_not_minus | assumption | assumption].
    + lia.
    + intros h Hh. injection Hh as <-. destruct Hs as [-> | ->]; simpl; lia.
    + rewrite rmatch_cat. apply rmatch_class_ok; try assumption.
      * left. apply sep_or_end_start; [reflexivity | exact Hrest].
      * destruct ip; [contradiction | simpl; lia].
      * discriminate.
      * rewrite rmatch_opt, rmatch_group, rmatch_cat.
        destruct Hrest as [-> | [t ->]].
        -- rewrite rmatch_char_nil. exact Hres.
        -- rewrite rmatch_char. change (is_char "." ",") with false. exact Hres.
  - set (c3 := (3, String "." fd) :: c).
    destruct (HK c3 eq_refl) as [res Hres].
    exists c3. split; [reflexivity |]. rewrite Hres, rmatch_cat.
    apply rmatch_class_ok.
    + destruct Hs as [-> | ->]; reflexivity.
    + left. apply digits_start; [apply digit_not_minus | assumption | assumption].
    + lia.
    + intros h Hh. injection Hh as <-. destruct Hs as [-> | ->]; simpl; lia.
    + rewrite rmatch_cat. apply rmatch_class_ok; try assumption.
      * left. reflexivity.
      * destruct ip; [contradiction | simpl; lia].
      * discriminate.
      * rewrite rmatch_opt, rmatch_group, rmatch_cat, append_cons, rmatch_char.
        change (is_char "." ".") with true. cbv iota.
        rewrite (rmatch_class_ok is_digit 1 None fd rest c _ res).
        -- reflexivity.
        -- exact Hfdd.
        -- left. apply sep_or_end_start; [reflexivity | exact Hrest].
        -- destruct fd; [contradiction | simpl; lia].
        -- discriminate.
        -- change (String "." (fd +:+ rest)) with (String "." fd +:+ rest).
           rewrite consumed_app.
           assert (Hlen : (String.length rest =? String.length (String "." fd +:+ rest))%nat
                          = false).
           { apply Nat.eqb_neq. rewrite length_append. simpl. lia. }
           rewrite Hlen. rewrite append_cons. cbn [String.length rep]. exact Hres.
Qed.

(** ** The patterns on one entry *)

Lemma entry_text_app (k t rest : string) :
  entry_text k t +:+ rest = String dquote (k +:+ String dquote (String " " (t +:+ rest))).
Proof.
  unfold entry_text. rewrite !append_assoc. reflexivity.
Qed.

Lemma plain_decimal_start (p : ascii -> bool) (sgn ip rest : string) :
  (forall a, is_digit a = true -> p a = false) ->
  p "-"%char = false ->
  sgn = "" \/ sgn = "-" ->
  ip <> "" -> str_forall is_digit ip = true ->
  starts_without p (sgn +:+ ip +:+ rest).
Proof.
  intros Hd Hm [-> | ->] Hne Hip.
  - rewrite append_nil_l. apply digits_start; assumption.
  - exact Hm.
Qed.

(** After the tag, the white space of an entry is its one space. *)
Lemma entry_space {R : Type} (v : string) (c : caps) (K : @mcont R) :
  starts_without is_space v ->
  rmatch (RPlus (RChar is_space)) (String " " v) c K = K v c.
Proof.
  intros Hv. unfold RPlus.
  change (String " " v) with (" " +:+ v).
  rewrite rmatch_class_eq.
  - reflexivity.
  - reflexivity.
  - exact Hv.
  - simpl. lia.
  - discriminate.
  - intros u1 u2 Hsplit Hlen Hne. exfalso.
    destruct u1 as [| a u1]; [simpl in Hlen; lia |].
    destruct u1 as [| b u1]; [| discriminate].
    rewrite append_cons, append_nil_l in Hsplit. injection Hsplit as _ <-. contradiction.
Qed.

Lemma axis_entry_match (k t rest : string) :
  tag_ok k = true -> plain_decimal t = true -> sep_or_end rest ->
  exists m : caps,
    match_here re_axis (entry_text k t +:+ rest) = Some (m, rest) /\
    cap 1 m = Some k /\ cap 2 m = Some t.
Proof.
  intros Hk Ht Hrest.
  destruct (plain_decimal_inv t Ht) as [sgn [ip [frac [-> [Hs [Hne [Hip Hfrac]]]]]]].
  unfold match_here, re_axis.
  rewrite entry_text_app, rmatch_cat, (tag_match _ _ _ _ Hk), rmatch_cat.
  rewrite entry_space, rmatch_group.
  - cbv beta. rewrite !append_assoc.
    destruct (decimal_match sgn ip frac rest [(1, k)]
                (fun s1 c1 => Some ((2, consumed (sgn +:+ ip +:+ frac +:+ rest) s1) :: c1, s1))
                Hs Hne Hip Hfrac Hrest) as [c' [Hc' Hm]].
    + intros c' _. eexists. reflexivity.
    + eexists. split; [exact Hm |]. split.
      * simpl. rewrite Hc'. reflexivity.
      * simpl.
        replace (sgn +:+ ip +:+ frac +:+ rest) with ((sgn +:+ ip +:+ frac) +:+ rest)
          by (rewrite !append_assoc; reflexivity).
        rewrite consumed_app. reflexivity.
  - rewrite !append_assoc.
    apply plain_decimal_start; try assumption; [apply digit_not_space | reflexivity].
Qed.

Lemma num_entry_match (k sgn ip v : string) :
  tag_ok k = true ->
  sgn = "" \/ sgn = "-" -> ip <> "" -> str_forall is_digit ip = true ->
  starts_without is_digit v ->
  match_here re_num (entry_text k (sgn +:+ ip) +:+ v)
  = Some ([(2, sgn +:+ ip); (1, k)], v).
Proof.
  intros Hk Hs Hne Hip Hv.
  unfold match_here, re_num.
  rewrite entry_text_app, rmatch_cat, (tag_match _ _ _ _ Hk), rmatch_cat.
  rewrite entry_space, rmatch_group.
  - rewrite append_assoc. apply integer_match; try assumption.
    rewrite <- append_assoc, consumed_app. reflexivity.
  - rewrite append_assoc.
    apply plain_decimal_start; try assumption; [apply digit_not_space | reflexivity].
Qed.

Lemma num_entry_miss (k w rest : string) :
  tag_ok k = true -> w = "on" \/ w = "off" ->
  match_here re_num (entry_text k w +:+ rest) = None.
Proof.
  intros Hk Hw.
  unfold match_here, re_num.
  rewrite entry_text_app, rmatch_cat, (tag_match _ _ _ _ Hk), rmatch_cat.
  rewrite entry_space, rmatch_group.
  - unfold re_integer, ROpt, RPlus. rewrite rmatch_cat.
    change (w +:+ rest) with ("" +:+ (w +:+ rest)).
    rewrite rmatch_class_eq.
    + apply rmatch_class_short; [| lia | discriminate].
      destruct Hw as [-> | ->]; reflexivity.
    + reflexivity.
    + destruct Hw as [-> | ->]; reflexivity.
    + simpl. lia.
    + intros h Hh. injection Hh as <-. simpl. lia.
    + intros u1 u2 Hsplit _ Hne. destruct u1; [| discriminate].
      rewrite append_nil_l in Hsplit. subst u2. contradiction.
  - destruct Hw as [-> | ->]; reflexivity.
Qed.

Lemma flag_entry_match (k w rest : string) :
  tag_ok k = true -> w = "on" \/ w = "off" ->
  match_here re_flag (entry_text k w +:+ rest) = Some ([(2, w); (1, k)], rest).
Proof.
  intros Hk Hw.
  unfold match_here, re_flag.
  rewrite entry_text_app, rmatch_cat, (tag_match _ _ _ _ Hk), rmatch_cat.
  rewrite entry_space, rmatch_group.
  - destruct Hw as [-> | ->]; unfold re_on_off; rewrite rmatch_alt.
    + change (rmatch (RLit "on") ("on" +:+ rest) [(1, k)]
                (fun s1 c1 => Some ((2, consumed ("on" +:+ rest) s1) :: c1, s1)))
        with (Some ((2, consumed ("on" +:+ rest) rest) :: [(1, k)], rest)).
      rewrite consumed_app. reflexivity.
    + change (rmatch (RLit "on") ("off" +:+ rest) [(1, k)]
                (fun s1 c1 => Some ((2, consumed ("off" +:+ rest) s1) :: c1, s1)))
        with (@None (caps * string)).
      change (rmatch (RLit "off") ("off" +:+ rest) [(1, k)]
                (fun s1 c1 => Some ((2, consumed ("off" +:+ rest) s1) :: c1, s1)))
        with (Some ((2, consumed ("off" +:+ rest) rest) :: [(1, k)], rest)).
      rewrite consumed_app. reflexivity.
  - destruct Hw as [-> | ->]; reflexivity.
Qed.

Lemma flag_entry_miss (k sgn ip tail rest : string) :
  tag_ok k = true ->
  sgn = "" \/ sgn = "-" -> ip <> "" -> str_forall is_digit ip = true ->
  match_here re_flag (entry_text k (sgn +:+ ip +:+ tail) +:+ rest) = None.
Proof.
  intros Hk Hs Hne Hip.
  unfold match_here, re_flag.
  rewrite entry_text_app, rmatch_cat, (tag_match _ _ _ _ Hk), rmatch_cat.
  rewrite entry_space, rmatch_group.
  - assert (Hstart : starts_without (is_char "o") ((sgn +:+ ip +:+ tail) +:+ rest)).
    { rewrite !append_assoc.
      apply plain_decimal_start; try assumption; [apply digit_not_o | reflexivity]. }
    destruct ((sgn +:+ ip +:+ tail) +:+ rest) as [| a s]; [reflexivity |].
    change (is_char "o" a = false) in Hstart. unfold re_on_off. rewrite rmatch_alt.
    change (RLit "on") with (RCat (RChar (is_char "o")) (RChar (is_char "n"))).
    change (RLit "off")
      with (RCat (RChar (is_char "o")) (RCat (RChar (is_char "f")) (RChar (is_char "f")))).
    rewrite !rmatch_cat, !rmatch_char, Hstart. reflexivity.
  - rewrite !append_assoc.
    apply plain_decimal_start; try assumption; [apply digit_not_space | reflexivity].
Qed.

(** ** The loop of [exec] over the entries *)

Lemma exec_hit (r : regex) (s : string) (res : caps * string) :
  match_here r s = Some res -> exec r s = Some res.
Proof. intros H. destruct s; simpl; rewrite H; reflexivity. Qed.

Lemma exec_miss (r : regex) (a : ascii) (s : string) :
  match_here r (String a s) = None -> exec r (String a s) = exec r s.
Proof. intros H. cbn [exec]. rewrite H. reflexivity. Qed.

Section Tagged.
Variable X : regex.

Lemma match_here_nil : match_here (RCat re_tag X) "" = None.
Proof. reflexivity. Qed.

Lemma match_here_not_quote (a : ascii) (s : string) :
  is_char dquote a = false -> match_here (RCat re_tag X) (String a s) = None.
Proof.
  intros Ha. unfold match_here, re_tag. rewrite !rmatch_cat, rmatch_char, Ha. reflexivity.
Qed.

Lemma match_here_closing (b : ascii) (s : string) :
  is_alnum b = false -> match_here (RCat re_tag X) (String dquote (String b s)) = None.
Proof.
  intros Hb. unfold match_here, re_tag. rewrite !rmatch_cat, rmatch_char.
  change (is_char dquote dquote) with true. cbv iota.
  rewrite rmatch_cat, rmatch_group. apply rmatch_class_short.
  - exact Hb.
  - lia.
  - intros h Hh. injection Hh as <-. lia.
Qed.

Lemma exec_nil : exec (RCat re_tag X) "" = None.
Proof. reflexivity. Qed.

Lemma exec_skip (u s : string) :
  no_dquote u = true -> exec (RCat re_tag X) (u +:+ s) = exec (RCat re_tag X) s.
Proof.
  induction u as [| a u IH]; intros Hu; [reflexivity |].
  unfold no_dquote in Hu. simpl in Hu. apply andb_true_iff in Hu. destruct Hu as [Ha Hu].
  rewrite append_cons, exec_miss; [apply IH; exact Hu |].
  apply match_here_not_quote. apply negb_true_iff. exact Ha.
Qed.

(** An entry that the pattern does not match at its first quote is passed
    over as a whole. *)
Lemma exec_entry_miss (k t rest : string) :
  str_forall is_alnum k = true ->
  no_dquote t = true ->
  match_here (RCat re_tag X) (entry_text k t +:+ rest) = None ->
  exec (RCat re_tag X) (entry_text k t +:+ rest) = exec (RCat re_tag X) rest.
Proof.
  intros Hk Ht Hmiss. rewrite entry_text_app in *.
  rewrite (exec_miss _ _ _ Hmiss), exec_skip.
  - rewrite exec_miss by (apply match_here_closing; reflexivity).
    change (String " " (t +:+ rest)) with (" " +:+ (t +:+ rest)).
    rewrite exec_skip by reflexivity. apply exec_skip. exact Ht.
  - clear - Hk. induction k as [| a k IH]; [reflexivity |].
    simpl in Hk. apply andb_true_iff in Hk. destruct Hk as [Ha Hk].
    unfold no_dquote. cbn [str_forall]. rewrite (alnum_not_dquote a Ha). apply IH. exact Hk.
Qed.

Lemma exec_loop_ext (fuel : nat) (body : caps -> obj -> obj) (s1 s2 : string) (out : obj) :
  exec (RCat re_tag X) s1 = exec (RCat re_tag X) s2 ->
  exec_loop fuel (RCat re_tag X) body s1 out = exec_loop fuel (RCat re_tag X) body s2 out.
Proof. intros H. destruct fuel; simpl; [reflexivity | rewrite H; reflexivity]. Qed.
End Tagged.

Lemma join_cons (sep x : string) (l : list string) :
  join sep (x :: l) = x +:+ match l with [] => "" | _ => sep +:+ join sep l end.
Proof.
  destruct l as [| y l]; [| reflexivity]. simpl. rewrite append_nil_r. reflexivity.
Qed.

Section Entries.
Context {E : Type}.
Variable X : regex.
Variable body : caps -> obj -> obj.
Variable entry : E -> string.
Variable upd : E -> option (string * value).

Lemma exec_loop_entries (es : list E) :
  (forall e, In e es -> reads X body entry upd e) ->
  forall (fuel : nat) (out : obj),
    length es < fuel ->
    exec_loop fuel (RCat re_tag X) body (join ", " (map entry es)) out
    = Some (set_all (updates_of upd es) out).
Proof.
  induction es as [| e es IH]; intros Hreads fuel out Hfuel.
  - destruct fuel as [| fuel]; [simpl in Hfuel; lia | reflexivity].
  - destruct fuel as [| fuel]; [simpl in Hfuel; lia |].
    cbn [map]. rewrite join_cons.
    set (rest := match map entry es with [] => "" | _ => ", " +:+ join ", " (map entry es) end).
    assert (Hrest : sep_or_end rest).
    { subst rest. destruct (map entry es); [left; reflexivity | right].
      eexists. reflexivity. }
    assert (Hnext : exec (RCat re_tag X) rest = exec (RCat re_tag X) (join ", " (map entry es))).
    { subst rest. destruct (map entry es) as [| y l] eqn:El; [reflexivity |].
      rewrite exec_skip by reflexivity. reflexivity. }
    assert (IH' : forall fuel out, length es < fuel ->
                    exec_loop fuel (RCat re_tag X) body (join ", " (map entry es)) out
                    = Some (set_all (updates_of upd es) out)).
    { apply IH. intros e' He'. apply Hreads. right. exact He'. }
    pose proof (Hreads e (or_introl eq_refl) rest Hrest) as He.
    unfold updates_of. cbn [flat_map]. fold (updates_of upd es).
    destruct (upd e) as [[k v] |].
    + destruct He as [m [junk [Hexec [Hjunk Hbody]]]].
      cbn [exec_loop]. rewrite Hexec.
      rewrite (exec_loop_ext X fuel body _ (join ", " (map entry es))).
      * rewrite IH' by (simpl in Hfuel; lia). rewrite Hbody. reflexivity.
      * rewrite exec_skip by exact Hjunk. exact Hnext.
    + rewrite (exec_loop_ext X (S fuel) body _ (join ", " (map entry es))).
      * apply IH'. simpl in Hfuel. lia.
      * rewrite He. exact Hnext.
Qed.
End Entries.

(** ** Objects *)

Lemma obj_has_replace (o : obj) (k : string) (v : value) (k' : string) :
  obj_has (obj_replace o k v) k' = obj_has o k'.
Proof.
  induction o as [| [k0 v0] o IH]; [reflexivity |]. cbn [obj_replace].
  destruct (String.eqb k0 k); cbn [obj_has]; [reflexivity | rewrite IH; reflexivity].
Qed.

Lemma obj_get_replace (o : obj) (k : string) (v : value) (k' : string) :
  obj_has o k = true ->
  obj_get (obj_replace o k v) k' = if String.eqb k k' then v else obj_get o k'.
Proof.
  induction o as [| [k0 v0] o IH]; [discriminate |]. cbn [obj_has obj_replace]. intros Hhas.
  destruct (String.eqb_spec k0 k) as [-> | Hne]; cbn [obj_get].
  - destruct (String.eqb k k'); reflexivity.
  - simpl in Hhas. rewrite (IH Hhas).
    destruct (String.eqb_spec k0 k') as [-> | Hne']; [| reflexivity].
    destruct (String.eqb_spec k k'); [congruence | reflexivity].
Qed.

Lemma length_replace (o : obj) (k : string) (v : value) :
  length (obj_replace o k v) = length o.
Proof.
  induction o as [| [k0 v0] o IH]; [reflexivity |]. cbn [obj_replace].
  destruct (String.eqb k0 k); cbn [length]; [reflexivity | rewrite IH; reflexivity].
Qed.

Lemma obj_has_insert_index (o : obj) (i : N) (k : string) (v : value) (k' : string) :
  obj_has (obj_insert_index o i k v) k' = String.eqb k k' || obj_has o k'.
Proof.
  induction o as [| [k0 v0] o IH]; [reflexivity |]. cbn [obj_insert_index].
  destruct (array_index k0) as [j |]; [destruct (j <? i)%N |]; cbn [obj_has]; try reflexivity.
  rewrite IH. destruct (String.eqb k0 k'), (String.eqb k k'); reflexivity.
Qed.

Lemma obj_get_insert_index (o : obj) (i : N) (k : string) (v : value) (k' : string) :
  obj_has o k = false ->
  obj_get (obj_insert_index o i k v) k' = if String.eqb k k' then v else obj_get o k'.
Proof.
  induction o as [| [k0 v0] o IH]; intros Hhas; [reflexivity |].
  cbn [obj_has] in Hhas. apply orb_false_iff in Hhas. destruct Hhas as [Hk0 Hhas].
  cbn [obj_insert_index].
  destruct (array_index k0) as [j |]; [destruct (j <? i)%N |]; cbn [obj_get]; try reflexivity.
  rewrite (IH Hhas).
  destruct (String.eqb_spec k0 k') as [-> | Hne]; [| reflexivity].
  rewrite String.eqb_sym, Hk0. reflexivity.
Qed.

Lemma length_insert_index (o : obj) (i : N) (k : string) (v : value) :
  length (obj_insert_index o i k v) = S (length o).
Proof.
  induction o as [| [k0 v0] o IH]; [reflexivity |]. cbn [obj_insert_index].
  destruct (array_index k0) as [j |]; [destruct (j <? i)%N |]; cbn [length]; try reflexivity.
  rewrite IH. reflexivity.
Qed.

Lemma obj_has_snoc (o : obj) (k : string) (v : value) (k' : string) :
  obj_has (o ++ [(k, v)])%list k' = String.eqb k k' || obj_has o k'.
Proof.
  induction o as [| [k0 v0] o IH]; cbn [app obj_has]; [reflexivity |].
  rewrite IH. destruct (String.eqb k0 k'), (String.eqb k k'); reflexivity.
Qed.

Lemma obj_get_snoc (o : obj) (k : string) (v : value) (k' : string) :
  obj_has o k = false ->
  obj_get (o ++ [(k, v)])%list k' = if String.eqb k k' then v else obj_get o k'.
Proof.
  induction o as [| [k0 v0] o IH]; intros Hhas; [reflexivity |].
  cbn [obj_has] in Hhas. apply orb_false_iff in Hhas. destruct Hhas as [Hk0 Hhas].
  cbn [app obj_get]. rewrite (IH Hhas).
  destruct (String.eqb_spec k0 k') as [-> | Hne]; [| reflexivity].
  rewrite String.eqb_sym, Hk0. reflexivity.
Qed.

(** A tag is no property of [Object.prototype]: the names of these are
    longer. *)
Lemma tag_not_proto (k : string) : tag_ok k = true -> k <> "__proto__".
Proof. intros Hk ->. discriminate Hk. Qed.

Lemma Object_prototype_tag (k : string) : tag_ok k = true -> Object_prototype k = VUndefined.
Proof.
  intros Hk. unfold tag_ok in Hk. apply andb_true_iff in Hk. destruct Hk as [_ Hlen].
  apply Nat.leb_le in Hlen. unfold Object_prototype.
  destruct (String.eqb_spec k "constructor") as [-> | _]; [simpl in Hlen; lia |].
  destruct (String.eqb_spec k "__proto__") as [-> | _]; [simpl in Hlen; lia |].
  destruct (existsb (String.eqb k) _) eqn:E; [| reflexivity].
  apply existsb_exists in E. destruct E as [x [Hin Hx]]. apply String.eqb_eq in Hx. subst x.
  simpl in Hin. exfalso.
  repeat (destruct Hin as [<- | Hin]; [simpl in Hlen; lia |]). exact Hin.
Qed.

Lemma obj_set_own (o : obj) (k : string) (v : value) :
  k <> "__proto__" ->
  obj_set o k v = if obj_has o k then obj_replace o k v
                  else match array_index k with
                       | Some i => obj_insert_index o i k v
                       | None => (o ++ [(k, v)])%list
                       end.
Proof.
  intros Hk. unfold obj_set. destruct (String.eqb_spec k "__proto__"); [contradiction |].
  reflexivity.
Qed.

Lemma obj_has_set (o : obj) (k : string) (v : value) (k' : string) :
  k <> "__proto__" ->
  obj_has (obj_set o k v) k' = String.eqb k k' || obj_has o k'.
Proof.
  intros Hk. rewrite (obj_set_own _ _ _ Hk). destruct (obj_has o k) eqn:Hhas.
  - rewrite obj_has_replace. destruct (String.eqb_spec k k') as [<- | _]; [| reflexivity].
    rewrite Hhas. reflexivity.
  - destruct (array_index k); [apply obj_has_insert_index | apply obj_has_snoc].
Qed.

Lemma obj_get_set (o : obj) (k : string) (v : value) (k' : string) :
  k <> "__proto__" ->
  obj_get (obj_set o k v) k' = if String.eqb k k' then v else obj_get o k'.
Proof.
  intros Hk. rewrite (obj_set_own _ _ _ Hk). destruct (obj_has o k) eqn:Hhas.
  - apply obj_get_replace. exact Hhas.
  - destruct (array_index k); [apply obj_get_insert_index | apply obj_get_snoc]; exact Hhas.
Qed.

Lemma length_set (o : obj) (k : string) (v : value) :
  k <> "__proto__" ->
  length (obj_set o k v) = if obj_has o k then length o else S (length o).
Proof.
  intros Hk. rewrite (obj_set_own _ _ _ Hk). destruct (obj_has o k).
  - apply length_replace.
  - destruct (array_index k); [apply length_insert_index |].
    rewrite length_app. simpl. lia.
Qed.

Lemma set_all_cons (k : string) (v : value) (updates : list (string * value)) (o : obj) :
  set_all ((k, v) :: updates) o = set_all updates (obj_set o k v).
Proof. reflexivity. Qed.

Lemma set_all_app (u1 u2 : list (string * value)) (o : obj) :
  set_all (u1 ++ u2)%list o = set_all u2 (set_all u1 o).
Proof. unfold set_all. apply fold_left_app. Qed.

Lemma obj_get_set_all_other (updates : list (string * value)) :
  forall (o : obj) (k : string),
    ~ In k (map fst updates) -> obj_get (set_all updates o) k = obj_get o k.
Proof.
  induction updates as [| [k0 v0] updates IH]; intros o k Hk; [reflexivity |].
  rewrite set_all_cons, IH.
  - destruct (String.eqb_spec k0 "__proto__") as [-> | Hp].
    + unfold obj_set. reflexivity.
    + rewrite (obj_get_set _ _ _ _ Hp).
      destruct (String.eqb_spec k0 k) as [-> | _]; [| reflexivity].
      exfalso. apply Hk. left. reflexivity.
  - intros Hin. apply Hk. right. exact Hin.
Qed.

Lemma obj_get_set_all (updates : list (string * value)) :
  forall (o : obj) (k : string) (v : value),
    List.NoDup (map fst updates) -> In (k, v) updates -> k <> "__proto__" ->
    obj_get (set_all updates o) k = v.
Proof.
  induction updates as [| [k0 v0] updates IH]; intros o k v Hnd Hin Hp; [destruct Hin |].
  cbn [map fst] in Hnd. apply List.NoDup_cons_iff in Hnd. destruct Hnd as [Hk0 Hnd].
  rewrite set_all_cons. destruct Hin as [Heq | Hin].
  - injection Heq as -> ->. rewrite obj_get_set_all_other by exact Hk0.
    rewrite (obj_get_set _ _ _ _ Hp), string_eqb_refl. reflexivity.
  - apply IH; assumption.
Qed.

Lemma obj_has_set_all (updates : list (string * value)) :
  forall (o : obj) (k : string),
    obj_has (set_all updates o) k = true -> obj_has o k = true \/ In k (map fst updates).
Proof.
  induction updates as [| [k0 v0] updates IH]; intros o k Hk; [left; exact Hk |].
  rewrite set_all_cons in Hk. destruct (IH _ _ Hk) as [H | H].
  - destruct (String.eqb_spec k0 "__proto__") as [-> | Hp]; [left; exact H |].
    rewrite (obj_has_set _ _ _ _ Hp) in H. apply orb_true_iff in H. destruct H as [H | H].
    + apply String.eqb_eq in H. right. left. exact H.
    + left. exact H.
  - right. right. exact H.
Qed.

Lemma length_set_all (updates : list (string * value)) :
  forall o : obj,
    List.NoDup (map fst updates) ->
    (forall k, In k (map fst updates) -> k <> "__proto__" /\ obj_has o k = false) ->
    length (set_all updates o) = length o + length updates.
Proof.
  induction updates as [| [k0 v0] updates IH]; intros o Hnd Hfresh.
  - simpl. lia.
  - cbn [map fst] in Hnd. apply List.NoDup_cons_iff in Hnd. destruct Hnd as [Hk0 Hnd].
    destruct (Hfresh k0 (or_introl eq_refl)) as [Hp Hf0].
    rewrite set_all_cons, IH.
    + rewrite (length_set _ _ _ Hp), Hf0. simpl. lia.
    + exact Hnd.
    + intros k Hk. destruct (Hfresh k (or_intror Hk)) as [Hpk Hfk]. split; [exact Hpk |].
      rewrite (obj_has_set _ _ _ _ Hp), Hfk, orb_false_r.
      apply String.eqb_neq. intros ->. contradiction.
Qed.

(** ** [axisToString] and [parseAxis] *)

Lemma join_length (l : list string) :
  Forall (fun x => x <> "") l -> length l <= String.length (join ", " l).
Proof.
  induction l as [| x l IH]; intros Hall; [simpl; lia |].
  apply Forall_cons_1 in Hall. destruct Hall as [Hx Hall].
  rewrite join_cons, length_append. specialize (IH Hall).
  destruct x as [| a x]; [contradiction |].
  destruct l as [| y l]; [simpl; lia |].
  rewrite length_append. cbn [length String.length] in *. lia.
Qed.

Lemma entry_text_not_empty (k t : string) : entry_text k t <> "".
Proof. discriminate. Qed.

Lemma join_entries_not_empty {E : Type} (entry : E -> string) (e : E) (es : list E) :
  (forall e, exists a s, entry e = String a s) ->
  String.eqb (join ", " (map entry (e :: es))) "" = false.
Proof.
  intros Hentry. cbn [map]. rewrite join_cons.
  destruct (Hentry e) as [a [s ->]]. reflexivity.
Qed.

Lemma axis_parts_entries (axes : obj) :
  axis_parts axes
  = map (fun e => entry_text (fst e) (axis_text (snd e))) (non_null axes).
Proof.
  induction axes as [| [k v] axes IH]; [reflexivity |].
  cbn [axis_parts non_null List.filter snd]. fold (non_null axes).
  destruct (nullish v); cbn [negb map]; rewrite IH; reflexivity.
Qed.

Lemma non_null_In (o : obj) (k : string) (v : value) :
  In (k, v) (non_null o) <-> In (k, v) o /\ nullish v = false.
Proof.
  unfold non_null. rewrite filter_In. cbn [snd]. rewrite negb_true_iff. reflexivity.
Qed.

Lemma NoDup_keys_filter (p : string * value -> bool) (o : obj) :
  List.NoDup (map fst o) -> List.NoDup (map fst (List.filter p o)).
Proof.
  induction o as [| e o IH]; intros Hnd; [constructor |].
  cbn [map] in Hnd. apply List.NoDup_cons_iff in Hnd. destruct Hnd as [Hk Hnd].
  cbn [List.filter]. destruct (p e); [| apply IH; exact Hnd].
  cbn [map]. constructor; [| apply IH; exact Hnd].
  intros Hin. apply Hk. apply in_map_iff in Hin. destruct Hin as [e' [He' Hin]].
  apply filter_In in Hin. apply in_map_iff. exists e'. split; [exact He' | apply Hin].
Qed.

Lemma updates_of_all {E : Type} (f : E -> string * value) (es : list E) :
  updates_of (fun e => Some (f e)) es = map f es.
Proof.
  induction es as [| e es IH]; [reflexivity |].
  unfold updates_of in *. cbn [flat_map map app]. rewrite IH. reflexivity.
Qed.

(** The loop of [parseAxis] on the text of [axisToString]. *)
Lemma parseAxis_axisToString (axes : obj) :
  (forall k v, In (k, v) axes -> nullish v = false ->
               tag_ok k = true /\ plain_decimal (axis_text v) = true) ->
  parseAxis (axisToString (Some axes))
  = Some (set_all (map (fun e => (fst e, VNum (parseFloat (axis_text (snd e)))))
                       (non_null axes)) []).
Proof.
  intros Hok. unfold axisToString, parseAxis. rewrite axis_parts_entries.
  destruct (non_null axes) as [| e es] eqn:Hes; [reflexivity |].
  rewrite join_entries_not_empty by (intros e'; eexists; eexists; reflexivity).
  rewrite <- updates_of_all.
  apply (exec_loop_entries (RCat (RPlus (RChar is_space)) (RGroup 2 re_decimal))).
  - intros [k v] Hin rest Hrest. rewrite <- Hes in Hin. apply non_null_In in Hin.
    destruct (Hok k v (proj1 Hin) (proj2 Hin)) as [Hk Ht]. cbn [fst snd].
    destruct (axis_entry_match k (axis_text v) rest Hk Ht Hrest) as [m [Hm [H1 H2]]].
    exists m, "". split; [apply exec_hit; exact Hm |]. split; [reflexivity |].
    intros o. unfold group. rewrite H1, H2. reflexivity.
  - apply Nat.lt_succ_r. rewrite <- (length_map (fun e => entry_text (fst e) (axis_text (snd e)))).
    apply join_length. apply List.Forall_forall. intros x Hx.
    apply in_map_iff in Hx. destruct Hx as [e' [<- _]]. apply entry_text_not_empty.
Qed.

(** What [parseAxis] reads back from the text of [axisToString]. *)
Lemma parseAxis_reads_back :
  forall axes : obj,
    List.NoDup (map fst axes) ->
    (forall k v, In (k, v) axes -> nullish v = false ->
                 tag_ok k = true /\ plain_decimal (axis_text v) = true) ->
    exists out : obj,
      parseAxis (axisToString (Some axes)) = Some out /\
      length out = length (non_null axes) /\
      (forall k v, In (k, v) axes -> nullish v = false ->
                   obj_get out k = VNum (parseFloat (axis_text v))) /\
      (forall k, obj_has out k = true -> exists v, In (k, v) axes /\ nullish v = false).
Proof.
  intros axes Hnd Hok.
  set (updates := map (fun e => (fst e, VNum (parseFloat (axis_text (snd e)))))
                      (non_null axes)).
  assert (Hkeys : map fst updates = map fst (non_null axes)).
  { unfold updates. rewrite List.map_map. reflexivity. }
  assert (Hnd' : List.NoDup (map fst updates)).
  { rewrite Hkeys. apply NoDup_keys_filter. exact Hnd. }
  assert (Htags : forall k, In k (map fst updates) -> k <> "__proto__").
  { intros k Hk. rewrite Hkeys in Hk. apply in_map_iff in Hk. destruct Hk as [[k' v] [<- Hin]].
    apply non_null_In in Hin. apply tag_not_proto. apply (Hok k' v); apply Hin. }
  exists (set_all updates []). split; [apply parseAxis_axisToString; exact Hok |].
  split; [| split].
  - rewrite length_set_all; [| exact Hnd' |].
    + unfold updates. rewrite length_map. reflexivity.
    + intros k Hk. split; [apply Htags; exact Hk | reflexivity].
  - intros k v Hin Hv. apply obj_get_set_all; [exact Hnd' | |].
    + unfold updates. apply in_map_iff. exists (k, v). split; [reflexivity |].
      apply non_null_In. split; assumption.
    + apply tag_not_proto. apply (Hok k v Hin Hv).
  - intros k Hk. apply obj_has_set_all in Hk. destruct Hk as [Hk | Hk]; [discriminate |].
    rewrite Hkeys in Hk. apply in_map_iff in Hk. destruct Hk as [[k' v] [<- Hin]].
    exists v. apply non_null_In. exact Hin.
Qed.

Lemma axis_text_number (v : value) : isNumber v = true -> axis_text v = ToString v.
Proof.
  unfold axis_text, toUnitless. destruct v as [| | b | x | s | ob]; try discriminate.
  intros H. rewrite H. reflexivity.
Qed.

(** C1, as the code has it.  For an axis map whose entries with a value
    have tags of three or four letters or digits and values that
    [axisToString] writes as a plain decimal (an optional minus, digits, an
    optional fraction), [parseAxis] reads back as many entries as were
    written, each tag with the parsed float of its value; for a value that
    is not a number, provided the text written reads back as that float. *)
Theorem axis_round_trip :
  forall axes : obj,
    List.NoDup (map fst axes) ->
    (forall k v, In (k, v) axes -> nullish v = false ->
                 tag_ok k = true /\
                 plain_decimal (axis_text v) = true /\
                 (isNumber v = false ->
                  parseFloat (axis_text v) = parseFloat (ToString v))) ->
    axis_round_trip_at axes.
Proof.
  intros axes Hnd Hok.
  destruct (parseAxis_reads_back axes Hnd) as [out [Hout [Hlen [Hget _]]]].
  - intros k v Hin Hv. destruct (Hok k v Hin Hv) as [Hk [Ht _]]. split; assumption.
  - exists out. split; [exact Hout |]. split; [exact Hlen |].
    intros k v Hin Hv. rewrite (Hget k v Hin Hv).
    destruct (Hok k v Hin Hv) as [_ [_ Hback]].
    destruct (isNumber v) eqn:Hnum.
    + rewrite (axis_text_number v Hnum). reflexivity.
    + rewrite (Hback eq_refl). reflexivity.
Qed.

(** The axes of the usage example, a negative slant, a size given as a
    string and an axis without a value. *)
Lemma axis_round_trip_witness :
  axis_round_trip_at [("wght", num "500"); ("wdth", num "100"); ("slnt", num "-12.5");
                      ("opsz", VStr "14"); ("ital", VNull)].
Proof.
  apply axis_round_trip.
  - repeat constructor; simpl; intuition discriminate.
  - intros k v Hin Hv. simpl in Hin.
    destruct Hin as [H | [H | [H | [H | [H | []]]]]]; injection H as <- <-;
      try discriminate Hv; repeat split; try (intros _); vm_compute; reflexivity.
Defined.

(** A tag of five letters is written and not read back; and a number
    written with an exponent is read back as its first digits. *)
Lemma axis_round_trip_counterexample :
  ~ axis_round_trip_at [("width", num "100")] /\
  ~ axis_round_trip_at [("wght", num "1e21")].
Proof.
  split; intros [out [Hout [Hlen Hget]]]; vm_compute in Hout; injection Hout as <-.
  - discriminate Hlen.
  - specialize (Hget "wght" (num "1e21") (or_introl eq_refl) eq_refl).
    vm_compute in Hget. discriminate Hget.
Qed.

(** ** [featuresToString] and [parseFeatures] *)

Lemma integer_led_inv (t : string) :
  integer_led t = true ->
  exists sgn ip tail : string,
    t = sgn +:+ ip +:+ tail /\
    (sgn = "" \/ sgn = "-") /\
    ip <> "" /\ str_forall is_digit ip = true /\
    starts_without is_digit tail /\ no_dquote tail = true.
Proof.
  unfold integer_led.
  set (t1 := match t with
             | String a t' => if is_char "-" a then t' else t
             | EmptyString => t
             end).
  assert (Hsgn : exists sgn, t = sgn +:+ t1 /\ (sgn = "" \/ sgn = "-")).
  { subst t1. destruct t as [| a t']; [exists ""; split; [reflexivity | left; reflexivity] |].
    destruct (is_char "-" a) eqn:Ha.
    - apply Ascii.eqb_eq in Ha. subst a. exists "-". split; [reflexivity | right; reflexivity].
    - exists "". split; [reflexivity | left; reflexivity]. }
  destruct Hsgn as [sgn [Ht Hs]]. clearbody t1.
  destruct (span is_digit t1) as [ip t2] eqn:E.
  destruct (span_spec _ _ _ _ E) as [-> [Hip Htail]].
  rewrite andb_true_iff, negb_true_iff, String.eqb_neq. intros [Hne Hq].
  exists sgn, ip, t2. repeat split; assumption.
Qed.

Lemma span_app (p : ascii -> bool) (u v : string) :
  str_forall p u = true -> starts_without p v -> span p (u +:+ v) = (u, v).
Proof.
  induction u as [| a u IH]; intros Hu Hv.
  - rewrite append_nil_l. destruct v as [| b v]; [reflexivity |].
    simpl in Hv. cbn [span]. rewrite Hv. reflexivity.
  - simpl in Hu. apply andb_true_iff in Hu. destruct Hu as [Ha Hu].
    rewrite append_cons. cbn [span]. rewrite Ha, (IH Hu Hv). reflexivity.
Qed.

Lemma digit_not_plus (a : ascii) : is_digit a = true -> is_char "+" a = false.
Proof.
  destruct a as [[] [] [] [] [] [] [] []]; vm_compute; intros H; congruence.
Qed.

Lemma parseInt_signed (sgn ip tail : string) :
  sgn = "" \/ sgn = "-" -> ip <> "" -> str_forall is_digit ip = true ->
  starts_without is_digit tail ->
  parseInt (sgn +:+ ip +:+ tail)
  = num_of_decimal (String.eqb sgn "-") (digits_value ip) 0.
Proof.
  intros Hs Hne Hip Htail. unfold parseInt.
  destruct ip as [| d ip]; [contradiction |].
  pose proof Hip as Hd. simpl in Hd. apply andb_true_iff in Hd. destruct Hd as [Hd _].
  destruct Hs as [-> | ->].
  - rewrite append_nil_l, append_cons. cbn [drop_while].
    rewrite (digit_not_space d Hd). cbn [read_sign].
    rewrite (digit_not_minus d Hd), (digit_not_plus d Hd).
    change (String d (ip +:+ tail)) with (String d ip +:+ tail).
    rewrite (span_app _ _ _ Hip Htail). reflexivity.
  - change ("-" +:+ String d ip +:+ tail) with (String "-" (String d ip +:+ tail)).
    cbn [drop_while]. change (is_space "-") with false. cbv iota. cbn [read_sign].
    change (is_char "-" "-") with true. cbv iota.
    rewrite (span_app _ _ _ Hip Htail). reflexivity.
Qed.

Lemma parseInt_prefix (sgn ip tail : string) :
  sgn = "" \/ sgn = "-" -> ip <> "" -> str_forall is_digit ip = true ->
  starts_without is_digit tail ->
  parseInt (sgn +:+ ip) = parseInt (sgn +:+ ip +:+ tail).
Proof.
  intros Hs Hne Hip Htail.
  rewrite (parseInt_signed sgn ip tail Hs Hne Hip Htail).
  rewrite <- (append_nil_r ip) at 1. apply parseInt_signed; try assumption. exact I.
Qed.

Lemma feature_parts_entries (features : obj) :
  feature_parts features
  = map (fun e => entry_text (fst e) (feature_text (snd e))) (non_null features).
Proof.
  induction features as [| [k v] features IH]; [reflexivity |].
  cbn [feature_parts non_null List.filter snd]. fold (non_null features).
  destruct (nullish v); cbn [negb map]; rewrite IH; [reflexivity |].
  f_equal. unfold feature_part, feature_text. cbn [fst snd].
  destruct (isNumber v); reflexivity.
Qed.

Lemma starts_without_app (p : ascii -> bool) (u v : string) :
  starts_without p u -> starts_without p v -> starts_without p (u +:+ v).
Proof. intros Hu Hv. destruct u as [| a u]; [exact Hv | exact Hu]. Qed.

Lemma entry_text_split (k a b c : string) :
  entry_text k (a +:+ b) +:+ c = entry_text k a +:+ (b +:+ c).
Proof. unfold entry_text. rewrite !append_assoc. reflexivity. Qed.

Lemma no_dquote_app (u v : string) :
  no_dquote u = true -> no_dquote v = true -> no_dquote (u +:+ v) = true.
Proof.
  intros Hu Hv. induction u as [| a u IH]; [exact Hv |].
  unfold no_dquote in *. rewrite append_cons. cbn [str_forall] in *.
  apply andb_true_iff in Hu. destruct Hu as [Ha Hu]. rewrite Ha. apply IH. exact Hu.
Qed.

Lemma digits_no_dquote (ip : string) : str_forall is_digit ip = true -> no_dquote ip = true.
Proof.
  induction ip as [| a ip IH]; intros H; [reflexivity |].
  simpl in H. apply andb_true_iff in H. destruct H as [Ha H].
  unfold no_dquote. cbn [str_forall]. rewrite (digit_not_dquote a Ha). apply IH. exact H.
Qed.

Lemma integer_led_no_dquote (sgn ip tail : string) :
  sgn = "" \/ sgn = "-" -> str_forall is_digit ip = true -> no_dquote tail = true ->
  no_dquote (sgn +:+ ip +:+ tail) = true.
Proof.
  intros Hs Hip Htail. apply no_dquote_app; [destruct Hs as [-> | ->]; reflexivity |].
  apply no_dquote_app; [apply digits_no_dquote; exact Hip | exact Htail].
Qed.

(** What the two loops of [parseFeatures] assign for an entry. *)
Lemma reads_num (k : string) (v : value) :
  tag_ok k = true ->
  (isNumber v = true -> integer_led (ToString v) = true) ->
  reads (RCat (RPlus (RChar is_space)) (RGroup 2 re_integer))
        (fun m out => obj_set out (ToString (group 1 m))
                              (VNum (parseInt (ToString (group 2 m)))))
        (fun e => entry_text (fst e) (feature_text (snd e)))
        (fun e => if isNumber (snd e)
                  then Some (fst e, VNum (parseInt (ToString (snd e)))) else None)
        (k, v).
Proof.
  intros Hk Hnum rest Hrest. cbn [fst snd]. unfold feature_text.
  destruct (isNumber v) eqn:Hv.
  - destruct (integer_led_inv _ (Hnum eq_refl))
      as [sgn [ip [tail [Ht [Hs [Hne [Hip [Htail Hq]]]]]]]].
    rewrite Ht.
    replace (sgn +:+ ip +:+ tail) with ((sgn +:+ ip) +:+ tail)
      by (apply append_assoc).
    rewrite entry_text_split.
    exists [(2, sgn +:+ ip); (1, k)], tail. split; [| split; [exact Hq |]].
    + apply exec_hit. apply num_entry_match; try assumption.
      apply starts_without_app; [exact Htail |].
      apply sep_or_end_start; [reflexivity | exact Hrest].
    + intros o. cbn [group cap Nat.eqb ToString].
      rewrite (parseInt_prefix sgn ip tail Hs Hne Hip Htail), append_assoc. reflexivity.
  - apply (exec_entry_miss (RCat (RPlus (RChar is_space)) (RGroup 2 re_integer))).
    + apply tag_ok_inv in Hk. apply Hk.
    + destruct (truthy v); reflexivity.
    + apply num_entry_miss; [exact Hk |]. destruct (truthy v); [left | right]; reflexivity.
Qed.

Lemma reads_flag (k : string) (v : value) :
  tag_ok k = true ->
  (isNumber v = true -> integer_led (ToString v) = true) ->
  reads (RCat (RPlus (RChar is_space)) (RGroup 2 re_on_off))
        (fun m out => obj_set out (ToString (group 1 m))
                              (VNum (if String.eqb (ToString (group 2 m)) "on"
                                     then num_of_Z 1 else num_of_Z 0)))
        (fun e => entry_text (fst e) (feature_text (snd e)))
        (fun e => if isNumber (snd e) then None
                  else Some (fst e, VNum (if truthy (snd e) then num_of_Z 1 else num_of_Z 0)))
        (k, v).
Proof.
  intros Hk Hnum rest Hrest. cbn [fst snd]. unfold feature_text.
  destruct (isNumber v) eqn:Hv.
  - destruct (integer_led_inv _ (Hnum eq_refl))
      as [sgn [ip [tail [Ht [Hs [Hne [Hip [Htail Hq]]]]]]]].
    rewrite Ht.
    apply (exec_entry_miss (RCat (RPlus (RChar is_space)) (RGroup 2 re_on_off))).
    + apply tag_ok_inv in Hk. apply Hk.
    + apply integer_led_no_dquote; assumption.
    + apply flag_entry_miss; assumption.
  - exists [(2, if truthy v then "on" else "off"); (1, k)], "".
    split; [| split; [reflexivity |]].
    + apply exec_hit. apply flag_entry_match; [exact Hk |].
      destruct (truthy v); [left | right]; reflexivity.
    + intros o. cbn [group cap Nat.eqb ToString]. destruct (truthy v); reflexivity.
Qed.

Lemma in_updates_of {E : Type} (upd : E -> option (string * value)) (es : list E)
      (e : E) (u : string * value) :
  In e es -> upd e = Some u -> In u (updates_of upd es).
Proof.
  intros He Hu. unfold updates_of. apply in_flat_map. exists e. split; [exact He |].
  rewrite Hu. left. reflexivity.
Qed.

(** Two loops that share the entries between them assign every key once. *)
Lemma keys_partition {E : Type} (key : E -> string)
      (upd1 upd2 : E -> option (string * value)) (es : list E) :
  (forall e, (exists u, upd1 e = Some u /\ fst u = key e /\ upd2 e = None) \/
             (exists u, upd2 e = Some u /\ fst u = key e /\ upd1 e = None)) ->
  Permutation (map fst (updates_of upd1 es ++ updates_of upd2 es)%list) (map key es).
Proof.
  intros Hsplit. induction es as [| e es IH]; [apply perm_nil |].
  unfold updates_of in *. cbn [flat_map map].
  destruct (Hsplit e) as [[u [-> [Hk ->]]] | [u [-> [Hk ->]]]]; cbn [app].
  - cbn [map]. rewrite Hk. apply perm_skip. exact IH.
  - rewrite List.map_app. cbn [map]. rewrite Hk.
    eapply perm_trans; [apply Permutation_sym, Permutation_middle |].
    apply perm_skip. rewrite <- List.map_app. exact IH.
Qed.

(** What [parseFeatures] reads back from the text of [featuresToString]:
    the assignments of the numeric loop, then those of the flag loop. *)
Lemma parseFeatures_featuresToString (features : obj) :
  (forall k v, In (k, v) features -> nullish v = false ->
               tag_ok k = true /\ (isNumber v = true -> integer_led (ToString v) = true)) ->
  parseFeatures (featuresToString (Some features))
  = Some (set_all
            (updates_of (fun e => if isNumber (snd e)
                                  then Some (fst e, VNum (parseInt (ToString (snd e))))
                                  else None) (non_null features)
             ++ updates_of (fun e => if isNumber (snd e) then None
                                     else Some (fst e, VNum (if truthy (snd e)
                                                             then num_of_Z 1 else num_of_Z 0)))
                           (non_null features))%list []).
Proof.
  intros Hok. unfold featuresToString, parseFeatures. rewrite feature_parts_entries.
  destruct (non_null features) as [| e es] eqn:Hes; [reflexivity |].
  rewrite join_entries_not_empty by (intros e'; eexists; eexists; reflexivity).
  assert (Hfuel : length (e :: es)
                  < S (String.length
                         (join ", " (map (fun e0 => entry_text (fst e0) (feature_text (snd e0)))
                                         (e :: es))))).
  { apply Nat.lt_succ_r.
    rewrite <- (length_map (fun e0 => entry_text (fst e0) (feature_text (snd e0)))).
    apply join_length. apply List.Forall_forall. intros x Hx.
    apply in_map_iff in Hx. destruct Hx as [e' [<- _]]. apply entry_text_not_empty. }
  assert (Hentries : forall k v, In (k, v) (e :: es) ->
                       tag_ok k = true /\
                       (isNumber v = true -> integer_led (ToString v) = true)).
  { intros k v Hin. rewrite <- Hes in Hin. apply non_null_In in Hin.
    apply (Hok k v); apply Hin. }
  assert (Hnum : forall e0, In e0 (e :: es) ->
                   reads (RCat (RPlus (RChar is_space)) (RGroup 2 re_integer))
                         (fun m out => obj_set out (ToString (group 1 m))
                                               (VNum (parseInt (ToString (group 2 m)))))
                         (fun e1 => entry_text (fst e1) (feature_text (snd e1)))
                         (fun e1 => if isNumber (snd e1)
                                    then Some (fst e1, VNum (parseInt (ToString (snd e1))))
                                    else None) e0).
  { intros [k v] Hin. apply reads_num; apply (Hentries k v Hin). }
  assert (Hflag : forall e0, In e0 (e :: es) ->
                    reads (RCat (RPlus (RChar is_space)) (RGroup 2 re_on_off))
                          (fun m out => obj_set out (ToString (group 1 m))
                                          (VNum (if String.eqb (ToString (group 2 m)) "on"
                                                 then num_of_Z 1 else num_of_Z 0)))
                          (fun e1 => entry_text (fst e1) (feature_text (snd e1)))
                          (fun e1 => if isNumber (snd e1) then None
                                     else Some (fst e1,
                                                VNum (if truthy (snd e1)
                                                      then num_of_Z 1 else num_of_Z 0))) e0).
  { intros [k v] Hin. apply reads_flag; apply (Hentries k v Hin). }
  unfold re_num, re_flag.
  rewrite (exec_loop_entries _ _ _ _ (e :: es) Hnum _ [] Hfuel).
  rewrite (exec_loop_entries _ _ _ _ (e :: es) Hflag _ _ Hfuel).
  rewrite set_all_app. reflexivity.
Qed.

(** *** The text of a finite number *)

Lemma uint_digits (d : Decimal.uint) :
  str_forall is_digit (NilEmpty.string_of_uint d) = true.
Proof. induction d; simpl; try reflexivity; exact IHd. Qed.

Lemma digits_of_N_digits (n : N) :
  str_forall is_digit (digits_of_N n) = true /\ digits_of_N n <> "".
Proof.
  unfold digits_of_N, NilZero.string_of_uint.
  destruct (N.to_uint n) eqn:E; try (split; [reflexivity | discriminate]);
    (split; [apply (uint_digits (_ u)) | discriminate]).
Qed.

Lemma no_dquote_substring (s : string) :
  no_dquote s = true -> forall i j, no_dquote (substring i j s) = true.
Proof.
  unfold no_dquote. induction s as [| a s IH]; intros Hs i j.
  - destruct i, j; reflexivity.
  - cbn [str_forall] in Hs. apply andb_true_iff in Hs. destruct Hs as [Ha Hs].
    destruct i as [| i]; [destruct j as [| j]; [reflexivity |] |].
    + cbn [substring str_forall]. rewrite Ha. apply (IH Hs 0 j).
    + cbn [substring]. apply (IH Hs i j).
Qed.

Lemma no_dquote_zeros (n : nat) : no_dquote (zeros n) = true.
Proof. induction n as [| n IH]; [reflexivity | exact IH]. Qed.

Lemma format_digits_no_dquote (ds : string) (k n : Z) :
  no_dquote ds = true -> no_dquote (format_digits ds k n) = true.
Proof.
  intros Hds. unfold format_digits.
  destruct ((-5 <=? n)%Z && (n <=? 21)%Z); [destruct (k <=? n)%Z; [| destruct (0 <? n)%Z] |].
  - apply no_dquote_app; [exact Hds | apply no_dquote_zeros].
  - apply no_dquote_app; [apply no_dquote_substring; exact Hds |].
    apply no_dquote_app; [reflexivity | apply no_dquote_substring; exact Hds].
  - apply no_dquote_app; [reflexivity |].
    apply no_dquote_app; [apply no_dquote_zeros | exact Hds].
  - apply no_dquote_app.
    + destruct (k =? 1)%Z; [exact Hds |].
      apply no_dquote_app; [apply no_dquote_substring; exact Hds |].
      apply no_dquote_app; [reflexivity | apply no_dquote_substring; exact Hds].
    + apply no_dquote_app; [reflexivity |].
      apply no_dquote_app; [destruct (n - 1 <? 0)%Z; reflexivity |].
      apply digits_no_dquote. apply digits_of_N_digits.
Qed.

Lemma format_digits_start (a : ascii) (ds : string) (k n : Z) :
  is_digit a = true ->
  exists (b : ascii) (rest : string),
    format_digits (String a ds) k n = String b rest /\ is_digit b = true.
Proof.
  intros Ha. unfold format_digits.
  destruct ((-5 <=? n)%Z && (n <=? 21)%Z);
    [destruct (k <=? n)%Z; [| destruct (Z.ltb_spec 0 n)] |].
  - rewrite append_cons. eexists; eexists; split; [reflexivity | exact Ha].
  - destruct (Z.to_nat n) as [| m] eqn:E; [lia |].
    cbn [substring]. rewrite append_cons. eexists; eexists; split; [reflexivity | exact Ha].
  - eexists; eexists; split; [reflexivity | reflexivity].
  - destruct (k =? 1)%Z.
    + rewrite append_cons. eexists; eexists; split; [reflexivity | exact Ha].
    + cbn [substring]. rewrite !append_cons. eexists; eexists; split; [reflexivity | exact Ha].
Qed.

(** The text of a finite number begins with an integer. *)
Lemma finite_integer_led (v : value) :
  isNumber v = true -> not_infinite v = true -> integer_led (ToString v) = true.
Proof.
  destruct v as [| | b | x | t | ob]; try discriminate.
  destruct x as [s | s | | s m e]; try discriminate; intros _ _; [reflexivity |].
  cbn [ToString NumberToString].
  destruct (shortest 17 m e (decimal_exponent m e) 1) as [[d k] n].
  destruct (digits_of_N_digits d) as [Hds Hne].
  destruct (digits_of_N d) as [| a ds] eqn:Ed; [contradiction |].
  pose proof Hds as Hd. simpl in Hd. apply andb_true_iff in Hd. destruct Hd as [Ha _].
  destruct (format_digits_start a ds k n Ha) as [b [rest [HF Hb]]].
  pose proof (format_digits_no_dquote (String a ds) k n (digits_no_dquote _ Hds)) as Hq.
  rewrite HF in *.
  assert (Hled : integer_led (String b rest) = true).
  { unfold integer_led. rewrite (digit_not_minus b Hb).
    destruct (span is_digit (String b rest)) as [ip t2] eqn:E.
    destruct (span_spec _ _ _ _ E) as [Hsplit [Hip _]].
    apply andb_true_iff. split.
    - cbn [span] in E. rewrite Hb in E. destruct (span is_digit rest). injection E as <- _.
      reflexivity.
    - rewrite Hsplit in Hq. clear - Hq. induction ip as [| c ip IH]; [exact Hq |].
      apply IH. unfold no_dquote in *. rewrite append_cons in Hq. cbn [str_forall] in Hq.
      apply andb_true_iff in Hq. apply Hq. }
  destruct s; [| rewrite append_nil_l; exact Hled].
  unfold integer_led in *. rewrite append_cons, append_nil_l.
  change (is_char "-" "-") with true. cbv iota.
  rewrite (digit_not_minus b Hb) in Hled. exact Hled.
Qed.

(** What [parseFeatures] reads back from the text of [featuresToString]:
    for a number, the integer that [parseInt] reads from its text. *)
Lemma parseFeatures_reads_back :
  forall features : obj,
    List.NoDup (map fst features) ->
    (forall k v, In (k, v) features -> nullish v = false ->
                 tag_ok k = true /\ not_infinite v = true) ->
    exists out : obj,
      parseFeatures (featuresToString (Some features)) = Some out /\
      length out = length (non_null features) /\
      (forall k v, In (k, v) features -> nullish v = false ->
                   obj_get out k
                   = VNum (if isNumber v then parseInt (ToString v)
                           else if truthy v then num_of_Z 1 else num_of_Z 0)) /\
      (forall k, obj_has out k = true -> exists v, In (k, v) features /\ nullish v = false).
Proof.
  intros features Hnd Hok0.
  assert (Hok : forall k v, In (k, v) features -> nullish v = false ->
                  tag_ok k = true /\
                  (isNumber v = true -> integer_led (ToString v) = true)).
  { intros k v Hin Hv. destruct (Hok0 k v Hin Hv) as [Hk Hfin].
    split; [exact Hk |]. intros Hnum. apply finite_integer_led; assumption. }
  set (upd1 := fun e : string * value =>
                 if isNumber (snd e)
                 then Some (fst e, VNum (parseInt (ToString (snd e)))) else None).
  set (upd2 := fun e : string * value =>
                 if isNumber (snd e) then None
                 else Some (fst e, VNum (if truthy (snd e) then num_of_Z 1 else num_of_Z 0))).
  set (es := non_null features).
  assert (Hperm : Permutation (map fst (updates_of upd1 es ++ updates_of upd2 es)%list)
                              (map fst es)).
  { apply keys_partition. intros e. unfold upd1, upd2.
    destruct (isNumber (snd e)); [left | right]; eexists; repeat split. }
  assert (Hnd' : List.NoDup (map fst (updates_of upd1 es ++ updates_of upd2 es)%list)).
  { eapply Permutation_NoDup; [apply Permutation_sym; exact Hperm |].
    apply NoDup_keys_filter. exact Hnd. }
  assert (Htags : forall k, In k (map fst (updates_of upd1 es ++ updates_of upd2 es)%list) ->
                            k <> "__proto__").
  { intros k Hk. apply (Permutation_in _ Hperm) in Hk.
    apply in_map_iff in Hk. destruct Hk as [[k' v] [<- Hin]].
    apply non_null_In in Hin. apply tag_not_proto. apply (Hok0 k' v); apply Hin. }
  exists (set_all (updates_of upd1 es ++ updates_of upd2 es)%list []).
  split; [apply parseFeatures_featuresToString; exact Hok |]. split; [| split].
  - rewrite length_set_all; [| exact Hnd' |].
    + cbn [length Nat.add].
      rewrite <- (length_map fst (updates_of upd1 es ++ updates_of upd2 es)%list).
      rewrite (Permutation_length Hperm), length_map. reflexivity.
    + intros k Hk. split; [apply Htags; exact Hk | reflexivity].
  - intros k v Hin Hv. apply obj_get_set_all; [exact Hnd' | |].
    + assert (Hes : In (k, v) es) by (apply non_null_In; split; assumption).
      apply in_or_app. destruct (isNumber v) eqn:Hnum.
      * left. apply (in_updates_of upd1 es (k, v)); [exact Hes |].
        unfold upd1. cbn [fst snd]. rewrite Hnum. reflexivity.
      * right. apply (in_updates_of upd2 es (k, v)); [exact Hes |].
        unfold upd2. cbn [fst snd]. rewrite Hnum. reflexivity.
    + apply tag_not_proto. apply (Hok0 k v Hin Hv).
  - intros k Hhas. apply obj_has_set_all in Hhas. destruct Hhas as [Hhas | Hin]; [discriminate |].
    apply (Permutation_in _ Hperm) in Hin. apply in_map_iff in Hin as [[k' v] [Hk Hin]].
    cbn [fst] in Hk. subst k'. exists v. apply non_null_In. exact Hin.
Qed.

(** *** The integer part of a plain decimal *)

Lemma span_all (p : ascii -> bool) (s : string) :
  str_forall p s = true -> span p s = (s, "").
Proof.
  intros H. rewrite <- (append_nil_r s) at 1. apply span_app; [exact H | exact I].
Qed.

Lemma digits_value_from_app (a b : string) :
  forall acc : N,
    digits_value_from acc (a +:+ b) = digits_value_from (digits_value_from acc a) b.
Proof.
  induction a as [| c a IH]; intros acc; [reflexivity |].
  rewrite append_cons. cbn [digits_value_from]. apply IH.
Qed.

Lemma digits_value_from_acc (b : string) :
  forall acc : N,
    str_forall is_digit b = true ->
    exists r : N,
      (r < 10 ^ N.of_nat (String.length b))%N /\
      digits_value_from acc b = (acc * 10 ^ N.of_nat (String.length b) + r)%N.
Proof.
  induction b as [| c b IH]; intros acc Hb.
  - exists 0%N. cbn [digits_value_from String.length]. split; [reflexivity | simpl; lia].
  - cbn [str_forall] in Hb. apply andb_true_iff in Hb. destruct Hb as [Hc Hb].
    cbn [digits_value_from String.length].
    destruct (IH (10 * acc + N.of_nat (code c - 48))%N Hb) as (r & Hr & ->).
    assert (Hd : (N.of_nat (code c - 48) <= 9)%N).
    { unfold is_digit in Hc. apply andb_true_iff in Hc. destruct Hc as [_ Hc].
      apply Nat.leb_le in Hc. lia. }
    rewrite Nat2N.inj_succ, N.pow_succ_r'.
    set (P := (10 ^ N.of_nat (String.length b))%N) in *.
    exists (N.of_nat (code c - 48) * P + r)%N. split; nia.
Qed.

(** The digits before the point are the integer part of the digits and
    the fraction together. *)
Lemma digits_value_integer_part (ip fp : string) :
  str_forall is_digit fp = true ->
  (Z.of_N (digits_value (ip +:+ fp)) / 10 ^ Z.of_nat (String.length fp))%Z
  = Z.of_N (digits_value ip).
Proof.
  intros Hfp. unfold digits_value. rewrite digits_value_from_app.
  destruct (digits_value_from_acc fp (digits_value_from 0 ip) Hfp) as (r & Hr & ->).
  assert (Hz : (10 ^ Z.of_nat (String.length fp))%Z
               = Z.of_N (10 ^ N.of_nat (String.length fp)))
    by (rewrite N2Z.inj_pow, nat_N_Z; reflexivity).
  rewrite Hz, <- N2Z.inj_div. f_equal.
  assert (Hpos : (10 ^ N.of_nat (String.length fp) <> 0)%N) by (apply N.pow_nonzero; lia).
  rewrite (N.div_add_l _ _ _ Hpos), (N.div_small _ _ Hr). lia.
Qed.

(** On a plain decimal the integer part is what [parseInt] reads. *)
Lemma integer_part_plain (t : string) :
  plain_decimal t = true -> integer_part t = parseInt t.
Proof.
  unfold plain_decimal. intros Hplain.
  set (t1 := match t with
             | String a t' => if is_char "-" a then t' else t
             | EmptyString => t
             end) in Hplain.
  destruct (span is_digit t1) as [ip t2] eqn:Espan.
  apply andb_true_iff in Hplain. destruct Hplain as [Hip Htail].
  apply negb_true_iff in Hip.
  destruct (span_spec _ _ _ _ Espan) as (Ht1 & Hdigits & _).
  destruct ip as [| d ip]; [discriminate Hip |].
  cbn [str_forall] in Hdigits. apply andb_true_iff in Hdigits. destruct Hdigits as [Hd Hdigits].
  assert (Hstart : exists neg, read_sign (drop_while is_space t) = (neg, t1)).
  { destruct t as [| a t'].
    - subst t1. discriminate Ht1.
    - destruct (is_char "-" a) eqn:Ha.
      + exists true. unfold is_char in Ha.
        destruct (Ascii.eqb_spec "-"%char a) as [<- | ]; [| discriminate Ha].
        reflexivity.
      + exists false. subst t1. rewrite append_cons in Ht1. injection Ht1 as -> _.
        cbn [drop_while]. rewrite (digit_not_space d Hd). cbn [read_sign].
        rewrite Ha.
        assert (Hplus : is_char "+" d = false)
          by (clear - Hd; destruct d as [[] [] [] [] [] [] [] []]; vm_compute in *; congruence).
        rewrite Hplus. reflexivity. }
  destruct Hstart as [neg Hstart].
  unfold integer_part, parseInt. rewrite Hstart, Espan.
  assert (Hinf : String.prefix "Infinity" t1 = false).
  { rewrite Ht1, append_cons. cbn [String.prefix].
    destruct (ascii_dec "I" d) as [<- |]; [discriminate Hd | reflexivity]. }
  rewrite Hinf.
  destruct t2 as [| a fd].
  - cbn [String.length]. rewrite append_nil_r. cbn [read_exponent].
    change (0 - Z.of_nat 0)%Z with 0%Z. cbv iota.
    change (0 <=? 0)%Z with true. cbv iota.
    rewrite Z.pow_0_r, Z.mul_1_r, N2Z.id. reflexivity.
  - apply andb_true_iff in Htail. destruct Htail as [Htail Hfd].
    apply andb_true_iff in Htail. destruct Htail as [Hdot Hne].
    rewrite Hdot, (span_all _ _ Hfd). cbn [read_exponent].
    apply negb_true_iff in Hne.
    destruct fd as [| f fd]; [discriminate Hne |].
    set (fp := String f fd) in *.
    assert (Hlen : (0 - Z.of_nat (String.length fp) < 0)%Z) by (subst fp; simpl; lia).
    destruct (Z.leb_spec 0 (0 - Z.of_nat (String.length fp))) as [Hge | _]; [lia |].
    replace (- (0 - Z.of_nat (String.length fp)))%Z with (Z.of_nat (String.length fp)) by lia.
    rewrite (digits_value_integer_part _ _ Hfd), N2Z.id. reflexivity.
Qed.

Lemma plain_not_infinite (v : value) :
  (isNumber v = true -> plain_decimal (ToString v) = true) -> not_infinite v = true.
Proof.
  destruct v as [| | b | x | t | ob]; try reflexivity.
  destruct x as [s | s | | s m e]; try reflexivity.
  intros H. specialize (H eq_refl). destruct s; discriminate H.
Qed.

(** *** The integers of at most three digits *)

Lemma number_eqb_eq (x y : number) : number_eqb x y = true -> x = y.
Proof.
  destruct x as [a | a | | a m e], y as [b | b | | b m' e']; simpl; try discriminate.
  - intros H. apply Bool.eqb_prop in H. subst. reflexivity.
  - intros H. apply Bool.eqb_prop in H. subst. reflexivity.
  - reflexivity.
  - intros H. apply andb_true_iff in H. destruct H as [H He].
    apply andb_true_iff in H. destruct H as [Ha Hm].
    apply Bool.eqb_prop in Ha. apply Pos.eqb_eq in Hm. apply Z.eqb_eq in He.
    subst. reflexivity.
Qed.

Lemma all_from_spec (p : Z -> bool) (n : nat) :
  forall z : Z, all_from p z n = true ->
                forall i : Z, (z <= i < z + Z.of_nat n)%Z -> p i = true.
Proof.
  induction n as [| n IH]; intros z Hall i Hi; [lia |].
  cbn [all_from] in Hall. apply andb_true_iff in Hall. destruct Hall as [Hz Hall].
  destruct (Z.eq_dec i z) as [-> | Hne]; [exact Hz |].
  apply (IH (z + 1)%Z Hall). lia.
Qed.

Lemma all_between_spec (p : Z -> bool) (lo hi : Z) :
  all_between p lo hi = true -> forall i : Z, (lo <= i <= hi)%Z -> p i = true.
Proof.
  unfold all_between. intros Hall i Hi. apply (all_from_spec _ _ _ Hall). lia.
Qed.

(** By computation on each of them. *)
Lemma small_integers_recovered : all_between integer_recovered (-999) 999 = true.
Proof. vm_compute. reflexivity. Qed.

(** A small integer is written as a plain decimal, and [parseInt] reads
    it back. *)
Lemma small_integer_recovered (v : value) :
  small_integer v ->
  isNumber v = true /\ not_infinite v = true /\
  parseInt (ToString v) = number_of v /\ plain_decimal (ToString v) = true.
Proof.
  intros [z [Hz ->]].
  assert (Hr : integer_recovered z = true)
    by (apply (all_between_spec _ _ _ small_integers_recovered); exact Hz).
  unfold integer_recovered in Hr. cbv zeta in Hr.
  apply andb_true_iff in Hr. destruct Hr as [Hr Hint].
  apply andb_true_iff in Hr. destruct Hr as [Hnum Hplain].
  cbn [ToString number_of]. split; [exact Hnum |].
  split; [apply plain_not_infinite; intros _; exact Hplain |].
  split; [apply number_eqb_eq; exact Hint | exact Hplain].
Qed.

(** C2, as the code has it.  For a feature map whose entries with a value
    have tags of three or four letters or digits and whose numbers are
    written as plain decimals (an optional minus, digits, an optional
    fraction), [parseFeatures] reads back as many entries as were written:
    a number as the integer part of the decimal written for it, any other
    value as 1 when truthy and 0 when falsy.  An integer of at most three
    digits comes back as itself. *)
Theorem features_round_trip :
  forall features : obj,
    List.NoDup (map fst features) ->
    (forall k v, In (k, v) features -> nullish v = false ->
                 tag_ok k = true /\
                 (isNumber v = true -> plain_decimal (ToString v) = true)) ->
    features_round_trip_at features /\
    (forall out : obj,
        parseFeatures (featuresToString (Some features)) = Some out ->
        forall k v, In (k, v) features -> small_integer v -> obj_get out k = v).
Proof.
  intros features Hnd Hok.
  destruct (parseFeatures_reads_back features Hnd) as (out & Hout & Hlen & Hget & _).
  { intros k v Hin Hv. destruct (Hok k v Hin Hv) as [Hk Hplain].
    split; [exact Hk | apply plain_not_infinite; exact Hplain]. }
  split.
  - exists out. split; [exact Hout |]. split; [exact Hlen |].
    intros k v Hin Hv. rewrite (Hget k v Hin Hv).
    destruct (Hok k v Hin Hv) as [_ Hplain].
    destruct (isNumber v) eqn:Hnum; [| reflexivity].
    rewrite (integer_part_plain _ (Hplain eq_refl)). reflexivity.
  - intros out' Hout' k v Hin Hsmall. rewrite Hout in Hout'. injection Hout' as <-.
    destruct (small_integer_recovered v Hsmall) as (Hnum & _ & Hint & _).
    assert (Hv : nullish v = false) by (destruct Hsmall as [z [_ ->]]; reflexivity).
    rewrite (Hget k v Hin Hv), Hnum, Hint. destruct Hsmall as [z [_ ->]]. reflexivity.
Qed.

(** The features of the usage example, a character variant, a value with
    a fraction, features given as booleans and a feature without a
    value. *)
Lemma features_round_trip_witness :
  features_round_trip_at [("liga", num "1"); ("kern", num "1"); ("ss01", num "1");
                          ("cv01", num "12"); ("cv02", num "2.5"); ("calt", VBool true);
                          ("dlig", VBool false); ("zero", VNull)].
Proof.
  refine (proj1 (features_round_trip _ _ _)).
  - repeat constructor; simpl; intuition discriminate.
  - intros k v Hin Hv. simpl in Hin.
    destruct Hin as [H | [H | [H | [H | [H | [H | [H | [H | []]]]]]]]]; injection H as <- <-;
      try discriminate Hv; (split; [reflexivity |]); intros Hnum; try discriminate Hnum;
      vm_compute; reflexivity.
Defined.

(** A tag of seven letters is written and not read back; nor is a feature
    whose value is infinite; and of a number written with an exponent the
    first digits are read back: 1 for [1e21], 5 for [5e-7]. *)
Lemma features_round_trip_counterexample :
  ~ features_round_trip_at [("kerning", VBool true)] /\
  ~ features_round_trip_at [("liga", VNum (S754_infinity false))] /\
  (parseFeatures (featuresToString (Some [("cv01", num "1e21")]))
   = Some [("cv01", VNum (num_of_Z 1))] /\
   ~ features_round_trip_at [("cv01", num "1e21")]) /\
  (parseFeatures (featuresToString (Some [("cv02", num "5e-7")]))
   = Some [("cv02", VNum (num_of_Z 5))] /\
   ~ features_round_trip_at [("cv02", num "5e-7")]).
Proof.
  split; [| split; [| split; split]].
  - intros [out [Hout [Hlen _]]]. vm_compute in Hout. injection Hout as <-.
    discriminate Hlen.
  - intros [out [Hout [Hlen _]]]. vm_compute in Hout. injection Hout as <-.
    discriminate Hlen.
  - vm_compute. reflexivity.
  - intros [out [Hout [_ Hget]]]. vm_compute in Hout. injection Hout as <-.
    specialize (Hget "cv01" (num "1e21") (or_introl eq_refl) eq_refl).
    vm_compute in Hget. discriminate Hget.
  - vm_compute. reflexivity.
  - intros [out [Hout [_ Hget]]]. vm_compute in Hout. injection Hout as <-.
    specialize (Hget "cv02" (num "5e-7") (or_introl eq_refl) eq_refl).
    vm_compute in Hget. discriminate Hget.
Qed.

(** ** [setAxis] and [getAxis] *)

Lemma obj_has_In (o : obj) (k : string) :
  obj_has o k = true <-> In k (map fst o).
Proof.
  induction o as [| [k0 v0] o IH]; [split; [discriminate | intros []] |].
  cbn [obj_has map fst]. rewrite orb_true_iff, IH, String.eqb_eq. split.
  - intros [-> | H]; [left | right]; [reflexivity | exact H].
  - intros [-> | H]; [left | right]; [reflexivity | exact H].
Qed.

Lemma obj_replace_In (o : obj) (k : string) (v : value) (k' : string) (v' : value) :
  List.NoDup (map fst o) ->
  In (k', v') (obj_replace o k v) ->
  (k' = k /\ v' = v) \/ (k' <> k /\ In (k', v') o).
Proof.
  induction o as [| [k0 v0] o IH]; intros Hnd Hin; [destruct Hin |].
  cbn [map fst] in Hnd. apply List.NoDup_cons_iff in Hnd. destruct Hnd as [Hk0 Hnd].
  cbn [obj_replace] in Hin. destruct (String.eqb_spec k0 k) as [-> | Hne].
  - destruct Hin as [Heq | Hin]; [injection Heq as <- <-; left; split; reflexivity |].
    right. split; [| right; exact Hin]. intros ->. apply Hk0.
    apply in_map_iff. exists (k, v'). split; [reflexivity | exact Hin].
  - destruct Hin as [Heq | Hin].
    + injection Heq as <- <-. right. split; [exact Hne | left; reflexivity].
    + destruct (IH Hnd Hin) as [H | [H1 H2]]; [left; exact H | right].
      split; [exact H1 | right; exact H2].
Qed.

Lemma obj_insert_index_In (o : obj) (i : N) (k : string) (v : value) (e : string * value) :
  In e (obj_insert_index o i k v) <-> e = (k, v) \/ In e o.
Proof.
  induction o as [| [k0 v0] o IH]; [simpl; intuition congruence |].
  cbn [obj_insert_index].
  destruct (array_index k0) as [j |]; [destruct (j <? i)%N |]; cbn [In];
    rewrite ?IH; intuition congruence.
Qed.

(** The entries after [o[k] = v]: the new one, and the others as they
    were. *)
Lemma obj_set_In (o : obj) (k : string) (v : value) (k' : string) (v' : value) :
  k <> "__proto__" ->
  List.NoDup (map fst o) ->
  In (k', v') (obj_set o k v) ->
  (k' = k /\ v' = v) \/ (k' <> k /\ In (k', v') o).
Proof.
  intros Hp Hnd. rewrite (obj_set_own _ _ _ Hp). destruct (obj_has o k) eqn:Hhas.
  - apply obj_replace_In. exact Hnd.
  - assert (Hfresh : In (k', v') o -> k' <> k).
    { intros Hin ->. assert (H : obj_has o k = true)
        by (apply obj_has_In, in_map_iff; exists (k, v'); split; [reflexivity | exact Hin]).
      congruence. }
    destruct (array_index k) as [i |].
    + rewrite obj_insert_index_In. intros [Heq | Hin].
      * injection Heq as -> ->. left. split; reflexivity.
      * right. split; [apply Hfresh; exact Hin | exact Hin].
    + rewrite in_app_iff. intros [Hin | [Heq | []]].
      * right. split; [apply Hfresh; exact Hin | exact Hin].
      * injection Heq as -> ->. left. split; reflexivity.
Qed.

Lemma obj_set_keys (o : obj) (k : string) (v : value) :
  List.NoDup (map fst o) -> List.NoDup (map fst (obj_set o k v)).
Proof.
  intros Hnd. unfold obj_set. destruct (String.eqb k "__proto__"); [exact Hnd |].
  destruct (obj_has o k) eqn:Hhas.
  - clear Hhas. induction o as [| [k0 v0] o IH]; [constructor |].
    cbn [map fst] in Hnd. apply List.NoDup_cons_iff in Hnd. destruct Hnd as [Hk0 Hnd].
    cbn [obj_replace]. destruct (String.eqb k0 k); cbn [map fst].
    + constructor; assumption.
    + constructor; [| apply IH; exact Hnd].
      intros Hin. apply Hk0. apply obj_has_In. apply obj_has_In in Hin.
      rewrite obj_has_replace in Hin. exact Hin.
  - assert (Hk : ~ In k (map fst o)).
    { intros Hin. apply obj_has_In in Hin. congruence. }
    destruct (array_index k) as [i |].
    + clear Hhas. induction o as [| [k0 v0] o IH]; [repeat constructor; intros [] |].
      cbn [map fst] in Hnd, Hk. apply List.NoDup_cons_iff in Hnd. destruct Hnd as [Hk0 Hnd].
      cbn [obj_insert_index].
      assert (Hall : List.NoDup (k :: k0 :: map fst o)).
      { constructor; [exact Hk |]. constructor; assumption. }
      destruct (array_index k0) as [j |]; [destruct (j <? i)%N |]; cbn [map fst];
        try exact Hall.
      constructor.
      * intros Hin. apply obj_has_In in Hin. rewrite obj_has_insert_index in Hin.
        apply orb_true_iff in Hin. destruct Hin as [Hin | Hin].
        -- apply String.eqb_eq in Hin. apply Hk. left. symmetry. exact Hin.
        -- apply Hk0. apply obj_has_In. exact Hin.
      * apply IH; [exact Hnd |]. intros Hin. apply Hk. right. exact Hin.
    + rewrite List.map_app. cbn [map fst].
      eapply Permutation_NoDup; [apply Permutation_cons_append |].
      constructor; assumption.
Qed.

(** What does hold of [setAxis] and [getAxis]: when the new value and the
    axes already there are written as plain decimals, the axis set reads
    as the parsed float of its text, and the other axes likewise. *)
Lemma setAxis_getAxis_plain (el : Element) (current : obj) (tag : string) (v : value) :
  parseAxis (fontVariationSettings el) = Some current ->
  List.NoDup (map fst current) ->
  tag_ok tag = true -> nullish v = false -> plain_decimal (axis_text v) = true ->
  (forall k v', In (k, v') current -> k <> tag ->
                nullish v' = false /\ tag_ok k = true /\ plain_decimal (axis_text v') = true) ->
  exists el' : Element,
    setAxis el tag v = Some el' /\
    getAxis el' tag = Some (VNum (parseFloat (axis_text v))) /\
    forall k v', In (k, v') current -> k <> tag ->
                 getAxis el' k = Some (VNum (parseFloat (axis_text v'))).
Proof.
  intros Hcur Hnd Htag Hv Hplain Hothers.
  unfold setAxis. rewrite Hcur. eexists. split; [reflexivity |].
  unfold getAxis. cbn [fontVariationSettings].
  destruct (parseAxis_reads_back (obj_set current tag v) (obj_set_keys _ _ _ Hnd))
    as [out [Hout [_ [Hget _]]]].
  - intros k v' Hin Hv'.
    destruct (obj_set_In _ _ _ _ _ (tag_not_proto _ Htag) Hnd Hin) as [[-> ->] | [Hne Hin']].
    + split; assumption.
    + destruct (Hothers k v' Hin' Hne) as [_ H]. exact H.
  - rewrite Hout. split.
    + rewrite (Hget tag v); [reflexivity | | exact Hv].
      assert (Hin : obj_get (obj_set current tag v) tag = v)
        by (rewrite (obj_get_set _ _ _ _ (tag_not_proto _ Htag)), string_eqb_refl;
            reflexivity).
      clear - Hin Hv Htag. induction (obj_set current tag v) as [| [k0 v0] o IH].
      * simpl in Hin. rewrite (Object_prototype_tag _ Htag) in Hin. subst v. discriminate.
      * cbn [obj_get] in Hin. destruct (String.eqb_spec k0 tag) as [-> | Hne].
        -- subst v0. left. reflexivity.
        -- right. apply IH. exact Hin.
    + intros k v' Hin Hne. destruct (Hothers k v' Hin Hne) as [Hv' [Hk _]].
      rewrite (Hget k v'); [reflexivity | | exact Hv'].
      assert (Hget' : obj_get (obj_set current tag v) k = obj_get current k).
      { rewrite (obj_get_set _ _ _ _ (tag_not_proto _ Htag)).
        destruct (String.eqb_spec tag k); [congruence | reflexivity]. }
      assert (Hcurk : obj_get current k = v').
      { clear - Hin Hnd. induction current as [| [k0 v0] o IH]; [destruct Hin |].
        cbn [map fst] in Hnd. apply List.NoDup_cons_iff in Hnd. destruct Hnd as [Hk0 Hnd].
        cbn [obj_get]. destruct Hin as [Heq | Hin].
        - injection Heq as -> ->. rewrite string_eqb_refl. reflexivity.
        - destruct (String.eqb_spec k0 k) as [-> | _]; [| apply IH; assumption].
          exfalso. apply Hk0. apply in_map_iff. exists (k, v'). split; [reflexivity | exact Hin]. }
      rewrite Hcurk in Hget'. clear - Hget' Hv' Hk.
      induction (obj_set current tag v) as [| [k0 v0] o IH].
      * simpl in Hget'. rewrite (Object_prototype_tag _ Hk) in Hget'. subst v'. discriminate.
      * cbn [obj_get] in Hget'. destruct (String.eqb_spec k0 k) as [-> | Hne].
        -- subst v0. left. reflexivity.
        -- right. apply IH. exact Hget'.
Qed.


(** C9, at two inputs.  A small value is written with an exponent, which
    the pattern of [parseAxis] does not read: after [setAxis(el, 'ital',
    5e-7)], [getAxis(el, 'ital')] is 5.  And an axis that was there at
    0.0000001 is 1 after another axis is set. *)
Theorem setAxis_getAxis_exponent :
  (let el := {| fontVariationSettings := ""; fontFeatureSettings := "" |} in
   exists el' : Element,
     setAxis el "ital" (num "5e-7") = Some el' /\
     fontVariationSettings el' = entry_text "ital" "5e-7" /\
     getAxis el' "ital" = Some (num "5") /\
     num "5" <> num "5e-7") /\
  (let el := {| fontVariationSettings := entry_text "slnt" "0.0000001";
                fontFeatureSettings := "" |} in
   exists el' : Element,
     getAxis el "slnt" = Some (num "0.0000001") /\
     setAxis el "wght" (num "400") = Some el' /\
     fontVariationSettings el' = entry_text "slnt" "1e-7" +:+ ", " +:+ entry_text "wght" "400" /\
     getAxis el' "slnt" = Some (num "1") /\
     num "1" <> num "0.0000001").
Proof.
  split; cbv zeta; eexists; repeat split; try (vm_compute; reflexivity);
    vm_compute; discriminate.
Qed.

(** * The rest of the helpers *)

(** ** [cssEscape] *)

Lemma str_filter_app (p : ascii -> bool) (u v : string) :
  str_filter p (u +:+ v) = str_filter p u +:+ str_filter p v.
Proof.
  induction u as [| a u IH].
  - rewrite !append_nil_l. reflexivity.
  - rewrite append_cons. simpl. destruct (p a).
    + rewrite append_cons, IH. reflexivity.
    + exact IH.
Qed.

Lemma str_filter_all (p : ascii -> bool) (s : string) :
  str_forall p s = true -> str_filter p s = s.
Proof.
  induction s as [| a s IH]; simpl; [reflexivity |].
  intros H. apply andb_true_iff in H as [Ha Hs]. rewrite Ha, (IH Hs). reflexivity.
Qed.

Lemma str_forall_filter (p : ascii -> bool) (s : string) :
  str_forall p (str_filter p s) = true.
Proof.
  induction s as [| a s IH]; simpl; [reflexivity |].
  destruct (p a) eqn:Ha; simpl; [rewrite Ha |]; exact IH.
Qed.

Lemma str_exists_app (p : ascii -> bool) (u v : string) :
  str_exists p (u +:+ v) = str_exists p u || str_exists p v.
Proof.
  induction u as [| a u IH].
  - rewrite append_nil_l. reflexivity.
  - rewrite append_cons. simpl. rewrite IH, orb_assoc. reflexivity.
Qed.

Lemma str_exists_forall (p : ascii -> bool) (s : string) :
  str_exists p s = negb (str_forall (fun a => negb (p a)) s).
Proof.
  induction s as [| a s IH]; simpl; [reflexivity |].
  rewrite IH. destruct (p a); reflexivity.
Qed.

Lemma str_exists_weaken (p q : ascii -> bool) (s : string) :
  (forall a, p a = true -> q a = true) ->
  str_exists q s = false -> str_exists p s = false.
Proof.
  intros Hpq. induction s as [| a s IH]; simpl; [reflexivity |].
  intros H. apply orb_false_iff in H as [Ha Hs].
  rewrite (IH Hs), orb_false_r.
  destruct (p a) eqn:Hp; [| reflexivity]. rewrite (Hpq a Hp) in Ha. discriminate.
Qed.

Lemma dquote_is_quote : is_quote dquote = true.
Proof. reflexivity. Qed.

(** The text between the quotes that [cssEscape] adds, or all of it when
    it adds none: the name without its quote characters. *)
Lemma cssEscape_cases (s : string) :
  let safe := str_filter (fun a => negb (is_quote a)) s in
  str_exists is_quote safe = false /\
  ((str_exists (fun a => is_space a || is_quote a) s = false /\ cssEscape s = s /\ safe = s) \/
   (str_exists (fun a => is_space a || is_quote a) s = true /\
    cssEscape s = String dquote (safe +:+ String dquote ""))).
Proof.
  intros safe. split.
  - rewrite str_exists_forall.
    unfold safe. rewrite (str_forall_filter (fun a => negb (is_quote a))). reflexivity.
  - unfold cssEscape. fold safe.
    destruct (str_exists (fun a => is_space a || is_quote a) s) eqn:Hn.
    + right. split; [reflexivity |]. rewrite append_cons. reflexivity.
    + left. split; [reflexivity |].
      assert (Hs : safe = s).
      { unfold safe. apply str_filter_all.
        assert (Hq : str_exists is_quote s = false).
        { apply (str_exists_weaken _ (fun a => is_space a || is_quote a)); [| exact Hn].
          intros a Ha. rewrite Ha. apply orb_true_r. }
        rewrite str_exists_forall in Hq. apply negb_false_iff in Hq. exact Hq. }
      rewrite Hs. split; reflexivity.
Qed.

(** X1. [cssEscape] is idempotent: escaping a name that is already
    escaped gives the same text. *)
Theorem cssEscape_idempotent :
  forall s : string, cssEscape (cssEscape s) = cssEscape s.
Proof.
  intros s. destruct (cssEscape_cases s) as [Hsafe [[Hn [Hs _]] | [Hn Hs]]].
  - rewrite Hs. exact Hs.
  - rewrite Hs. set (safe := str_filter (fun a => negb (is_quote a)) s) in *.
    unfold cssEscape.
    assert (Hneeds : str_exists (fun a => is_space a || is_quote a)
                                (String dquote (safe +:+ String dquote "")) = true).
    { reflexivity. }
    rewrite Hneeds.
    assert (Hf : str_filter (fun a => negb (is_quote a)) (String dquote (safe +:+ String dquote ""))
                 = safe).
    { change (str_filter (fun a => negb (is_quote a)) (String dquote (safe +:+ String dquote "")))
        with (str_filter (fun a => negb (is_quote a)) (safe +:+ String dquote "")).
      rewrite str_filter_app.
      change (str_filter (fun a => negb (is_quote a)) (String dquote "")) with "".
      rewrite append_nil_r. apply str_filter_all.
      rewrite str_exists_forall in Hsafe. apply negb_false_iff in Hsafe. exact Hsafe. }
    rewrite Hf. rewrite append_cons. reflexivity.
Qed.

(** X2. A name without white space and without quote characters is
    returned as it is.  Any other name comes back between two double
    quote characters, and what is between them is the name without its
    quote characters, so it holds no quote; an escaped name never holds a
    single quote. *)
Theorem cssEscape_quotes_only_around :
  forall s : string,
    (str_exists (fun a => is_space a || is_quote a) s = false -> cssEscape s = s) /\
    (str_exists (fun a => is_space a || is_quote a) s = true ->
     cssEscape s
     = String dquote (str_filter (fun a => negb (is_quote a)) s +:+ String dquote "")) /\
    str_exists is_quote (str_filter (fun a => negb (is_quote a)) s) = false /\
    str_exists (is_char "'") (cssEscape s) = false.
Proof.
  intros s.
  destruct (cssEscape_cases s) as [Hsafe [[Hn [Hs Hsf]] | [Hn Hs]]].
  - split; [intros _; exact Hs |]. split; [intros H; rewrite H in Hn; discriminate |].
    split; [exact Hsafe |].
    rewrite Hs. apply (str_exists_weaken _ (fun a => is_space a || is_quote a)); [| exact Hn].
    intros a Ha. unfold is_char in Ha. apply Ascii.eqb_eq in Ha. subst a. reflexivity.
  - split; [intros H; rewrite H in Hn; discriminate |].
    split; [intros _; exact Hs |]. split; [exact Hsafe |].
    rewrite Hs.
    change (str_exists (is_char "'") (String dquote (str_filter (fun a => negb (is_quote a)) s
                                                       +:+ String dquote "")))
      with (str_exists (is_char "'") (str_filter (fun a => negb (is_quote a)) s
                                        +:+ String dquote "")).
    rewrite str_exists_app.
    change (str_exists (is_char "'") (String dquote "")) with false.
    rewrite orb_false_r.
    apply (str_exists_weaken _ is_quote); [| exact Hsafe].
    intros a Ha. unfold is_char in Ha. apply Ascii.eqb_eq in Ha. subst a. reflexivity.
Qed.

(** ** The registry and [loadFont] *)

Lemma registry_get_set (r : FontRegistry.t) (nm : string) (f : Font) (nm' : string) :
  FontRegistry.get (FontRegistry.set r nm f) nm'
  = if String.eqb nm nm' then Some f else FontRegistry.get r nm'.
Proof.
  induction r as [| [k g] r IH]; cbn [FontRegistry.set FontRegistry.get].
  - destruct (String.eqb nm nm'); reflexivity.
  - destruct (String.eqb_spec k nm) as [-> | Hk]; cbn [FontRegistry.get].
    + destruct (String.eqb nm nm'); reflexivity.
    + rewrite IH. destruct (String.eqb_spec nm nm') as [Heq | Hn]; [| reflexivity].
      destruct (String.eqb_spec k nm'); [congruence | reflexivity].
Qed.

Lemma registry_has_In (r : FontRegistry.t) (nm : string) :
  FontRegistry.has r nm = true <-> In nm (map fst r).
Proof.
  unfold FontRegistry.has. induction r as [| [k g] r IH]; cbn [FontRegistry.get map fst In].
  - split; [discriminate | intros []].
  - destruct (String.eqb_spec k nm) as [-> | Hk].
    + split; [left; reflexivity | reflexivity].
    + rewrite IH. split; [right; assumption | intros [H | H]; [contradiction | exact H]].
Qed.

Lemma registry_set_keys (r : FontRegistry.t) (nm : string) (f : Font) :
  map fst (FontRegistry.set r nm f)
  = if FontRegistry.has r nm then map fst r else (map fst r ++ [nm])%list.
Proof.
  unfold FontRegistry.has.
  induction r as [| [k g] r IH]; cbn [FontRegistry.set FontRegistry.get map fst];
    [reflexivity |].
  destruct (String.eqb_spec k nm) as [-> | Hk]; [reflexivity |].
  cbn [map fst]. rewrite IH.
  destruct (FontRegistry.get r nm); reflexivity.
Qed.

Lemma registry_set_length (r : FontRegistry.t) (nm : string) (f : Font) :
  length (FontRegistry.set r nm f)
  = if FontRegistry.has r nm then length r else S (length r).
Proof.
  unfold FontRegistry.has.
  induction r as [| [k g] r IH]; cbn [FontRegistry.set FontRegistry.get length];
    [reflexivity |].
  destruct (String.eqb_spec k nm) as [-> | Hk]; [reflexivity |].
  cbn [length]. rewrite IH.
  destruct (FontRegistry.get r nm); reflexivity.
Qed.

Lemma registry_set_In (r : FontRegistry.t) (nm : string) (f : Font) (k : string) (g : Font) :
  In (k, g) (FontRegistry.set r nm f) -> (k = nm /\ g = f) \/ In (k, g) r.
Proof.
  induction r as [| [k0 g0] r IH]; cbn [FontRegistry.set].
  - intros [H | []]. injection H as <- <-. left. split; reflexivity.
  - destruct (String.eqb_spec k0 nm) as [-> | Hk].
    + intros [H | H]; [injection H as <- <-; left; split; reflexivity | right; right; exact H].
    + intros [H | H]; [right; left; exact H |].
      destruct (IH H) as [Hl | Hr]; [left; exact Hl | right; right; exact Hr].
Qed.

Lemma registry_get_In (r : FontRegistry.t) (k : string) (f : Font) :
  List.NoDup (map fst r) -> In (k, f) r -> FontRegistry.get r k = Some f.
Proof.
  induction r as [| [k0 g0] r IH]; [intros _ [] |].
  cbn [map fst FontRegistry.get]. intros Hnd Hin.
  apply List.NoDup_cons_iff in Hnd. destruct Hnd as [Hk0 Hnd].
  destruct Hin as [H | H].
  - injection H as -> ->. rewrite string_eqb_refl. reflexivity.
  - destruct (String.eqb_spec k0 k) as [-> | _]; [| apply IH; assumption].
    exfalso. apply Hk0. apply in_map_iff. exists (k, f). split; [reflexivity | exact H].
Qed.

Lemma validated_begin (sff : bool) (desc : FontDescriptor) (fm : FontManager) :
  loadFont_begin sff desc fm
  = match validated desc with
    | Some (nm, srcs) =>
        inr (load_begin sff (normalize fm nm srcs desc) fm, normalize fm nm srcs desc)
    | None => inl invalid_descriptor
    end.
Proof.
  unfold loadFont_begin, validated.
  destruct (desc_name desc) as [nm |]; [| reflexivity].
  destruct (desc_src desc) as [[| s srcs] |]; try reflexivity.
  destruct (String.eqb nm ""); reflexivity.
Qed.

Lemma registry_load_begin (sff : bool) (f : Font) (fm : FontManager) :
  registry (load_begin sff f fm) = registry fm.
Proof. unfold load_begin. destruct sff; reflexivity. Qed.

Lemma registry_load_settle (sff : bool) (o : load_outcome) (f : Font) (fm : FontManager) :
  registry (fst (load_settle sff o f fm)) = registry fm.
Proof. unfold load_settle. destruct sff; [destruct o |]; reflexivity. Qed.

Lemma defaultFallback_load_begin (sff : bool) (f : Font) (fm : FontManager) :
  defaultFallback (load_begin sff f fm) = defaultFallback fm.
Proof. unfold load_begin. destruct sff; reflexivity. Qed.

Lemma defaultFallback_load_settle (sff : bool) (o : load_outcome) (f : Font)
      (fm : FontManager) :
  defaultFallback (fst (load_settle sff o f fm)) = defaultFallback fm.
Proof. unfold load_settle. destruct sff; [destruct o |]; reflexivity. Qed.

Lemma validated_some (desc : FontDescriptor) (nm : string) (srcs : list source) :
  validated desc = Some (nm, srcs) <->
  desc_name desc = Some nm /\ nm <> "" /\ desc_src desc = Some srcs /\ srcs <> [].
Proof.
  unfold validated. destruct (desc_name desc) as [n |]; [| split; [discriminate | intros [H _]; discriminate]].
  destruct (desc_src desc) as [[| s l] |].
  - split; [discriminate | intros (_ & _ & H & Hne)]. injection H as <-. contradiction.
  - destruct (String.eqb_spec n "") as [-> | Hn].
    + split; [discriminate | intros (H & Hne & _)]. injection H as <-. contradiction.
    + split.
      * intros H. injection H as <- <-. repeat split; [exact Hn | discriminate].
      * intros (H1 & _ & H2 & _). injection H1 as <-. injection H2 as <-. reflexivity.
  - split; [discriminate | intros (_ & _ & H & _); discriminate].
Qed.

(** X3. [loadFont] on a descriptor with a name and a source resolves
    whatever the load does, also when it fails or [waitFor] times out: the
    normalized descriptor is in the registry under its name, in place of
    what was there, the other fonts are as they were, and the registry has
    one font more only when the name is new.  The registered font has the
    name, sources, axes and features of the descriptor, its fallback chain
    or else the default one, its languages or else none, and its
    descriptors with the display [swap] when they have no [display], and
    with their own [display] otherwise, [undefined] too. *)
Theorem loadFont_registers_whatever_the_outcome :
  forall (supportsFontFace : bool) (o : load_outcome) (ok : bool) (id : nat)
         (desc : FontDescriptor) (fm : FontManager) (nm : string) (srcs : list source),
    desc_name desc = Some nm -> nm <> "" ->
    desc_src desc = Some srcs -> srcs <> [] ->
    exists (fm' : FontManager) (res : LoadFontResult),
      loadFont supportsFontFace o ok id desc fm = inr (fm', res) /\
      res_name res = nm /\ res_ok res = ok /\
      res_result res = (if supportsFontFace
                        then match o with
                             | LoadFulfilled => Loaded nm
                             | LoadRejected e => Failed e
                             end
                        else Injected) /\
      getFont fm' nm = Some (normalize fm nm srcs desc) /\
      (exists (f : Font) (d : descriptors),
          getFont fm' nm = Some f /\ font_descriptors f = Some d /\
          name f = nm /\ src f = srcs /\
          axes f = desc_axes desc /\ features f = desc_features desc /\
          fallback f = Some (match desc_fallback desc with
                             | Some l => l
                             | None => defaultFallback fm
                             end) /\
          languages f = Some (match desc_languages desc with Some l => l | None => [] end) /\
          let given := match desc_descriptors desc with Some g => g | None => no_fields end in
          d_display d = match own_display given with Some v => v | None => VStr "swap" end /\
          d_style d = match own_style given with Some v => v | None => VUndefined end /\
          d_weight d = match own_weight given with Some v => v | None => VUndefined end /\
          d_stretch d = match own_stretch given with Some v => v | None => VUndefined end /\
          d_unicodeRange d
          = match own_unicodeRange given with Some v => v | None => VUndefined end) /\
      (forall nm', nm' <> nm -> getFont fm' nm' = getFont fm nm') /\
      length (listFonts fm')
      = (if FontRegistry.has (registry fm) nm then length (listFonts fm)
         else S (length (listFonts fm))).
Proof.
  intros sff o ok id desc fm nm srcs Hname Hnm Hsrc Hsrcs.
  assert (Hv : validated desc = Some (nm, srcs))
    by (apply validated_some; repeat split; assumption).
  unfold loadFont. rewrite validated_begin, Hv.
  set (f := normalize fm nm srcs desc).
  destruct (load_settle sff o f (load_begin sff f fm)) as [fm2 result] eqn:Hsettle.
  assert (Hreg : registry fm2 = registry fm).
  { rewrite <- (registry_load_begin sff f fm).
    rewrite <- (registry_load_settle sff o f (load_begin sff f fm)), Hsettle. reflexivity. }
  eexists. eexists. split; [reflexivity |].
  cbn [loadFont_ready res_name res_ok res_result].
  split; [reflexivity |]. split; [reflexivity |]. split.
  { unfold load_settle in Hsettle. destruct sff; [destruct o |];
      injection Hsettle as _ <-; reflexivity. }
  unfold getFont, listFonts, FontRegistry.all.
  cbn [loadFont_loaded emit registry with_registry]. rewrite Hreg.
  change (name f) with nm.
  split; [| split; [| split]].
  - rewrite registry_get_set, string_eqb_refl. reflexivity.
  - exists f. eexists. rewrite registry_get_set, string_eqb_refl.
    split; [reflexivity |]. split; [reflexivity |]. repeat split.
  - intros nm' Hne. rewrite registry_get_set.
    destruct (String.eqb_spec nm nm'); [congruence | reflexivity].
  - rewrite !List.length_map. apply registry_set_length.
Qed.

(** The descriptor of the head of the source, with a load that fails; and
    the same with descriptors that set [display] to [undefined]. *)
Lemma loadFont_registers_whatever_the_outcome_witness :
  (exists (fm' : FontManager) (res : LoadFontResult),
      loadFont true (LoadRejected "NetworkError") false 0 sample_descriptor sample_manager
      = inr (fm', res) /\
      res_result res = Failed "NetworkError" /\
      getFont fm' "Inter"
      = Some (normalize sample_manager "Inter"
                        [{| url := "/fonts/Inter.var.woff2"; format := Some "woff2" |}]
                        sample_descriptor) /\
      exists (f : Font) (d : descriptors),
        getFont fm' "Inter" = Some f /\ font_descriptors f = Some d /\
        d_display d = VStr "swap" /\ d_weight d = VStr "100 900") /\
  (let desc := {| desc_name := Some "Inter";
                  desc_src := Some [{| url := "/fonts/Inter.var.woff2";
                                       format := Some "woff2" |}];
                  desc_descriptors :=
                    Some {| own_style := None; own_weight := None; own_stretch := None;
                            own_display := Some VUndefined; own_unicodeRange := None |};
                  desc_axes := None; desc_features := None; desc_fallback := None;
                  desc_languages := None |} in
   exists (fm' : FontManager) (res : LoadFontResult) (f : Font) (d : descriptors),
     loadFont false LoadFulfilled true 0 desc sample_manager = inr (fm', res) /\
     getFont fm' "Inter" = Some f /\ font_descriptors f = Some d /\
     d_display d = VUndefined).
Proof.
  split.
  - destruct (loadFont_registers_whatever_the_outcome
                true (LoadRejected "NetworkError") false 0 sample_descriptor sample_manager
                "Inter" [{| url := "/fonts/Inter.var.woff2"; format := Some "woff2" |}]
                eq_refl ltac:(discriminate) eq_refl ltac:(discriminate))
      as (fm' & res & H1 & _ & _ & H4 & H5 & (f & d & Hf & Hd & H6) & _).
    exists fm', res. split; [exact H1 |]. split; [exact H4 |]. split; [exact H5 |].
    exists f, d. split; [exact Hf |]. split; [exact Hd |].
    destruct H6 as (_ & _ & _ & _ & _ & _ & Hdisplay & _ & Hweight & _).
    split; [exact Hdisplay | exact Hweight].
  - intros desc.
    destruct (loadFont_registers_whatever_the_outcome
                false LoadFulfilled true 0 desc sample_manager
                "Inter" [{| url := "/fonts/Inter.var.woff2"; format := Some "woff2" |}]
                eq_refl ltac:(discriminate) eq_refl ltac:(discriminate))
      as (fm' & res & H1 & _ & _ & _ & _ & (f & d & Hf & Hd & H6) & _).
    exists fm', res, f, d. split; [exact H1 |]. split; [exact Hf |]. split; [exact Hd |].
    destruct H6 as (_ & _ & _ & _ & _ & _ & Hdisplay & _).
    exact Hdisplay.
Defined.

Lemma normalize_normalized (fm : FontManager) (desc : FontDescriptor) (nm : string)
      (srcs : list source) :
  validated desc = Some (nm, srcs) -> normalized (normalize fm nm srcs desc).
Proof.
  intros Hv. apply validated_some in Hv as (_ & Hnm & _ & Hsrcs).
  unfold normalized, normalize. cbn [name src font_descriptors fallback languages].
  repeat split; try assumption; discriminate.
Qed.

Lemma registry_ok_set (r : FontRegistry.t) (f : Font) :
  registry_ok r -> normalized f -> registry_ok (FontRegistry.set r (name f) f).
Proof.
  intros [Hnd Hall] Hf. split.
  - rewrite registry_set_keys.
    destruct (FontRegistry.has r (name f)) eqn:Hhas; [exact Hnd |].
    eapply Permutation_NoDup; [apply Permutation_cons_append |].
    constructor; [| exact Hnd].
    intros Hin. apply registry_has_In in Hin. rewrite Hin in Hhas. discriminate.
  - intros k g Hin. destruct (registry_set_In _ _ _ _ _ Hin) as [[-> ->] | Hold].
    + split; [reflexivity | exact Hf].
    + apply Hall. exact Hold.
Qed.

Lemma step_registry_ok (sff : bool) (sys sys' : system) :
  step sff sys sys' ->
  registry_ok (registry (manager sys)) /\ (forall i c, calls sys !! i = Some c -> pending_ok c) ->
  registry_ok (registry (manager sys')) /\ (forall i c, calls sys' !! i = Some c -> pending_ok c).
Proof.
  intros Hstep [Hreg Hcalls].
  destruct (step_inv _ _ _ Hstep) as [[d [Hm Hc]] | [[e [Hm Hc]] | [j [c [c' [Hj [Hc Hcase]]]]]]].
  - rewrite Hm, Hc. split; [exact Hreg |]. intros i c Hi.
    apply lookup_app_Some in Hi. destruct Hi as [Hi | [_ Hi]].
    + exact (Hcalls i c Hi).
    + destruct (i - length (calls sys)) as [| n]; [| destruct n; discriminate].
      injection Hi as <-. exact I.
  - rewrite Hm, Hc. split; [exact Hreg | exact Hcalls].
  - assert (Hc' : pending_ok c' -> forall i c0, calls sys' !! i = Some c0 -> pending_ok c0).
    { intros Hok i c0 Hi. rewrite Hc in Hi.
      destruct (decide (j = i)) as [-> | Hne].
      - rewrite list_lookup_insert_eq in Hi by (apply lookup_lt_Some in Hj; exact Hj).
        injection Hi as <-. exact Hok.
      - rewrite list_lookup_insert_ne in Hi by exact Hne. exact (Hcalls i c0 Hi). }
    destruct Hcase as [[d [err [-> [-> [_ Hm]]]]] | [[d [f [-> [-> Hb]]]] | [H | H]]].
    + rewrite Hm. split; [exact Hreg | apply Hc'; exact I].
    + rewrite validated_begin in Hb. destruct (validated d) as [[nm srcs] |] eqn:Hv;
        [| discriminate].
      injection Hb as Hm <-. rewrite <- Hm, registry_load_begin.
      split; [exact Hreg |]. apply Hc'. apply normalize_normalized. exact Hv.
    + destruct H as [f [o [fm [r [-> [-> [Hs Hm]]]]]]].
      assert (Hf : normalized f) by exact (Hcalls j _ Hj).
      rewrite Hm. cbn [loadFont_loaded emit registry with_registry].
      assert (Hfm : registry fm = registry (manager sys)).
      { rewrite <- (registry_load_settle sff o f (manager sys)), Hs. reflexivity. }
      rewrite Hfm. split; [apply registry_ok_set; assumption | apply Hc'; exact Hf].
    + destruct H as [f [r [ok [-> [-> Hm]]]]].
      rewrite Hm. split; [exact Hreg | apply Hc'; exact I].
Qed.

(** X4. In every run of the event loop from a manager whose registry is
    in order, [listFonts] never lists two fonts of the same name, and each
    font it lists is the one [getFont] returns for its name and is
    normalized: a name, a source, descriptors, a fallback chain and a list
    of languages. *)
Theorem registry_keeps_one_font_per_name :
  forall (supportsFontFace : bool) (fm : FontManager) (sys : system),
    registry_ok (registry fm) ->
    steps supportsFontFace (initial fm) sys ->
    List.NoDup (map name (listFonts (manager sys))) /\
    forall f : Font,
      In f (listFonts (manager sys)) ->
      getFont (manager sys) (name f) = Some f /\ normalized f.
Proof.
  intros sff fm sys Hfm Hsteps.
  assert (Hinv : registry_ok (registry (manager sys)) /\
                 (forall i c, calls sys !! i = Some c -> pending_ok c)).
  { remember (initial fm) as sys0 eqn:E.
    induction Hsteps as [sys0 | sys0 sys1 sys2 Hsteps IH Hstep].
    - subst sys0. split; [exact Hfm |]. intros i c Hi. destruct i; discriminate.
    - apply (step_registry_ok _ _ _ Hstep). apply IH. exact E. }
  destruct Hinv as [[Hnd Hall] _].
  unfold listFonts, getFont, FontRegistry.all.
  assert (Hnames : map name (map snd (registry (manager sys))) = map fst (registry (manager sys))).
  { rewrite List.map_map. apply map_ext_in. intros [k f] Hin.
    destruct (Hall k f Hin) as [-> _]. reflexivity. }
  split; [rewrite Hnames; exact Hnd |].
  intros f Hin. apply in_map_iff in Hin as [[k g] [Heq Hin]]. cbn [snd] in Heq. subst g.
  destruct (Hall k f Hin) as [Hk Hf]. split; [| exact Hf].
  rewrite <- Hk. apply registry_get_In; assumption.
Qed.

Lemma registry_keeps_one_font_per_name_witness :
  exists sys : system,
    steps true (initial sample_manager) sys /\
    map name (listFonts (manager sys)) = ["Inter"] /\
    List.NoDup (map name (listFonts (manager sys))).
Proof.
  assert (Hrun : { sys : system |
                   steps true (initial sample_manager) sys /\
                   map name (listFonts (manager sys)) = ["Inter"] }).
  { eexists. split.
    - eapply steps_step;
        [eapply steps_step;
         [eapply steps_step; [apply steps_refl | apply (step_call true sample_descriptor)]
         | eapply (step_begin true 0); reflexivity]
        | eapply (step_loaded true 0 _ (LoadRejected "NetworkError")); reflexivity].
    - reflexivity. }
  destruct Hrun as [sys [Hrun Hnames]]. exists sys.
  split; [exact Hrun |]. split; [exact Hnames |].
  apply (registry_keeps_one_font_per_name true sample_manager sys); [| exact Hrun].
  split; [constructor | intros k f []].
Defined.

(** ** The rule that a load without [FontFace] injects *)

Lemma nodes_inject_again (u : string) (i : StyleInjector.t) :
  StyleInjector.nodes (StyleInjector.inject u (StyleInjector.inject u i))
  = StyleInjector.nodes (StyleInjector.inject u i).
Proof.
  rewrite (inject_known u (StyleInjector.inject u i)).
  - apply nodes_ensureNode.
  - rewrite rules_inject. apply elem_of_union. left. apply elem_of_singleton. reflexivity.
Qed.

Lemma In_nodes_inject (u : string) (i : StyleInjector.t) :
  rules_are_nodes i -> In u (StyleInjector.nodes (StyleInjector.inject u i)).
Proof.
  intros Hinv. apply (rules_are_nodes_inject u i Hinv).
  rewrite rules_inject. apply elem_of_union. left. apply elem_of_singleton. reflexivity.
Qed.

(** What a call of [loadFont] that resolves has done to the manager. *)
Lemma loadFont_resolved (sff : bool) (o : load_outcome) (ok : bool) (id : nat)
      (desc : FontDescriptor) (fm fm' : FontManager) (res : LoadFontResult) :
  loadFont sff o ok id desc fm = inr (fm', res) ->
  exists (nm : string) (srcs : list source),
    validated desc = Some (nm, srcs) /\
    let f := normalize fm nm srcs desc in
    let css := buildFontFaceCSS (name f) (src f) (font_descriptors f) in
    let result := if sff then match o with
                              | LoadFulfilled => Loaded nm
                              | LoadRejected e => Failed e
                              end
                  else Injected in
    res = {| res_name := nm; res_ok := ok; res_result := result |} /\
    defaultFallback fm' = defaultFallback fm /\
    registry fm' = FontRegistry.set (registry fm) nm f /\
    injector fm' = match result with
                   | Loaded _ => injector fm
                   | _ => StyleInjector.inject css (injector fm)
                   end /\
    emitted fm' = (emitted fm ++ [(Some id, EvLoad nm result); (Some id, EvReady nm ok)])%list /\
    attempts fm' = (attempts fm ++ [f])%list.
Proof.
  unfold loadFont. rewrite validated_begin.
  destruct (validated desc) as [[nm srcs] |]; [| discriminate].
  intros H. exists nm, srcs. split; [reflexivity |]. cbv zeta.
  unfold load_settle, load_begin, loadFont_ready, loadFont_loaded in H.
  destruct sff; [destruct o |]; injection H as <- <-;
    cbn [emit with_registry with_injector with_attempt defaultFallback registry injector
         emitted attempts name];
    rewrite <- ?app_assoc; repeat split; reflexivity.
Qed.

(** X5. When a load of a font ends without a loaded [FontFace] (no
    support, or a rejected load), the [@font-face] rule of the registered
    descriptor is among the nodes of the style element, and loading the
    same descriptor again leaves the nodes as they are. *)
Theorem unloaded_font_rule_is_injected_once :
  forall (supportsFontFace : bool) (o1 o2 : load_outcome) (ok1 ok2 : bool) (id1 id2 : nat)
         (desc : FontDescriptor) (fm fm1 fm2 : FontManager) (res1 res2 : LoadFontResult),
    rules_are_nodes (injector fm) ->
    loadFont supportsFontFace o1 ok1 id1 desc fm = inr (fm1, res1) ->
    loadFont supportsFontFace o2 ok2 id2 desc fm1 = inr (fm2, res2) ->
    (forall font : string, res_result res1 <> Loaded font) ->
    exists f : Font,
      getFont fm1 (res_name res1) = Some f /\
      In (buildFontFaceCSS (name f) (src f) (font_descriptors f))
         (StyleInjector.nodes (injector fm1)) /\
      StyleInjector.nodes (injector fm2) = StyleInjector.nodes (injector fm1).
Proof.
  intros sff o1 o2 ok1 ok2 id1 id2 desc fm fm1 fm2 res1 res2 Hinv H1 H2 Hres.
  destruct (loadFont_resolved _ _ _ _ _ _ _ _ H1)
    as (nm & srcs & Hv & Hres1 & Hfb1 & Hreg1 & Hinj1 & _).
  destruct (loadFont_resolved _ _ _ _ _ _ _ _ H2)
    as (nm' & srcs' & Hv' & _ & _ & _ & Hinj2 & _).
  rewrite Hv in Hv'. injection Hv' as <- <-.
  assert (Hf : normalize fm1 nm srcs desc = normalize fm nm srcs desc)
    by (unfold normalize; rewrite Hfb1; reflexivity).
  rewrite Hf in Hinj2. clear Hf.
  set (f := normalize fm nm srcs desc) in *.
  set (css := buildFontFaceCSS (name f) (src f) (font_descriptors f)) in *.
  assert (Hi1 : injector fm1 = StyleInjector.inject css (injector fm)).
  { rewrite Hinj1. rewrite Hres1 in Hres. cbn [res_result] in Hres.
    destruct sff; [destruct o1 |]; try reflexivity.
    exfalso. exact (Hres _ eq_refl). }
  exists f. split; [| split].
  - unfold getFont. rewrite Hreg1, Hres1. cbn [res_name].
    rewrite registry_get_set, string_eqb_refl. reflexivity.
  - rewrite Hi1. apply In_nodes_inject. exact Hinv.
  - rewrite Hinj2.
    destruct sff; [destruct o2 |]; try reflexivity;
      rewrite Hi1; apply nodes_inject_again.
Qed.

Lemma unloaded_font_rule_is_injected_once_witness :
  exists (fm1 fm2 : FontManager) (res1 res2 : LoadFontResult),
    loadFont false LoadFulfilled true 0 sample_descriptor sample_manager = inr (fm1, res1) /\
    loadFont false LoadFulfilled true 1 sample_descriptor fm1 = inr (fm2, res2) /\
    res_result res1 = Injected /\
    StyleInjector.nodes (injector fm2) = StyleInjector.nodes (injector fm1).
Proof.
  eexists. eexists. eexists. eexists.
  split; [reflexivity |]. split; [reflexivity |]. split; [reflexivity |].
  refine (match unloaded_font_rule_is_injected_once
                  false LoadFulfilled LoadFulfilled true true 0 1 sample_descriptor
                  sample_manager _ _ _ _ rules_are_nodes_new eq_refl eq_refl _ with
          | ex_intro _ f (conj _ (conj _ H)) => H
          end).
  intros font H. discriminate H.
Defined.

(** ** [ensureFonts] *)

Lemma call_loadFont_spec (sff : bool) (desc : FontDescriptor) (fm0 : FontManager)
      (sys : system) :
  defaultFallback (manager sys) = defaultFallback fm0 ->
  let sys' := call_loadFont sff desc sys in
  calls sys' = (calls sys ++ [started fm0 desc])%list /\
  defaultFallback (manager sys') = defaultFallback fm0 /\
  registry (manager sys') = registry (manager sys) /\
  emitted (manager sys') = emitted (manager sys) /\
  attempts (manager sys') = (attempts (manager sys) ++ handed_over fm0 [desc])%list /\
  (forall sys0, steps sff sys0 sys -> steps sff sys0 sys').
Proof.
  intros Hfb. cbv zeta. unfold call_loadFont, started, handed_over. cbn [flat_map].
  assert (Hn : forall nm srcs, normalize (manager sys) nm srcs desc = normalize fm0 nm srcs desc)
    by (intros; unfold normalize; rewrite Hfb; reflexivity).
  assert (Hcalled : step sff sys {| manager := manager sys;
                                    calls := (calls sys ++ [Called desc])%list |})
    by apply step_call.
  assert (Hlook : (calls sys ++ [Called desc])%list !! length (calls sys) = Some (Called desc))
    by (apply list_lookup_middle; reflexivity).
  assert (Hins : forall c, <[length (calls sys) := c]> (calls sys ++ [Called desc])%list
                           = (calls sys ++ [c])%list).
  { intros c. rewrite insert_app_r_alt by lia. rewrite Nat.sub_diag. reflexivity. }
  destruct (loadFont_begin sff desc (manager sys)) as [err | [fm f]] eqn:Hb.
  - pose proof Hb as Hb'. rewrite validated_begin in Hb'.
    destruct (validated desc) as [[nm srcs] |]; [discriminate |]. injection Hb' as <-.
    cbn [manager calls]. rewrite app_nil_r.
    repeat split; try reflexivity; try assumption.
    intros sys0 Hsteps.
    eapply steps_step; [eapply steps_step; [exact Hsteps | exact Hcalled] |].
    pose proof (step_reject sff (length (calls sys)) desc invalid_descriptor
                            {| manager := manager sys; calls := (calls sys ++ [Called desc])%list |}
                            Hlook Hb) as Hstep.
    unfold set_call in Hstep. cbn [manager calls] in Hstep. rewrite Hins in Hstep. exact Hstep.
  - pose proof Hb as Hb'. rewrite validated_begin in Hb'.
    destruct (validated desc) as [[nm srcs] |]; [| discriminate]. injection Hb' as <- <-.
    cbn [manager calls]. rewrite Hn, app_nil_r.
    rewrite defaultFallback_load_begin, registry_load_begin, emitted_load_begin.
    repeat split; try reflexivity; try assumption.
    + unfold load_begin. destruct sff; reflexivity.
    + intros sys0 Hsteps.
      eapply steps_step; [eapply steps_step; [exact Hsteps | exact Hcalled] |].
      pose proof (step_begin sff (length (calls sys)) desc _ _
                           {| manager := manager sys; calls := (calls sys ++ [Called desc])%list |}
                           Hlook Hb) as Hstep.
      unfold set_call in Hstep. cbn [manager calls] in Hstep. rewrite Hins, Hn in Hstep.
      exact Hstep.
Qed.

Lemma ensureFonts_spec (sff : bool) (fm0 : FontManager) (fonts : list FontDescriptor) :
  forall sys : system,
    defaultFallback (manager sys) = defaultFallback fm0 ->
    let sys' := ensureFonts sff fonts sys in
    calls sys' = (calls sys ++ map (started fm0) fonts)%list /\
    registry (manager sys') = registry (manager sys) /\
    emitted (manager sys') = emitted (manager sys) /\
    attempts (manager sys') = (attempts (manager sys) ++ handed_over fm0 fonts)%list /\
    (forall sys0, steps sff sys0 sys -> steps sff sys0 sys').
Proof.
  induction fonts as [| desc fonts IH]; intros sys Hfb; cbv zeta.
  - cbn [ensureFonts fold_left map handed_over flat_map]. rewrite !app_nil_r.
    repeat split; try reflexivity. intros sys0 H. exact H.
  - destruct (call_loadFont_spec sff desc fm0 sys Hfb) as (Hc & Hfb' & Hr & He & Ha & Hs).
    destruct (IH (call_loadFont sff desc sys) Hfb') as (Hc2 & Hr2 & He2 & Ha2 & Hs2).
    change (ensureFonts sff (desc :: fonts) sys)
      with (ensureFonts sff fonts (call_loadFont sff desc sys)).
    rewrite Hc2, Hr2, He2, Ha2, Hc, Hr, He, Ha.
    rewrite <- !app_assoc. unfold handed_over. cbn [map flat_map app].
    rewrite app_nil_r.
    repeat split; try reflexivity.
    intros sys0 H. apply Hs2. apply Hs. exact H.
Qed.

Lemma Promise_all_started (fm : FontManager) (fonts : list FontDescriptor) :
  Promise_all (map (started fm) fonts)
  = if forallb (fun desc => match validated desc with Some _ => true | None => false end) fonts
    then match fonts with [] => Some (inr []) | _ => None end
    else Some (inl invalid_descriptor).
Proof.
  induction fonts as [| desc fonts IH]; [reflexivity |].
  cbn [map Promise_all forallb]. rewrite IH. unfold started.
  destruct (validated desc) as [[nm srcs] |]; cbn [andb]; [| reflexivity].
  destruct (forallb _ fonts); [destruct fonts |]; reflexivity.
Qed.

(** X6. [ensureFonts] makes all its calls of [loadFont] at once, in the
    order of the list: each valid descriptor is handed to the loader and
    its call waits for the load, each invalid one is rejected; the registry
    and the events are as before.  The promise of [ensureFonts] is
    rejected with the validation error exactly when the list has an
    invalid descriptor, and the valid ones are loading all the same. *)
Theorem ensureFonts_starts_every_load :
  forall (supportsFontFace : bool) (fonts : list FontDescriptor) (fm : FontManager),
    let sys := ensureFonts supportsFontFace fonts (initial fm) in
    steps supportsFontFace (initial fm) sys /\
    calls sys = map (started fm) fonts /\
    attempts (manager sys) = (attempts fm ++ handed_over fm fonts)%list /\
    registry (manager sys) = registry fm /\
    emitted (manager sys) = emitted fm /\
    (Promise_all (calls sys) = Some (inl invalid_descriptor) <->
     exists desc, In desc fonts /\ validated desc = None).
Proof.
  intros sff fonts fm. cbv zeta.
  destruct (ensureFonts_spec sff fm fonts (initial fm) eq_refl) as (Hc & Hr & He & Ha & Hs).
  cbn [initial calls manager app] in *.
  repeat split; try assumption.
  - apply Hs. apply steps_refl.
  - rewrite Hc, Promise_all_started. intros H.
    destruct (forallb _ fonts) eqn:Hall; [destruct fonts; discriminate |].
    clear - Hall. induction fonts as [| d fonts IH]; [discriminate |].
    cbn [forallb] in Hall. destruct (validated d) eqn:Hd.
    + destruct (IH Hall) as [desc [Hin Hv]]. exists desc. split; [right; exact Hin | exact Hv].
    + exists d. split; [left; reflexivity | exact Hd].
  - intros [desc [Hin Hv]]. rewrite Hc, Promise_all_started.
    assert (Hall : forallb (fun desc => match validated desc with
                                        | Some _ => true
                                        | None => false
                                        end) fonts = false).
    { clear - Hin Hv. induction fonts as [| d fonts IH]; [destruct Hin |].
      cbn [forallb]. destruct Hin as [-> | Hin].
      - rewrite Hv. reflexivity.
      - rewrite (IH Hin). apply andb_false_r. }
    rewrite Hall. reflexivity.
Qed.

(** ** [EventEmitter] *)

Lemma emitter_get_set (e : EventEmitter.t) (type : string) (arr : list nat) (type' : string) :
  EventEmitter.get (EventEmitter.set e type arr) type'
  = if String.eqb type type' then Some arr else EventEmitter.get e type'.
Proof.
  induction e as [| [k a] e IH]; cbn [EventEmitter.set EventEmitter.get].
  - destruct (String.eqb type type'); reflexivity.
  - destruct (String.eqb_spec k type) as [-> | Hk]; cbn [EventEmitter.get].
    + destruct (String.eqb type type'); reflexivity.
    + rewrite IH. destruct (String.eqb_spec type type') as [Heq | Hn]; [| reflexivity].
      destruct (String.eqb_spec k type'); [congruence | reflexivity].
Qed.

Lemma emit_set (e : EventEmitter.t) (type : string) (arr : list nat) (type' : string) :
  EventEmitter.emit type' (EventEmitter.set e type arr)
  = if String.eqb type type' then arr else EventEmitter.emit type' e.
Proof.
  unfold EventEmitter.emit. rewrite emitter_get_set.
  destruct (String.eqb type type'); reflexivity.
Qed.

Lemma indexOf_absent (fn : nat) (arr : list nat) :
  ~ In fn arr -> EventEmitter.indexOf fn arr = None.
Proof.
  induction arr as [| g arr IH]; [reflexivity |]. intros Hin.
  cbn [EventEmitter.indexOf]. destruct (Nat.eqb_spec g fn) as [-> | _].
  - exfalso. apply Hin. left. reflexivity.
  - rewrite IH; [reflexivity |]. intros H. apply Hin. right. exact H.
Qed.

Lemma indexOf_first (fn : nat) (l1 l2 : list nat) :
  ~ In fn l1 -> EventEmitter.indexOf fn (l1 ++ fn :: l2)%list = Some (length l1).
Proof.
  induction l1 as [| g l1 IH]; intros Hin.
  - cbn [app EventEmitter.indexOf length]. rewrite Nat.eqb_refl. reflexivity.
  - cbn [app EventEmitter.indexOf length]. destruct (Nat.eqb_spec g fn) as [-> | _].
    + exfalso. apply Hin. left. reflexivity.
    + rewrite IH; [reflexivity |]. intros H. apply Hin. right. exact H.
Qed.

Lemma splice_middle (l1 l2 : list nat) (fn : nat) :
  EventEmitter.splice (length l1) (l1 ++ fn :: l2)%list = (l1 ++ l2)%list.
Proof.
  unfold EventEmitter.splice.
  rewrite firstn_app, firstn_all, Nat.sub_diag. cbn [firstn]. rewrite app_nil_r.
  replace (S (length l1)) with (length (l1 ++ [fn])%list) by (rewrite length_app; simpl; lia).
  replace (l1 ++ fn :: l2)%list with ((l1 ++ [fn]) ++ l2)%list
    by (rewrite <- app_assoc; reflexivity).
  rewrite skipn_app, skipn_all, Nat.sub_diag. reflexivity.
Qed.

Lemma on_adds_listener_last_aux (type : string) (fn : nat) (e : EventEmitter.t) :
  EventEmitter.emit type (EventEmitter.on type fn e)
  = (EventEmitter.emit type e ++ [fn])%list /\
  forall type' : string,
    type' <> type ->
    EventEmitter.emit type' (EventEmitter.on type fn e) = EventEmitter.emit type' e.
Proof.
  unfold EventEmitter.on. split.
  - rewrite emit_set, string_eqb_refl. unfold EventEmitter.emit.
    destruct (EventEmitter.get e type); reflexivity.
  - intros type' Hne. rewrite emit_set.
    destruct (String.eqb_spec type type'); [congruence | reflexivity].
Qed.

(** X7. After [on(type, fn)], [emit(type)] calls the listeners it called
    before, in the same order, and then [fn]; the listeners of the other
    types are as they were. *)
Theorem on_adds_listener_last :
  forall (type : string) (fn : nat) (e : EventEmitter.t),
    EventEmitter.emit type (EventEmitter.on type fn e)
    = (EventEmitter.emit type e ++ [fn])%list /\
    forall type' : string,
      type' <> type ->
      EventEmitter.emit type' (EventEmitter.on type fn e) = EventEmitter.emit type' e.
Proof.
  intros type fn e. unfold EventEmitter.on. split.
  - rewrite emit_set, string_eqb_refl. unfold EventEmitter.emit.
    destruct (EventEmitter.get e type); reflexivity.
  - intros type' Hne. rewrite emit_set.
    destruct (String.eqb_spec type type'); [congruence | reflexivity].
Qed.

(** X8. [off(type, fn)] changes nothing when [fn] is not a listener of
    the type; else it takes out the earliest registration of [fn] and
    keeps the others in order, and the other types are as they were.  So
    the function that [on] returns undoes the [on] when [fn] was not
    registered before. *)
Theorem off_removes_earliest_registration :
  forall (type : string) (fn : nat) (e : EventEmitter.t),
    (~ In fn (EventEmitter.emit type e) -> EventEmitter.off type fn e = e) /\
    (forall l1 l2 : list nat,
        EventEmitter.emit type e = (l1 ++ fn :: l2)%list -> ~ In fn l1 ->
        EventEmitter.emit type (EventEmitter.off type fn e) = (l1 ++ l2)%list) /\
    (forall type' : string,
        type' <> type ->
        EventEmitter.emit type' (EventEmitter.off type fn e) = EventEmitter.emit type' e) /\
    (~ In fn (EventEmitter.emit type e) ->
     forall type' : string,
       EventEmitter.emit type' (EventEmitter.off type fn (EventEmitter.on type fn e))
       = EventEmitter.emit type' e).
Proof.
  intros type fn e.
  assert (Hoff : forall e0 l1 l2,
             EventEmitter.emit type e0 = (l1 ++ fn :: l2)%list -> ~ In fn l1 ->
             EventEmitter.emit type (EventEmitter.off type fn e0) = (l1 ++ l2)%list).
  { intros e0 l1 l2 He Hin. unfold EventEmitter.off. unfold EventEmitter.emit in He.
    destruct (EventEmitter.get e0 type) as [arr |] eqn:Hget;
      [| destruct l1; discriminate].
    subst arr. rewrite (indexOf_first fn l1 l2 Hin), emit_set, string_eqb_refl.
    apply splice_middle. }
  assert (Hother : forall e0 type', type' <> type ->
             EventEmitter.emit type' (EventEmitter.off type fn e0) = EventEmitter.emit type' e0).
  { intros e0 type' Hne. unfold EventEmitter.off.
    destruct (EventEmitter.get e0 type) as [arr |]; [| reflexivity].
    destruct (EventEmitter.indexOf fn arr); [| reflexivity].
    rewrite emit_set. destruct (String.eqb_spec type type'); [congruence | reflexivity]. }
  split; [| split; [| split]].
  - intros Hin. unfold EventEmitter.off. unfold EventEmitter.emit in Hin.
    destruct (EventEmitter.get e type) as [arr |]; [| reflexivity].
    rewrite (indexOf_absent fn arr Hin). reflexivity.
  - exact (Hoff e).
  - exact (Hother e).
  - intros Hin type'. destruct (on_adds_listener_last_aux type fn e) as [Hon Hon'].
    destruct (String.eqb_spec type' type) as [-> | Hne].
    + rewrite (Hoff _ (EventEmitter.emit type e) [] Hon Hin). apply app_nil_r.
    + rewrite (Hother _ _ Hne). apply Hon'. exact Hne.
Qed.

(** ** What a match of the patterns has read *)

Section RunsRead.
Context {R : Type}.
Variable p : ascii -> bool.
Variable k : @mcont R.

Lemma rep_class_some (fuel : nat) :
  forall (lo : nat) (hi : option nat) (s : string) (c : caps) (x : R),
    (forall h, hi = Some h -> lo <= h) ->
    rep (rmatch (RChar p)) k fuel lo hi s c = Some x ->
    exists u v : string,
      s = u +:+ v /\ str_forall p u = true /\ lo <= String.length u /\
      (forall h, hi = Some h -> String.length u <= h) /\
      k v c = Some x.
Proof.
  induction fuel as [| fuel IH]; intros lo hi s c x Hlohi Hrep; [discriminate |].
  assert (Hstop : (if (lo =? 0)%nat then k s c else None) = Some x ->
                  exists u v : string,
                    s = u +:+ v /\ str_forall p u = true /\ lo <= String.length u /\
                    (forall h, hi = Some h -> String.length u <= h) /\ k v c = Some x).
  { intros H. destruct (Nat.eqb_spec lo 0) as [-> | _]; [| discriminate].
    exists "", s. rewrite append_nil_l.
    split; [reflexivity |]. split; [reflexivity |]. split; [simpl; lia |].
    split; [intros h _; simpl; lia | exact H]. }
  destruct (decide (hi = Some 0)) as [Hz | Hnz].
  { rewrite rep_stop in Hrep; [exact (Hstop Hrep) | right; exact Hz | exact Hlohi]. }
  destruct s as [| a s].
  { rewrite rep_stop in Hrep; [exact (Hstop Hrep) | left; exact I | exact Hlohi]. }
  destruct (p a) eqn:Hpa.
  - rewrite rep_step in Hrep by assumption.
    destruct (rep (rmatch (RChar p)) k fuel (Nat.pred lo) (option_map Nat.pred hi) s c)
      as [y |] eqn:Hinner; [| exact (Hstop Hrep)].
    injection Hrep as ->.
    apply IH in Hinner.
    + destruct Hinner as (u & v & -> & Hu & Hlo & Hhi & Hk).
      exists (String a u), v. rewrite append_cons.
      split; [reflexivity |]. split; [simpl; rewrite Hpa, Hu; reflexivity |].
      split; [simpl; lia |]. split; [| exact Hk].
      intros h Hh. subst hi. simpl.
        specialize (Hhi (Nat.pred h) eq_refl).
        destruct h; [congruence | simpl in Hhi; lia].
    + intros h Hh. destruct hi as [h0 |]; [| discriminate]. injection Hh as <-.
      specialize (Hlohi h0 eq_refl). lia.
  - rewrite rep_stop in Hrep; [exact (Hstop Hrep) | left; exact Hpa | exact Hlohi].
Qed.

Lemma rmatch_class_some (lo : nat) (hi : option nat) (s : string) (c : caps) (x : R) :
  (forall h, hi = Some h -> lo <= h) ->
  rmatch (RRep lo hi (RChar p)) s c k = Some x ->
  exists u v : string,
    s = u +:+ v /\ str_forall p u = true /\ lo <= String.length u /\
    (forall h, hi = Some h -> String.length u <= h) /\
    k v c = Some x.
Proof. rewrite rmatch_rep. apply rep_class_some. Qed.

Lemma rmatch_char_some (s : string) (c : caps) (x : R) :
  rmatch (RChar p) s c k = Some x ->
  exists (a : ascii) (s' : string), s = String a s' /\ p a = true /\ k s' c = Some x.
Proof.
  destruct s as [| a s]; [rewrite rmatch_char_nil; discriminate |].
  rewrite rmatch_char. destruct (p a) eqn:Hpa; [| discriminate].
  intros H. exists a, s. repeat split; assumption.
Qed.
End RunsRead.

Lemma is_char_eq (c a : ascii) : is_char c a = true -> a = c.
Proof. unfold is_char. intros H. apply Ascii.eqb_eq in H. symmetry. exact H. Qed.

Lemma tag_read {R : Type} (s : string) (c : caps) (K : @mcont R) (x : R) :
  rmatch re_tag s c K = Some x ->
  exists k rest : string,
    s = String dquote (k +:+ String dquote rest) /\ tag_ok k = true /\
    K rest ((1, k) :: c) = Some x.
Proof.
  unfold re_tag. rewrite rmatch_cat. intros H.
  apply rmatch_char_some in H as (a & s1 & -> & Ha & H).
  apply is_char_eq in Ha. subst a.
  rewrite rmatch_cat, rmatch_group in H.
  apply rmatch_class_some in H; [| intros h Hh; injection Hh as <-; lia].
  destruct H as (k & v & -> & Hk & Hlo & Hhi & H).
  apply rmatch_char_some in H as (a & rest & -> & Ha & H).
  apply is_char_eq in Ha. subst a.
  rewrite consumed_app in H.
  exists k, rest. split; [reflexivity |]. split; [| exact H].
  unfold tag_ok. rewrite Hk. specialize (Hhi 4 eq_refl).
  apply andb_true_iff. split; [apply andb_true_iff; split; [reflexivity |] |].
  - apply Nat.leb_le. exact Hlo.
  - apply Nat.leb_le. exact Hhi.
Qed.

Lemma spaces_read {R : Type} (s : string) (c : caps) (K : @mcont R) (x : R) :
  rmatch (RPlus (RChar is_space)) s c K = Some x ->
  exists ws v : string, s = ws +:+ v /\ K v c = Some x.
Proof.
  unfold RPlus. intros H. apply rmatch_class_some in H; [| intros h Hh; discriminate].
  destruct H as (ws & v & -> & _ & _ & _ & H). exists ws, v. split; [reflexivity | exact H].
Qed.

Lemma sign_read {R : Type} (s : string) (c : caps) (K : @mcont R) (x : R) :
  rmatch (ROpt (RChar (is_char "-"))) s c K = Some x ->
  exists sgn v : string, (sgn = "" \/ sgn = "-") /\ s = sgn +:+ v /\ K v c = Some x.
Proof.
  unfold ROpt. intros H. apply rmatch_class_some in H; [| intros h Hh; injection Hh as <-; lia].
  destruct H as (u & v & -> & Hu & _ & Hhi & H).
  specialize (Hhi 1 eq_refl). exists u, v. split; [| split; [reflexivity | exact H]].
  destruct u as [| a [| b u]]; [left; reflexivity | right | simpl in Hhi; lia].
  cbn [str_forall] in Hu. rewrite andb_true_r in Hu. apply is_char_eq in Hu. subst a.
  reflexivity.
Qed.

Lemma digits_read {R : Type} (s : string) (c : caps) (K : @mcont R) (x : R) :
  rmatch (RPlus (RChar is_digit)) s c K = Some x ->
  exists ip v : string,
    s = ip +:+ v /\ ip <> "" /\ str_forall is_digit ip = true /\ K v c = Some x.
Proof.
  unfold RPlus. intros H. apply rmatch_class_some in H; [| intros h Hh; discriminate].
  destruct H as (ip & v & -> & Hip & Hlo & _ & H). exists ip, v.
  repeat split; try assumption. intros ->. simpl in Hlo. lia.
Qed.

Lemma integer_read {R : Type} (s : string) (c : caps) (K : @mcont R) (x : R) :
  rmatch re_integer s c K = Some x ->
  exists sgn ip v : string,
    (sgn = "" \/ sgn = "-") /\ ip <> "" /\ str_forall is_digit ip = true /\
    s = (sgn +:+ ip) +:+ v /\ K v c = Some x.
Proof.
  unfold re_integer. rewrite rmatch_cat. intros H.
  apply sign_read in H as (sgn & s1 & Hsgn & -> & H).
  apply digits_read in H as (ip & v & -> & Hne & Hip & H).
  exists sgn, ip, v. rewrite append_assoc. repeat split; assumption.
Qed.

(** The optional fraction: the rest is read with the captures as they
    were, or with the third group on top. *)
Lemma fraction_read {R : Type} (s : string) (c : caps) (K : @mcont R) (x : R) :
  rmatch (ROpt (RGroup 3 (RCat (RChar (is_char ".")) (RPlus (RChar is_digit))))) s c K = Some x ->
  exists (frac v : string) (c' : caps),
    s = frac +:+ v /\
    (frac = "" \/ exists fd, frac = String "." fd /\ fd <> "" /\ str_forall is_digit fd = true) /\
    (c' = c \/ exists g, c' = (3, g) :: c) /\
    K v c' = Some x.
Proof.
  rewrite rmatch_opt.
  destruct (rmatch (RGroup 3 _) s c _) as [y |] eqn:Hin.
  - intros Hy. injection Hy as ->.
    rewrite rmatch_group, rmatch_cat in Hin.
    apply rmatch_char_some in Hin as (a & s1 & -> & Ha & Hin).
    apply is_char_eq in Ha. subst a.
    apply digits_read in Hin as (fd & v & -> & Hne & Hfd & Hin).
    destruct (String.length v =? String.length (String "." (fd +:+ v)))%nat; [discriminate |].
    cbn [String.length rep] in Hin.
    exists (String "." fd), v, ((3, consumed (String "." (fd +:+ v)) v) :: c).
    rewrite append_cons. split; [reflexivity |]. split; [| split; [| exact Hin]].
    + right. exists fd. repeat split; assumption.
    + right. eexists. reflexivity.
  - intros H. exists "", s, c. rewrite append_nil_l.
    split; [reflexivity |]. split; [left; reflexivity |]. split; [left; reflexivity | exact H].
Qed.

Lemma plain_decimal_intro (sgn ip frac : string) :
  sgn = "" \/ sgn = "-" ->
  ip <> "" -> str_forall is_digit ip = true ->
  (frac = "" \/ exists fd, frac = String "." fd /\ fd <> "" /\ str_forall is_digit fd = true) ->
  plain_decimal (sgn +:+ ip +:+ frac) = true.
Proof.
  intros Hsgn Hne Hip Hfrac.
  assert (Hspan : span is_digit (ip +:+ frac) = (ip, frac)).
  { apply span_app; [exact Hip |].
    destruct Hfrac as [-> | [fd [-> _]]]; [exact I | reflexivity]. }
  assert (Hrest : negb (String.eqb ip "") &&
                  match frac with
                  | "" => true
                  | String a fd => is_char "." a && negb (String.eqb fd "") && str_forall is_digit fd
                  end = true).
  { apply andb_true_iff. split.
    - destruct (String.eqb_spec ip ""); [contradiction | reflexivity].
    - destruct Hfrac as [-> | [fd [-> [Hfd Hd]]]]; [reflexivity |].
      rewrite Hd. destruct (String.eqb_spec fd ""); [contradiction | reflexivity]. }
  unfold plain_decimal. destruct Hsgn as [-> | ->].
  - rewrite append_nil_l.
    destruct ip as [| a ip]; [contradiction |]. rewrite append_cons.
    assert (Ha : is_char "-" a = false).
    { apply digit_not_minus. simpl in Hip. apply andb_true_iff in Hip. apply Hip. }
    rewrite Ha. rewrite <- append_cons, Hspan. exact Hrest.
  - rewrite append_cons, append_nil_l.
    change (is_char "-" "-") with true. cbv iota. rewrite Hspan. exact Hrest.
Qed.

Lemma decimal_read {R : Type} (s : string) (c : caps) (K : @mcont R) (x : R) :
  rmatch re_decimal s c K = Some x ->
  exists (t v : string) (c' : caps),
    s = t +:+ v /\ plain_decimal t = true /\
    (c' = c \/ exists g, c' = (3, g) :: c) /\
    K v c' = Some x.
Proof.
  unfold re_decimal. rewrite rmatch_cat. intros H.
  apply sign_read in H as (sgn & s1 & Hsgn & -> & H).
  rewrite rmatch_cat in H.
  apply digits_read in H as (ip & s2 & -> & Hne & Hip & H).
  apply fraction_read in H as (frac & v & c' & -> & Hfrac & Hc' & H).
  exists (sgn +:+ ip +:+ frac), v, c'. rewrite !append_assoc.
  split; [reflexivity |]. split; [| split; assumption].
  apply plain_decimal_intro; assumption.
Qed.

Lemma on_off_read {R : Type} (s : string) (c : caps) (K : @mcont R) (x : R) :
  rmatch re_on_off s c K = Some x ->
  exists w v : string, (w = "on" \/ w = "off") /\ s = w +:+ v /\ K v c = Some x.
Proof.
  unfold re_on_off. rewrite rmatch_alt.
  destruct (rmatch (RLit "on") s c K) as [y |] eqn:Hon.
  - intros Hy. injection Hy as ->.
    cbn [RLit] in Hon. rewrite rmatch_cat in Hon.
    apply rmatch_char_some in Hon as (a & s1 & -> & Ha & Hon).
    apply rmatch_char_some in Hon as (b & s2 & -> & Hb & Hon).
    apply is_char_eq in Ha, Hb. subst a b.
    exists "on", s2. split; [left; reflexivity | split; [reflexivity | exact Hon]].
  - intros Hoff. cbn [RLit] in Hoff. rewrite !rmatch_cat in Hoff.
    apply rmatch_char_some in Hoff as (a & s1 & -> & Ha & Hoff).
    apply rmatch_char_some in Hoff as (b & s2 & -> & Hb & Hoff).
    apply rmatch_char_some in Hoff as (d & s3 & -> & Hd & Hoff).
    apply is_char_eq in Ha, Hb, Hd. subst a b d.
    exists "off", s3. split; [right; reflexivity | split; [reflexivity | exact Hoff]].
Qed.

Lemma tagged_match_shorter (X : regex) (s : string) (res : caps * string) (Q : caps -> Prop) :
  (forall (k rest : string) (m : caps) (s' : string),
      tag_ok k = true ->
      rmatch X rest [(1, k)] (fun s1 c1 => Some (c1, s1)) = Some (m, s') ->
      String.length s' <= String.length rest /\ Q m) ->
  match_here (RCat re_tag X) s = Some res ->
  String.length (snd res) < String.length s /\ Q (fst res).
Proof.
  intros HX. unfold match_here. rewrite rmatch_cat. intros H.
  apply tag_read in H as (k & rest & -> & Hk & H).
  destruct res as [m s']. destruct (HX k rest m s' Hk H) as [Hlen HQ].
  split; [| exact HQ]. cbn [snd String.length]. rewrite length_append.
  cbn [String.length]. lia.
Qed.

Lemma axis_match_read (s : string) (res : caps * string) :
  match_here re_axis s = Some res ->
  String.length (snd res) < String.length s /\
  exists k t : string,
    tag_ok k = true /\ plain_decimal t = true /\
    cap 1 (fst res) = Some k /\ cap 2 (fst res) = Some t.
Proof.
  apply (tagged_match_shorter _ s res
           (fun m => exists k t : string,
                tag_ok k = true /\ plain_decimal t = true /\
                cap 1 m = Some k /\ cap 2 m = Some t)).
  intros k rest m s' Hk H. rewrite rmatch_cat in H.
  apply spaces_read in H as (ws & v & -> & H).
  rewrite rmatch_group in H.
  apply decimal_read in H as (t & v' & c' & -> & Ht & Hc' & H).
  rewrite consumed_app in H. injection H as <- <-.
  split; [rewrite !length_append; lia |].
  exists k, t. split; [exact Hk |]. split; [exact Ht |].
  destruct Hc' as [-> | [g ->]]; split; reflexivity.
Qed.

Lemma num_match_read (s : string) (res : caps * string) :
  match_here re_num s = Some res ->
  String.length (snd res) < String.length s /\
  exists k t : string,
    tag_ok k = true /\ integer_text t /\
    cap 1 (fst res) = Some k /\ cap 2 (fst res) = Some t.
Proof.
  apply (tagged_match_shorter _ s res
           (fun m => exists k t : string,
                tag_ok k = true /\ integer_text t /\
                cap 1 m = Some k /\ cap 2 m = Some t)).
  intros k rest m s' Hk H. rewrite rmatch_cat in H.
  apply spaces_read in H as (ws & v & -> & H).
  rewrite rmatch_group in H.
  apply integer_read in H as (sgn & ip & v' & Hsgn & Hne & Hip & -> & H).
  rewrite consumed_app in H. injection H as <- <-.
  split; [rewrite !length_append; lia |].
  exists k, (sgn +:+ ip). split; [exact Hk |]. split; [| split; reflexivity].
  exists sgn, ip. repeat split; assumption.
Qed.

Lemma flag_match_read (s : string) (res : caps * string) :
  match_here re_flag s = Some res ->
  String.length (snd res) < String.length s /\
  exists k w : string,
    tag_ok k = true /\ (w = "on" \/ w = "off") /\
    cap 1 (fst res) = Some k /\ cap 2 (fst res) = Some w.
Proof.
  apply (tagged_match_shorter _ s res
           (fun m => exists k w : string,
                tag_ok k = true /\ (w = "on" \/ w = "off") /\
                cap 1 m = Some k /\ cap 2 m = Some w)).
  intros k rest m s' Hk H. rewrite rmatch_cat in H.
  apply spaces_read in H as (ws & v & -> & H).
  rewrite rmatch_group in H.
  apply on_off_read in H as (w & v' & Hw & -> & H).
  rewrite consumed_app in H. injection H as <- <-.
  split; [rewrite !length_append; lia |].
  exists k, w. split; [exact Hk |]. split; [exact Hw | split; reflexivity].
Qed.

Section Loop.
Variable r : regex.
Variable body : caps -> obj -> obj.
Variable Q : caps -> Prop.
Hypothesis match_read :
  forall (s : string) (res : caps * string),
    match_here r s = Some res -> String.length (snd res) < String.length s /\ Q (fst res).

Lemma exec_read (s : string) (res : caps * string) :
  exec r s = Some res -> String.length (snd res) < String.length s /\ Q (fst res).
Proof.
  induction s as [| a s IH]; cbn [exec].
  - destruct (match_here r "") as [y |] eqn:Hm; [| discriminate].
    intros H. injection H as <-. apply match_read. exact Hm.
  - destruct (match_here r (String a s)) as [y |] eqn:Hm.
    + intros H. injection H as <-. apply match_read. exact Hm.
    + intros H. destruct (IH H) as [Hlen HQ]. split; [cbn [String.length]; lia | exact HQ].
Qed.

(** The loop ends: each match leaves less of the text. *)
Lemma exec_loop_ends (fuel : nat) :
  forall (s : string) (out : obj),
    String.length s < fuel ->
    exists ms : list caps,
      Forall Q ms /\
      exec_loop fuel r body s out = Some (fold_left (fun o m => body m o) ms out).
Proof.
  induction fuel as [| fuel IH]; intros s out Hlen; [lia |].
  cbn [exec_loop]. destruct (exec r s) as [[m s'] |] eqn:He.
  - destruct (exec_read _ _ He) as [Hs' HQ]. cbn [fst snd] in Hs', HQ.
    destruct (IH s' (body m out)) as (ms & Hms & Hloop); [lia |].
    exists (m :: ms). split; [constructor; assumption | exact Hloop].
  - exists []. split; [constructor | reflexivity].
Qed.
End Loop.

Lemma In_keys (o : obj) (k : string) (v : value) : In (k, v) o -> In k (map fst o).
Proof. intros H. apply in_map_iff. exists (k, v). split; [reflexivity | exact H]. Qed.

Lemma fold_sets (P : string -> value -> Prop) (Q : caps -> Prop) (body : caps -> obj -> obj) :
  (forall m, Q m -> exists k v, P k v /\ forall o, body m o = obj_set o k v) ->
  forall (ms : list caps) (out : obj),
    Forall Q ms ->
    List.NoDup (map fst out) /\ (forall k v, In (k, v) out -> P k v) ->
    List.NoDup (map fst (fold_left (fun o m => body m o) ms out)) /\
    (forall k v, In (k, v) (fold_left (fun o m => body m o) ms out) -> P k v).
Proof.
  intros Hbody ms. induction ms as [| m ms IH]; intros out HQ Hout; [exact Hout |].
  apply Forall_cons in HQ as [Hm Hms]. cbn [fold_left]. apply IH; [exact Hms |].
  destruct (Hbody m Hm) as (k & v & HP & Hset). rewrite Hset.
  destruct Hout as [Hnd Hall]. split; [apply obj_set_keys; exact Hnd |].
  intros k' v' Hin. destruct (String.eqb_spec k "__proto__") as [-> | Hp].
  - exact (Hall k' v' Hin).
  - destruct (obj_set_In _ _ _ _ _ Hp Hnd Hin) as [[-> ->] | [_ Hold]].
    + exact HP.
    + exact (Hall k' v' Hold).
Qed.

Lemma parseAxis_values (s : string) : exists out : obj, parseAxis s = Some out /\ axis_values out.
Proof.
  unfold parseAxis. destruct (String.eqb s "").
  { exists []. split; [reflexivity |]. split; [constructor | intros k v []]. }
  set (body := fun (m : caps) (out : obj) =>
                 obj_set out (ToString (group 1 m)) (VNum (parseFloat (ToString (group 2 m))))).
  set (Q := fun m : caps => exists k t : string,
                 tag_ok k = true /\ plain_decimal t = true /\
                 cap 1 m = Some k /\ cap 2 m = Some t).
  destruct (exec_loop_ends re_axis body Q axis_match_read (S (String.length s)) s [])
    as (ms & Hms & Hloop); [lia |].
  eexists. split; [exact Hloop |].
  apply (fold_sets (fun k v => tag_ok k = true /\
                               exists t : string, plain_decimal t = true /\ v = VNum (parseFloat t))
                   Q body); [| exact Hms | split; [constructor | intros k v []]].
  intros m (k & t & Hk & Ht & H1 & H2). exists k, (VNum (parseFloat t)).
  split; [split; [exact Hk | exists t; split; [exact Ht | reflexivity]] |].
  intros o. unfold body, group. rewrite H1, H2. reflexivity.
Qed.

(** A property of an object is one of its own, or the one of the
    prototype. *)
Lemma obj_get_cases (o : obj) (k : string) :
  obj_get o k = Object_prototype k \/ In (k, obj_get o k) o.
Proof.
  induction o as [| [k0 v0] o IH]; [left; reflexivity |].
  cbn [obj_get]. destruct (String.eqb_spec k0 k) as [-> | _].
  - right. left. reflexivity.
  - destruct IH as [IH | IH]; [left; exact IH | right; right; exact IH].
Qed.

Lemma getAxis_value (el : Element) (axisName : string) :
  exists v : value,
    getAxis el axisName = Some v /\
    (v = Object_prototype axisName \/ exists x : number, v = VNum x).
Proof.
  unfold getAxis.
  destruct (parseAxis_values (fontVariationSettings el)) as (out & -> & _ & Hall).
  eexists. split; [reflexivity |].
  destruct (obj_get_cases out axisName) as [H | H]; [left; exact H | right].
  destruct (Hall _ _ H) as [_ (t & _ & Ht)]. eexists. exact Ht.
Qed.

(** X9. [parseAxis] ends on every text: the loop over the matches stops,
    and the object has each key once, every key a tag of three or four
    letters or digits, every value the number of a plain decimal.  So
    [getAxis] always returns a number or what [Object.prototype] has under
    the name, which is [undefined] for a tag and the function [Object] for
    [constructor]; and [setAxis] always writes the settings, the ones that
    were there when the name is [__proto__]. *)
Theorem parseAxis_ends_with_tagged_numbers :
  (forall s : string, exists out : obj, parseAxis s = Some out /\ axis_values out) /\
  (forall (el : Element) (axisName : string),
      exists v : value,
        getAxis el axisName = Some v /\
        (v = Object_prototype axisName \/ exists x : number, v = VNum x)) /\
  (forall (el : Element) (axisName : string),
      Object_prototype axisName = VUndefined ->
      exists v : value,
        getAxis el axisName = Some v /\ (v = VUndefined \/ exists x : number, v = VNum x)) /\
  (forall axisName : string, tag_ok axisName = true -> Object_prototype axisName = VUndefined) /\
  getAxis {| fontVariationSettings := ""; fontFeatureSettings := "" |} "constructor"
  = Some (native_function "Object") /\
  (forall (el : Element) (axisName : string) (v : value),
      exists el' : Element, setAxis el axisName v = Some el') /\
  (forall (el : Element) (current : obj) (v : value),
      parseAxis (fontVariationSettings el) = Some current ->
      setAxis el "__proto__" v
      = Some {| fontVariationSettings := axisToString (Some current);
                fontFeatureSettings := fontFeatureSettings el |}).
Proof.
  split; [exact parseAxis_values |]. split; [exact getAxis_value |].
  split; [| split; [| split; [| split]]].
  - intros el axisName Hp. destruct (getAxis_value el axisName) as (v & Hv & H).
    exists v. split; [exact Hv |]. rewrite Hp in H. exact H.
  - exact Object_prototype_tag.
  - reflexivity.
  - intros el axisName v. unfold setAxis.
    destruct (parseAxis_values (fontVariationSettings el)) as (out & -> & _).
    eexists. reflexivity.
  - intros el current v Hcur. unfold setAxis. rewrite Hcur. reflexivity.
Qed.

Lemma parseFeatures_values (s : string) :
  exists out : obj, parseFeatures s = Some out /\ feature_values out.
Proof.
  unfold parseFeatures. destruct (String.eqb s "").
  { exists []. split; [reflexivity |]. split; [constructor | intros k v []]. }
  set (P := fun (k : string) (v : value) =>
              tag_ok k = true /\
              ((exists t : string, integer_text t /\ v = VNum (parseInt t)) \/
               v = VNum (num_of_Z 1) \/ v = VNum (num_of_Z 0))).
  set (body1 := fun (m : caps) (out : obj) =>
                  obj_set out (ToString (group 1 m)) (VNum (parseInt (ToString (group 2 m))))).
  set (body2 := fun (m : caps) (out : obj) =>
                  obj_set out (ToString (group 1 m))
                          (VNum (if String.eqb (ToString (group 2 m)) "on"
                                 then num_of_Z 1 else num_of_Z 0))).
  set (Q1 := fun m : caps => exists k t : string,
                  tag_ok k = true /\ integer_text t /\ cap 1 m = Some k /\ cap 2 m = Some t).
  set (Q2 := fun m : caps => exists k w : string,
                  tag_ok k = true /\ (w = "on" \/ w = "off") /\
                  cap 1 m = Some k /\ cap 2 m = Some w).
  destruct (exec_loop_ends re_num body1 Q1 num_match_read (S (String.length s)) s [])
    as (ms1 & Hms1 & ->); [lia |].
  assert (H1 : List.NoDup (map fst (fold_left (fun o m => body1 m o) ms1 [])) /\
               (forall k v, In (k, v) (fold_left (fun o m => body1 m o) ms1 []) -> P k v)).
  { apply (fold_sets P Q1 body1); [| exact Hms1 | split; [constructor | intros k v []]].
    intros m (k & t & Hk & Ht & Hc1 & Hc2). exists k, (VNum (parseInt t)).
    split; [split; [exact Hk | left; exists t; split; [exact Ht | reflexivity]] |].
    intros o. unfold body1, group. rewrite Hc1, Hc2. reflexivity. }
  destruct (exec_loop_ends re_flag body2 Q2 flag_match_read (S (String.length s)) s
                           (fold_left (fun o m => body1 m o) ms1 []))
    as (ms2 & Hms2 & ->); [lia |].
  eexists. split; [reflexivity |].
  apply (fold_sets P Q2 body2); [| exact Hms2 | exact H1].
  intros m (k & w & Hk & Hw & Hc1 & Hc2).
  exists k, (VNum (if String.eqb w "on" then num_of_Z 1 else num_of_Z 0)).
  split.
  - split; [exact Hk |]. right. destruct Hw as [-> | ->]; [left | right]; reflexivity.
  - intros o. unfold body2, group. rewrite Hc1, Hc2. reflexivity.
Qed.

Lemma getFeature_value (el : Element) (featureName : string) :
  exists v : value,
    getFeature el featureName = Some v /\
    (v = Object_prototype featureName \/ exists x : number, v = VNum x).
Proof.
  unfold getFeature.
  destruct (parseFeatures_values (fontFeatureSettings el)) as (out & -> & _ & Hall).
  eexists. split; [reflexivity |].
  destruct (obj_get_cases out featureName) as [H | H]; [left; exact H | right].
  destruct (Hall _ _ H) as [_ [(t & _ & Ht) | [Ht | Ht]]]; eexists; exact Ht.
Qed.

(** X10. [parseFeatures] ends on every text: both loops stop, and the
    object has each key once, every key a tag of three or four letters or
    digits, every value the integer of its text, or 1 or 0.  So
    [getFeature] always returns a number or what [Object.prototype] has
    under the name, which is [undefined] for a tag and a function for
    [valueOf]; and [setFeature] always writes the settings. *)
Theorem parseFeatures_ends_with_tagged_integers :
  (forall s : string, exists out : obj, parseFeatures s = Some out /\ feature_values out) /\
  (forall (el : Element) (featureName : string),
      exists v : value,
        getFeature el featureName = Some v /\
        (v = Object_prototype featureName \/ exists x : number, v = VNum x)) /\
  (forall (el : Element) (featureName : string),
      Object_prototype featureName = VUndefined ->
      exists v : value,
        getFeature el featureName = Some v /\
        (v = VUndefined \/ exists x : number, v = VNum x)) /\
  (forall featureName : string,
      tag_ok featureName = true -> Object_prototype featureName = VUndefined) /\
  getFeature {| fontVariationSettings := ""; fontFeatureSettings := "" |} "valueOf"
  = Some (native_function "valueOf") /\
  (forall (el : Element) (featureName : string) (v : value),
      exists el' : Element, setFeature el featureName v = Some el').
Proof.
  split; [exact parseFeatures_values |]. split; [exact getFeature_value |].
  split; [| split; [| split]].
  - intros el featureName Hp. destruct (getFeature_value el featureName) as (v & Hv & H).
    exists v. split; [exact Hv |]. rewrite Hp in H. exact H.
  - exact Object_prototype_tag.
  - reflexivity.
  - intros el featureName v. unfold setFeature.
    destruct (parseFeatures_values (fontFeatureSettings el)) as (out & -> & _).
    eexists. reflexivity.
Qed.

(** ** [setFeature] and [getFeature] *)

Lemma obj_get_absent (o : obj) (k : string) :
  obj_has o k = false -> obj_get o k = Object_prototype k.
Proof.
  induction o as [| [k' v] o IH]; [reflexivity |]. cbn [obj_has obj_get].
  destruct (String.eqb k' k); [discriminate | exact IH].
Qed.

Lemma obj_get_In (o : obj) (k : string) (v : value) :
  List.NoDup (map fst o) -> In (k, v) o -> obj_get o k = v.
Proof.
  induction o as [| [k0 v0] o IH]; [intros _ [] |].
  cbn [map fst obj_get]. intros Hnd Hin.
  apply List.NoDup_cons_iff in Hnd. destruct Hnd as [Hk0 Hnd].
  destruct Hin as [H | H].
  - injection H as -> ->. rewrite string_eqb_refl. reflexivity.
  - destruct (String.eqb_spec k0 k) as [-> | _]; [| apply IH; assumption].
    exfalso. apply Hk0. apply (In_keys o k v H).
Qed.

Lemma In_obj_get (o : obj) (k : string) (v : value) :
  obj_get o k = v -> v <> Object_prototype k -> In (k, v) o.
Proof.
  intros <- Hv. destruct (obj_get_cases o k) as [H | H]; [contradiction | exact H].
Qed.

(** A value of a feature that is a small integer when it is a number. *)
Lemma small_not_infinite (v : value) :
  (isNumber v = true -> small_integer v) -> not_infinite v = true.
Proof.
  intros Hsmall. destruct (isNumber v) eqn:Hnum.
  - apply (small_integer_recovered v (Hsmall eq_refl)).
  - clear Hsmall. destruct v as [| | b | x | t | ob]; try reflexivity.
    destruct x; try reflexivity. discriminate Hnum.
Qed.

(** What is read back for a small integer: itself. *)
Lemma small_integer_read (v : value) :
  small_integer v ->
  VNum (if isNumber v then parseInt (ToString v)
        else if truthy v then num_of_Z 1 else num_of_Z 0) = v.
Proof.
  intros Hsmall. destruct (small_integer_recovered v Hsmall) as (Hnum & _ & Hint & _).
  rewrite Hnum, Hint. destruct Hsmall as [z [_ ->]]. reflexivity.
Qed.

(** X11. [setFeature] then [getFeature], for a tag of three or four
    letters or digits, when the numbers among the values are integers of at
    most three digits: a number reads back as itself, any other value as 1
    when truthy and 0 when falsy, and [null] or [undefined] takes the
    feature out.  The other features read back as before, and the variation
    settings are not touched. *)
Theorem setFeature_then_getFeature :
  forall (el : Element) (current : obj) (tag : string) (v : value),
    parseFeatures (fontFeatureSettings el) = Some current ->
    tag_ok tag = true ->
    (isNumber v = true -> small_integer v) ->
    (forall k v', In (k, v') current -> k <> tag -> small_integer v') ->
    exists el' : Element,
      setFeature el tag v = Some el' /\
      fontVariationSettings el' = fontVariationSettings el /\
      getFeature el' tag
      = Some (if nullish v then VUndefined
              else if isNumber v then v
              else VNum (if truthy v then num_of_Z 1 else num_of_Z 0)) /\
      forall k v', In (k, v') current -> k <> tag ->
                   getFeature el k = Some v' /\ getFeature el' k = Some v'.
Proof.
  intros el current tag v Hcur Htag Hv Hothers.
  destruct (parseFeatures_values (fontFeatureSettings el)) as (out & Hout & Hnd & Hall).
  rewrite Hcur in Hout. injection Hout as <-.
  pose proof (tag_not_proto _ Htag) as Hp.
  unfold setFeature. rewrite Hcur. eexists. split; [reflexivity |].
  cbn [fontVariationSettings]. split; [reflexivity |].
  unfold getFeature. rewrite Hcur. cbn [fontFeatureSettings].
  assert (Hnonnull : forall k v', In (k, v') current -> nullish v' = false).
  { intros k v' Hin. destruct (Hall k v' Hin) as [_ [(t & _ & ->) | [-> | ->]]]; reflexivity. }
  destruct (parseFeatures_reads_back (obj_set current tag v) (obj_set_keys _ _ _ Hnd))
    as (out & -> & _ & Hget & Hhas).
  { intros k v' Hin Hv'. destruct (obj_set_In _ _ _ _ _ Hp Hnd Hin) as [[-> ->] | [Hne Hin']].
    - split; [exact Htag | apply small_not_infinite; exact Hv].
    - split; [apply (Hall k v' Hin') |].
      apply small_not_infinite. intros _. exact (Hothers k v' Hin' Hne). }
  assert (Hset : obj_get (obj_set current tag v) tag = v)
    by (rewrite (obj_get_set _ _ _ _ Hp), string_eqb_refl; reflexivity).
  split.
  - f_equal. destruct (nullish v) eqn:Hnull.
    + rewrite <- (Object_prototype_tag _ Htag).
      apply obj_get_absent. destruct (obj_has out tag) eqn:Hh; [| reflexivity].
      destruct (Hhas tag Hh) as (v' & Hin & Hv').
      rewrite (obj_get_In _ _ _ (obj_set_keys _ _ _ Hnd) Hin) in Hset. subst v'.
      rewrite Hnull in Hv'. discriminate.
    + rewrite (Hget tag v); [| | exact Hnull].
      * destruct (isNumber v) eqn:Hnum; [| reflexivity].
        rewrite <- (small_integer_read v (Hv eq_refl)) at 2. rewrite Hnum. reflexivity.
      * apply In_obj_get; [exact Hset |].
        rewrite (Object_prototype_tag _ Htag). intros ->. discriminate.
  - intros k v' Hin Hne. split; f_equal.
    + apply obj_get_In; assumption.
    + rewrite (Hget k v'); [| | exact (Hnonnull k v' Hin)].
      * apply small_integer_read. exact (Hothers k v' Hin Hne).
      * apply In_obj_get.
        -- rewrite (obj_get_set _ _ _ _ Hp). destruct (String.eqb_spec tag k); [congruence |].
           apply obj_get_In; assumption.
        -- rewrite (Object_prototype_tag k (proj1 (Hall k v' Hin))).
           intros ->. specialize (Hnonnull k _ Hin). discriminate.
Qed.

(** The features of the usage example, then [ss01] set to 2 and [kern]
    switched off. *)
Lemma setFeature_then_getFeature_witness :
  let el := {| fontVariationSettings := "";
               fontFeatureSettings := featuresToString (features pretendard) |} in
  (exists el' : Element,
      setFeature el "ss01" (num "2") = Some el' /\
      getFeature el' "ss01" = Some (num "2") /\
      getFeature el "liga" = Some (num "1") /\ getFeature el' "liga" = Some (num "1")) /\
  (exists el' : Element,
      setFeature el "kern" (VBool false) = Some el' /\
      getFeature el' "kern" = Some (num "0") /\
      getFeature el' "liga" = Some (num "1")).
Proof.
  intros el.
  assert (Hcur : parseFeatures (fontFeatureSettings el)
                 = Some [("liga", num "1"); ("kern", num "1")])
    by (vm_compute; reflexivity).
  assert (Hone : small_integer (num "1")) by (exists 1%Z; split; [lia | reflexivity]).
  assert (Hsmall : forall (tag k : string) (v' : value),
             In (k, v') [("liga", num "1"); ("kern", num "1")] -> k <> tag ->
             small_integer v').
  { intros tag k v' [H | [H | []]] _; injection H as _ <-; exact Hone. }
  split.
  - destruct (setFeature_then_getFeature el _ "ss01" (num "2") Hcur eq_refl)
      as (el' & Hset & _ & Hget & Hkeep).
    + intros _. exists 2%Z. split; [lia | reflexivity].
    + apply Hsmall.
    + exists el'. split; [exact Hset |]. split; [exact Hget |].
      apply (Hkeep "liga" (num "1")); [left; reflexivity | discriminate].
  - destruct (setFeature_then_getFeature el _ "kern" (VBool false) Hcur eq_refl)
      as (el' & Hset & _ & Hget & Hkeep).
    + discriminate.
    + apply Hsmall.
    + exists el'. split; [exact Hset |]. split; [exact Hget |].
      apply (Hkeep "liga" (num "1")); [left; reflexivity | discriminate].
Defined.

(** ** Weight ranges *)

Lemma space_not_digit (a : ascii) : is_space a = true -> is_digit a = false.
Proof.
  intros Hs. destruct (is_digit a) eqn:Hd; [| reflexivity].
  rewrite (digit_not_space a Hd) in Hs. discriminate.
Qed.

Lemma spaces_start (p : ascii -> bool) (ws rest : string) :
  (forall a, is_space a = true -> p a = false) ->
  ws <> "" -> str_forall is_space ws = true -> starts_without p (ws +:+ rest).
Proof.
  intros Hp Hne Hws. destruct ws as [| a ws]; [contradiction |].
  rewrite append_cons. cbn [str_forall] in Hws. apply andb_true_iff in Hws as [Ha _].
  exact (Hp a Ha).
Qed.

Lemma length_not_empty (s : string) : s <> "" -> 1 <= String.length s.
Proof. destruct s; [contradiction | simpl; lia]. Qed.

Lemma weight_range_test (a ws b : string) :
  a <> "" -> str_forall is_digit a = true ->
  ws <> "" -> str_forall is_space ws = true ->
  b <> "" -> str_forall is_digit b = true ->
  test re_weight_range (a +:+ ws +:+ b) = true.
Proof.
  intros Ha Hda Hws Hsws Hb Hdb. unfold test.
  rewrite (exec_hit re_weight_range _ ([], "")); [reflexivity |].
  unfold match_here, re_weight_range. rewrite rmatch_cat.
  apply rmatch_class_ok; [exact Hda | | apply length_not_empty; exact Ha | discriminate |].
  { left. apply spaces_start; [exact space_not_digit | exact Hws | exact Hsws]. }
  rewrite rmatch_cat.
  apply rmatch_class_ok; [exact Hsws | | apply length_not_empty; exact Hws | discriminate |].
  { left. rewrite <- (append_nil_r b).
    apply digits_start; [exact digit_not_space | exact Hb | exact Hdb]. }
  rewrite <- (append_nil_r b).
  apply rmatch_class_ok; [exact Hdb | left; exact I | apply length_not_empty; exact Hb
                          | discriminate | reflexivity].
Qed.

Lemma split_ws_from_cons (in_sep : bool) (s : string) :
  exists (t : string) (l : list string), split_ws_from in_sep s = t :: l.
Proof.
  revert in_sep. induction s as [| c s IH]; intros in_sep; cbn [split_ws_from].
  - eexists. eexists. reflexivity.
  - destruct (is_space c).
    + destruct in_sep; [apply IH |]. eexists. eexists. reflexivity.
    + destruct (IH false) as (t & l & ->). eexists. eexists. reflexivity.
Qed.

Lemma split_ws_word (in_sep : bool) (a rest : string) :
  a <> "" -> str_forall is_digit a = true ->
  split_ws_from in_sep (a +:+ rest)
  = match split_ws_from false rest with
    | t :: l => (a +:+ t) :: l
    | [] => [a]
    end.
Proof.
  intros Hne Ha. revert in_sep Hne. induction a as [| c a IH]; intros in_sep Hne; [contradiction |].
  cbn [str_forall] in Ha. apply andb_true_iff in Ha as [Hc Ha].
  rewrite append_cons. cbn [split_ws_from]. rewrite (digit_not_space c Hc).
  destruct a as [| d a].
  - rewrite append_nil_l. destruct (split_ws_from_cons false rest) as (t & l & ->).
    rewrite append_cons, append_nil_l. reflexivity.
  - rewrite (IH Ha false) by discriminate.
    destruct (split_ws_from_cons false rest) as (t & l & ->).
    rewrite append_cons. reflexivity.
Qed.

Lemma split_ws_gap (ws rest : string) :
  ws <> "" -> str_forall is_space ws = true ->
  split_ws_from false (ws +:+ rest) = "" :: split_ws_from true rest.
Proof.
  intros Hne Hws. destruct ws as [| c ws]; [contradiction |].
  cbn [str_forall] in Hws. apply andb_true_iff in Hws as [Hc Hws].
  rewrite append_cons. cbn [split_ws_from]. rewrite Hc. f_equal.
  clear Hne c Hc. induction ws as [| c ws IH]; [rewrite append_nil_l; reflexivity |].
  cbn [str_forall] in Hws. apply andb_true_iff in Hws as [Hc Hws].
  rewrite append_cons. cbn [split_ws_from]. rewrite Hc. exact (IH Hws).
Qed.

Lemma split_weight_range (a ws b : string) :
  a <> "" -> str_forall is_digit a = true ->
  ws <> "" -> str_forall is_space ws = true ->
  b <> "" -> str_forall is_digit b = true ->
  split_ws (a +:+ ws +:+ b) = [a; b].
Proof.
  intros Ha Hda Hws Hsws Hb Hdb. unfold split_ws.
  rewrite (split_ws_word false a _ Ha Hda), (split_ws_gap ws b Hws Hsws).
  rewrite <- (append_nil_r b) at 1. rewrite (split_ws_word true b "" Hb Hdb).
  cbn [split_ws_from]. rewrite !append_nil_r. reflexivity.
Qed.

(** X12. A font whose weight is written as two runs of digits with white
    space between supports variable weight, and it supports a weight
    range exactly when its first number is at most the minimum and its
    second number at least the maximum. *)
Theorem weight_range_string_supports_inner_ranges :
  forall (f : Font) (a ws b : string) (min max : number),
    weight_of f = VStr (a +:+ ws +:+ b) ->
    a <> "" -> str_forall is_digit a = true ->
    ws <> "" -> str_forall is_space ws = true ->
    b <> "" -> str_forall is_digit b = true ->
    supportsVariableWeight f = true /\
    supportsWeightRange f (min, max)
    = num_leb (parseInt a) min && num_leb max (parseInt b).
Proof.
  intros f a ws b min max Hw Ha Hda Hws Hsws Hb Hdb.
  pose proof (weight_range_test a ws b Ha Hda Hws Hsws Hb Hdb) as Htest.
  unfold supportsVariableWeight, supportsWeightRange. rewrite Hw, Htest.
  split; [reflexivity |].
  rewrite (split_weight_range a ws b Ha Hda Hws Hsws Hb Hdb). reflexivity.
Qed.

Lemma weight_range_string_supports_inner_ranges_witness :
  supportsWeightRange pretendard (num_of_Z 300, num_of_Z 700)
  = num_leb (parseInt "100") (num_of_Z 300) && num_leb (num_of_Z 700) (parseInt "900").
Proof.
  refine (proj2 (weight_range_string_supports_inner_ranges pretendard "100" " " "900"
                   (num_of_Z 300) (num_of_Z 700) eq_refl _ eq_refl _ eq_refl _ eq_refl));
    discriminate.
Defined.

(** X13. A weight text that begins with white space: when it holds a
    range, so that the font counts as variable, [supportsWeightRange] is
    false for every range (the first piece of the split is empty and
    parses to [NaN]); when it holds none, every range is supported. *)
Theorem weight_with_leading_space_supports_no_range :
  forall (f : Font) (c : ascii) (w : string) (range : number * number),
    weight_of f = VStr (String c w) ->
    is_space c = true ->
    supportsWeightRange f range = negb (supportsVariableWeight f).
Proof.
  intros f c w [min max] Hw Hc.
  unfold supportsWeightRange, supportsVariableWeight. rewrite Hw.
  destruct (test re_weight_range (String c w)); [| reflexivity].
  unfold split_ws. cbn [split_ws_from]. rewrite Hc.
  cbn [map nth_number nth]. reflexivity.
Qed.

Lemma weight_with_leading_space_supports_no_range_witness :
  let f := {| name := "Inter"; src := [];
              font_descriptors := Some (weight_only (VStr " 100 900"));
              axes := None; features := None; fallback := None; languages := None |} in
  supportsVariableWeight f = true /\
  supportsWeightRange f (num_of_Z 400, num_of_Z 700) = false.
Proof.
  intros f. split; [reflexivity |].
  exact (weight_with_leading_space_supports_no_range f " "%char "100 900"
           (num_of_Z 400, num_of_Z 700) eq_refl eq_refl).
Defined.

(** ** The language score *)

Lemma scoreLang_loop_count (fontLangs desired : list string) (score : nat) :
  scoreLang_loop fontLangs desired score
  = score + length (List.filter (fun d => str_in d fontLangs) desired).
Proof.
  revert score. induction desired as [| d desired IH]; intros score; cbn [scoreLang_loop].
  - simpl. lia.
  - rewrite IH. cbn [List.filter]. destruct (str_in d fontLangs); simpl; lia.
Qed.

Lemma filter_length_zero {A : Type} (p : A -> bool) (l : list A) :
  length (List.filter p l) = 0 <-> forall x, In x l -> p x = false.
Proof.
  induction l as [| a l IH]; cbn [List.filter].
  - split; [intros _ x [] | reflexivity].
  - destruct (p a) eqn:Hpa.
    + split; [discriminate |]. intros H. rewrite (H a (or_introl eq_refl)) in Hpa. discriminate.
    + rewrite IH. split.
      * intros H x [<- | Hin]; [exact Hpa | exact (H x Hin)].
      * intros H x Hin. apply H. right. exact Hin.
Qed.

(** X14. [scoreLang] counts the desired languages that the font declares,
    a language that is desired twice counting twice; it is at most the
    number of desired languages, and zero exactly when the font declares
    none of them.  A font that declares languages passes the language
    test of [select] exactly when its score is positive. *)
Theorem scoreLang_counts_declared_languages :
  forall (f : Font) (desired : list string),
    scoreLang (languages f) desired
    = length (List.filter (fun d => str_in d (declared f)) desired) /\
    scoreLang (languages f) desired <= length desired /\
    (scoreLang (languages f) desired = 0 <->
     forall d, In d desired -> ~ In d (declared f)) /\
    (declared f <> [] ->
     (hasLang desired f = true <-> 0 < scoreLang (languages f) desired)).
Proof.
  intros f desired.
  assert (Hcount : scoreLang (languages f) desired
                   = length (List.filter (fun d => str_in d (declared f)) desired)).
  { unfold scoreLang, declared. destruct (languages f) as [[| l ls] |].
    - symmetry. apply filter_length_zero. reflexivity.
    - apply (scoreLang_loop_count (l :: ls) desired 0).
    - symmetry. apply filter_length_zero. reflexivity. }
  assert (Hzero : scoreLang (languages f) desired = 0 <->
                  forall d, In d desired -> ~ In d (declared f)).
  { rewrite Hcount, filter_length_zero. split.
    - intros H d Hin Hd. apply str_in_In in Hd. rewrite (H d Hin) in Hd. discriminate.
    - intros H d Hin. destruct (str_in d (declared f)) eqn:Hd; [| reflexivity].
      exfalso. apply (H d Hin). apply str_in_In. exact Hd. }
  split; [exact Hcount |]. split; [rewrite Hcount; apply List.filter_length_le |].
  split; [exact Hzero |].
  intros Hdecl. rewrite hasLang_language_match. unfold language_match. split.
  - intros [Hnone | (l & Hl & Hd)]; [contradiction |].
    destruct (Nat.eq_dec (scoreLang (languages f) desired) 0) as [Hs | Hs]; [| lia].
    exfalso. exact (proj1 Hzero Hs l Hd Hl).
  - intros Hpos. right.
    rewrite Hcount in Hpos.
    destruct (List.filter (fun d => str_in d (declared f)) desired) as [| d rest] eqn:Hf;
      [simpl in Hpos; lia |].
    assert (Hin : In d (List.filter (fun d => str_in d (declared f)) desired))
      by (rewrite Hf; left; reflexivity).
    apply filter_In in Hin as [Hin Hd]. exists d. split; [apply str_in_In; exact Hd | exact Hin].
Qed.

(** ** [select]: the filter and the rank *)






(** ** [detectLanguage] *)

Lemma lower_char_idempotent (a : ascii) : lower_char (lower_char a) = lower_char a.
Proof. destruct a as [[] [] [] [] [] [] [] []]; reflexivity. Qed.

Lemma lower_char_not_hyphen (a : ascii) :
  is_char "-" (lower_char a) = is_char "-" a.
Proof. destruct a as [[] [] [] [] [] [] [] []]; reflexivity. Qed.

Lemma toLowerCase_app (u v : string) : toLowerCase (u +:+ v) = toLowerCase u +:+ toLowerCase v.
Proof.
  unfold toLowerCase. induction u as [| a u IH].
  - rewrite !append_nil_l. reflexivity.
  - rewrite append_cons. cbn [str_map]. rewrite append_cons, IH. reflexivity.
Qed.

Lemma toLowerCase_idempotent (s : string) : toLowerCase (toLowerCase s) = toLowerCase s.
Proof.
  unfold toLowerCase. induction s as [| a s IH]; [reflexivity |].
  cbn [str_map]. rewrite lower_char_idempotent, IH. reflexivity.
Qed.

Lemma append_inj_length (u u' v v' : string) :
  u +:+ v = u' +:+ v' -> String.length u = String.length u' -> u = u'.
Proof.
  revert u'. induction u as [| a u IH]; intros [| a' u'] H Hlen; try discriminate.
  - reflexivity.
  - rewrite !append_cons in H. injection H as -> H. f_equal. apply (IH u' H).
    simpl in Hlen. lia.
Qed.

Lemma length_toLowerCase (s : string) : String.length (toLowerCase s) = String.length s.
Proof.
  unfold toLowerCase. induction s as [| a s IH]; [reflexivity |].
  cbn [str_map String.length]. rewrite IH. reflexivity.
Qed.

Lemma before_hyphen_simple (s : string) :
  str_exists (is_char "-") (before_hyphen s) = false /\
  (toLowerCase s = s -> toLowerCase (before_hyphen s) = before_hyphen s).
Proof.
  unfold before_hyphen.
  destruct (span (fun a => negb (is_char "-" a)) s) as [u v] eqn:E.
  destruct (span_spec _ _ _ _ E) as (Hs & Hu & _). cbn [fst]. split.
  - rewrite str_exists_forall. rewrite Hu. reflexivity.
  - intros Hlow. rewrite Hs, toLowerCase_app in Hlow.
    apply (append_inj_length _ _ _ _ Hlow). apply length_toLowerCase.
Qed.

Lemma startsWith_code (p : string) (a b : ascii) :
  startsWith p (String a (String b "")) = true -> exists r, p = String a (String b r).
Proof.
  unfold startsWith. destruct p as [| c1 [| c2 r]]; cbn [String.prefix]; try discriminate.
  - destruct (ascii_dec a c1); discriminate.
  - destruct (ascii_dec a c1) as [<- |]; [| discriminate].
    destruct (ascii_dec b c2) as [<- |]; [| discriminate].
    intros _. exists r. reflexivity.
Qed.

Lemma startsWith_eqb (a b a' b' : ascii) (r : string) :
  startsWith (String a (String b r)) (String a' (String b' ""))
  = Ascii.eqb a' a && Ascii.eqb b' b.
Proof.
  unfold startsWith. cbn [String.prefix].
  destruct (ascii_dec a' a) as [-> | Ha].
  - rewrite Ascii.eqb_refl. destruct (ascii_dec b' b) as [-> | Hb].
    + rewrite Ascii.eqb_refl. destruct r; reflexivity.
    + apply Ascii.eqb_neq in Hb. rewrite Hb. reflexivity.
  - apply Ascii.eqb_neq in Ha. rewrite Ha. reflexivity.
Qed.

(** X15. [detectLanguage] returns a lower-case text without a hyphen.  It
    is [ko], [ja], [zh] or [en] when the first language of the navigator
    begins with that code, in any letter case, and [en] when there is no
    navigator or no language. *)
Theorem detectLanguage_gives_simple_code :
  (forall nav : option Navigator,
      str_exists (is_char "-") (detectLanguage nav) = false /\
      toLowerCase (detectLanguage nav) = detectLanguage nav) /\
  (forall (n : Navigator) (first code : string),
      (exists rest, nav_languages n = Some (first :: rest)) \/
      (nav_languages n = None /\ nav_language n = Some first) ->
      first <> "" ->
      In code ["ko"; "ja"; "zh"; "en"] ->
      startsWith (toLowerCase first) code = true ->
      detectLanguage (Some n) = code) /\
  (forall n : Navigator,
      nav_languages n = Some [] \/ (nav_languages n = None /\ nav_language n = None) ->
      detectLanguage (Some n) = "en") /\
  detectLanguage None = "en".
Proof.
  split; [| split; [| split; [| reflexivity]]].
  - intros nav.
    assert (Hshape : exists first : string,
               detectLanguage nav
               = (let primary := toLowerCase first in
                  if startsWith primary "ko" then "ko"
                  else if startsWith primary "ja" then "ja"
                  else if startsWith primary "zh" then "zh"
                  else if startsWith primary "en" then "en"
                  else before_hyphen primary)).
    { unfold detectLanguage. eexists. reflexivity. }
    destruct Hshape as [first0 Hshape]. cbv zeta in Hshape. rewrite Hshape.
    repeat (match goal with |- context [if ?b then _ else _] => destruct b end;
            [split; reflexivity |]).
    split; [apply before_hyphen_simple |].
    apply before_hyphen_simple. apply toLowerCase_idempotent.
  - intros n first code Hnav Hne Hcode Hstart.
    assert (Hd : detectLanguage (Some n)
                 = (let primary := toLowerCase first in
                    if startsWith primary "ko" then "ko"
                    else if startsWith primary "ja" then "ja"
                    else if startsWith primary "zh" then "zh"
                    else if startsWith primary "en" then "en"
                    else before_hyphen primary)).
    { unfold detectLanguage.
      destruct Hnav as [(rest & Hl) | (Hl & Hlang)]; rewrite Hl.
      - cbn [map]. destruct (String.eqb_spec first ""); [contradiction | reflexivity].
      - rewrite Hlang. destruct (String.eqb_spec first ""); [contradiction | reflexivity]. }
    rewrite Hd. cbv zeta. clear Hd.
    destruct Hcode as [<- | [<- | [<- | [<- | []]]]];
      apply startsWith_code in Hstart as [r ->]; rewrite !startsWith_eqb; reflexivity.
  - intros n Hnone. unfold detectLanguage.
    destruct Hnone as [Hl | [Hl Hlang]]; rewrite Hl; [reflexivity |].
    rewrite Hlang. reflexivity.
Qed.

(** ** [FontMetrics.baseline] *)

Section Scan.
Variable img : list N.
Variable width : nat.

Lemma scan_up_spec (row : nat) :
  forall ascentRow : nat,
    let r := scan_up img width row ascentRow in
    (row_has_ink img width row = false /\ r = ascentRow) \/
    (row_has_ink img width row = true /\ r <= row /\
     (forall i, r <= i <= row -> row_has_ink img width i = true) /\
     (forall i, S i = r -> row_has_ink img width i = false)).
Proof.
  induction row as [| row IH]; intros ascentRow; cbv zeta; cbn [scan_up].
  - destruct (row_has_ink img width 0) eqn:H0; [right | left; split; reflexivity].
    split; [reflexivity |]. split; [lia |]. split.
    + intros i Hi. replace i with 0 by lia. exact H0.
    + intros i Hi. discriminate.
  - destruct (row_has_ink img width (S row)) eqn:Hrow; [right | left; split; reflexivity].
    split; [reflexivity |].
    destruct (IH (S row)) as [[Hno Hr] | (Hink & Hle & Hband & Hmax)].
    + rewrite Hr. split; [lia |]. split.
      * intros i Hi. replace i with (S row) by lia. exact Hrow.
      * intros i Hi. injection Hi as ->. exact Hno.
    + split; [lia |]. split; [| exact Hmax].
      intros i Hi. destruct (Nat.eq_dec i (S row)) as [-> | Hne]; [exact Hrow |].
      apply Hband. lia.
Qed.

Lemma scan_down_spec (fuel : nat) :
  forall row descentRow : nat,
    let r := scan_down img width fuel row descentRow in
    ((fuel = 0 \/ row_has_ink img width row = false) /\ r = descentRow) \/
    (row_has_ink img width row = true /\ row <= r < row + fuel /\
     (forall i, row <= i <= r -> row_has_ink img width i = true) /\
     (forall i, i = S r -> i < row + fuel -> row_has_ink img width i = false)).
Proof.
  induction fuel as [| fuel IH]; intros row descentRow; cbv zeta; cbn [scan_down].
  - left. split; [left; reflexivity | reflexivity].
  - destruct (row_has_ink img width row) eqn:Hrow;
      [right | left; split; [right; reflexivity | reflexivity]].
    split; [reflexivity |].
    destruct (IH (S row) row) as [[Hstop Hr] | (Hink & Hle & Hband & Hmax)].
    + rewrite Hr. split; [lia |]. split.
      * intros i Hi. replace i with row by lia. exact Hrow.
      * intros i -> Hi. destruct Hstop as [-> | Hno]; [lia | exact Hno].
    + split; [lia |]. split.
      * intros i Hi. destruct (Nat.eq_dec i row) as [-> | Hne]; [exact Hrow |].
        apply Hband. lia.
      * intros i Hi Hlt. apply (Hmax i Hi). lia.
Qed.
End Scan.

(** X16. [baseline] reports the band of inked rows through row 150:
    [total] is [ascent] plus [descent], neither is negative, the band stays
    inside the canvas, and both are 0 when row 150 has no ink.  When it has
    ink, every row of the band has ink, and the row above the band and the
    row below it (when the canvas has one) have none. *)
Theorem baseline_reports_inked_band :
  forall (img : list N) (width height : nat),
    let b := baseline img width height in
    let y := Z.of_nat baseline_row in
    (baselineY b = y /\ total b = ascent b + descent b /\
     0 <= ascent b <= y /\ 0 <= descent b /\
     (descent b = 0 \/ y + descent b < Z.of_nat height))%Z /\
    (row_has_ink img width baseline_row = false -> ascent b = 0%Z /\ descent b = 0%Z) /\
    (row_has_ink img width baseline_row = true ->
     forall row : nat,
       ((y - ascent b <= Z.of_nat row <= y + descent b)%Z ->
        row_has_ink img width row = true) /\
       (Z.of_nat row = (y - ascent b - 1)%Z -> row_has_ink img width row = false) /\
       (Z.of_nat row = (y + descent b + 1)%Z -> row < height ->
        row_has_ink img width row = false)).
Proof.
  intros img width height. cbv zeta. unfold baseline.
  cbn [baselineY total ascent descent].
  set (y := baseline_row).
  pose proof (scan_up_spec img width y y) as Hup.
  pose proof (scan_down_spec img width (height - y) y y) as Hdown.
  cbv zeta in Hup, Hdown.
  set (ar := scan_up img width y y) in *.
  set (dr := scan_down img width (height - y) y y) in *.
  destruct Hup as [[Hno Har] | (Hink & Hale & Haband & Hamax)].
  - destruct Hdown as [[_ Hdr] | (Hink & _)]; [| rewrite Hink in Hno; discriminate].
    rewrite Har, Hdr. split; [lia |]. split; [intros _; lia |].
    intros Hink. rewrite Hink in Hno. discriminate.
  - split; [| split; [intros Hno; rewrite Hno in Hink; discriminate |]].
    + destruct Hdown as [[_ ->] | (_ & Hdle & _)]; lia.
    + intros _ row. split; [| split].
      * intros Hrow. destruct (Nat.le_gt_cases row y) as [Hle | Hgt].
        -- apply Haband. lia.
        -- destruct Hdown as [[_ Hdr] | (_ & Hdle & Hdband & _)]; [lia |].
           apply Hdband. lia.
      * intros Hrow. apply Hamax. lia.
      * intros Hrow Hlt.
        destruct Hdown as [[[Hf | Hno] Hdr] | (_ & Hdle & _ & Hdmax)].
        -- lia.
        -- rewrite Hno in Hink. discriminate.
        -- apply Hdmax; lia.
Qed.

(** ** [splitGraphemes] *)





(** ** [clamp] *)

Lemma SFcompare_antisym (x y : number) :
  SFcompare y x = option_map CompOpp (SFcompare x y).
Proof.
  destruct x as [sx | sx | | sx mx ex], y as [sy | sy | | sy my ey]; cbn [SFcompare option_map];
    try reflexivity;
    try (destruct sx; reflexivity); try (destruct sy; reflexivity);
    try (destruct sx, sy; reflexivity).
  f_equal. rewrite (Z.compare_antisym ex ey).
  destruct sx, sy; try reflexivity.
  - destruct (ex ?= ey)%Z; cbn [CompOpp]; try reflexivity.
    rewrite (Pos.compare_cont_antisym mx my Eq). reflexivity.
  - destruct (ex ?= ey)%Z; cbn [CompOpp]; try reflexivity.
    rewrite (Pos.compare_cont_antisym mx my Eq). reflexivity.
Qed.

Lemma SFcompare_refl (x : number) : is_nan x = false -> SFcompare x x = Some Eq.
Proof.
  destruct x as [s | s | | s m e]; try discriminate; intros _; cbn [SFcompare];
    try reflexivity; try (destruct s; reflexivity).
  rewrite Z.compare_refl. destruct s; rewrite Pos.compare_cont_refl; reflexivity.
Qed.

Lemma SFcompare_some (x y : number) :
  is_nan x = false -> is_nan y = false -> exists c, SFcompare x y = Some c.
Proof.
  destruct x, y; try discriminate; intros _ _; cbn [SFcompare]; eexists; reflexivity.
Qed.

Lemma SFleb_refl (x : number) : is_nan x = false -> num_leb x x = true.
Proof. intros H. unfold num_leb, SFleb. rewrite (SFcompare_refl x H). reflexivity. Qed.

Lemma SFleb_of_not_ltb (x y : number) :
  is_nan x = false -> is_nan y = false -> SFltb y x = false -> num_leb x y = true.
Proof.
  intros Hx Hy. unfold num_leb, SFleb, SFltb. rewrite (SFcompare_antisym x y).
  destruct (SFcompare_some x y Hx Hy) as [c ->]. destruct c; cbn; congruence.
Qed.

Lemma Math_max_bounds (x y : number) :
  is_nan x = false -> is_nan y = false ->
  is_nan (Math_max x y) = false /\
  num_leb y (Math_max x y) = true /\ num_leb x (Math_max x y) = true.
Proof.
  intros Hx Hy. unfold Math_max. rewrite Hx, Hy. cbn [orb].
  destruct (SFltb x y) eqn:Hlt.
  - split; [exact Hy |]. split; [apply SFleb_refl; exact Hy |].
    unfold num_leb, SFleb. unfold SFltb in Hlt.
    destruct (SFcompare x y) as [[] |]; try discriminate. reflexivity.
  - assert (Hyx : num_leb y x = true) by (apply SFleb_of_not_ltb; assumption).
    assert (Hxx : num_leb x x = true) by (apply SFleb_refl; exact Hx).
    destruct x as [[] | | |], y as [[] | | |]; try discriminate;
      (split; [reflexivity | split; [exact Hyx | exact Hxx]]).
Qed.

Lemma Math_min_bounds (x y : number) :
  is_nan x = false -> is_nan y = false ->
  is_nan (Math_min x y) = false /\
  num_leb (Math_min x y) y = true /\ num_leb (Math_min x y) x = true /\
  (forall z, num_leb z x = true -> num_leb z y = true -> num_leb z (Math_min x y) = true).
Proof.
  intros Hx Hy. unfold Math_min. rewrite Hx, Hy. cbn [orb].
  destruct (SFltb y x) eqn:Hlt.
  - split; [exact Hy |]. split; [apply SFleb_refl; exact Hy |]. split.
    + unfold num_leb, SFleb. unfold SFltb in Hlt.
      destruct (SFcompare y x) as [[] |]; try discriminate. reflexivity.
    + intros z _ Hz. exact Hz.
  - assert (Hxy : num_leb x y = true) by (apply SFleb_of_not_ltb; assumption).
    assert (Hxx : num_leb x x = true) by (apply SFleb_refl; exact Hx).
    destruct x as [[] | | |], y as [[] | | |]; try discriminate;
      (split; [reflexivity | split; [exact Hxy | split; [exact Hxx |]]]);
      intros z Hzx Hzy; exact Hzx.
Qed.

(** X18. For numbers that are not [NaN] and bounds in order, [clamp]
    returns a number between the bounds. *)
Theorem clamp_within_bounds :
  forall v min max : number,
    is_nan v = false -> is_nan min = false -> is_nan max = false ->
    num_leb min max = true ->
    num_leb min (clamp v min max) = true /\ num_leb (clamp v min max) max = true.
Proof.
  intros v min max Hv Hmin Hmax Hle. unfold clamp.
  destruct (Math_max_bounds v min Hv Hmin) as (Hn & Hlo & _).
  destruct (Math_min_bounds (Math_max v min) max Hn Hmax) as (_ & Hhi & _ & Hglb).
  split; [apply Hglb; assumption | exact Hhi].
Qed.

Lemma clamp_within_bounds_witness :
  num_leb (num_of_Z 0) (clamp (parseFloat "1.5") (num_of_Z 0) (num_of_Z 1)) = true /\
  num_leb (clamp (parseFloat "1.5") (num_of_Z 0) (num_of_Z 1)) (num_of_Z 1) = true.
Proof.
  apply (clamp_within_bounds (parseFloat "1.5") (num_of_Z 0) (num_of_Z 1)); reflexivity.
Defined.

(** ** [createClass] *)

(** X19. [createClass] leaves the registry alone and injects the rule of
    the class: the rule is appended to the nodes of the style element when
    it was not a rule yet.  A second call with the same name and style
    adds no node, and emits [class] again. *)
Theorem createClass_again_adds_no_rule :
  forall (className : string) (style : FontStyle) (fm : FontManager),
    let css := join newline (class_css fm className style) in
    let fm1 := createClass className style fm in
    let fm2 := createClass className style fm1 in
    registry fm1 = registry fm /\
    css ∈ StyleInjector.rules (injector fm1) /\
    (rules_are_nodes (injector fm) -> In css (StyleInjector.nodes (injector fm1))) /\
    (css ∉ StyleInjector.rules (injector fm) ->
     StyleInjector.nodes (injector fm1) = (StyleInjector.nodes (injector fm) ++ [css])%list) /\
    StyleInjector.nodes (injector fm2) = StyleInjector.nodes (injector fm1) /\
    emitted fm2 = (emitted fm ++ [(None, EvClass className); (None, EvClass className)])%list.
Proof.
  intros className style fm. cbv zeta.
  assert (Hcss : class_css (createClass className style fm) className style
                 = class_css fm className style) by reflexivity.
  unfold createClass at 1 3 5. rewrite Hcss.
  unfold createClass.
  cbn [emit with_injector injector registry emitted].
  set (css := join newline (class_css fm className style)).
  split; [reflexivity |]. split; [| split; [| split; [| split]]].
  - rewrite rules_inject. apply elem_of_union. left. apply elem_of_singleton. reflexivity.
  - apply In_nodes_inject.
  - apply nodes_inject_new.
  - apply nodes_inject_again.
  - rewrite <- app_assoc. reflexivity.
Qed.

(** ** [applyToElement] *)

Lemma getAxis_empty (el : Element) (k : string) :
  fontVariationSettings el = "" -> getAxis el k = Some (Object_prototype k).
Proof. intros H. unfold getAxis. rewrite H. reflexivity. Qed.

Lemma getFeature_empty (el : Element) (k : string) :
  fontFeatureSettings el = "" -> getFeature el k = Some (Object_prototype k).
Proof. intros H. unfold getFeature. rewrite H. reflexivity. Qed.

(** X20. [applyToElement] does nothing without an element.  Else it sets
    the family to the composed chain and replaces the two settings: with
    no axes (or features) in the style the element has none afterwards,
    whatever was there, so every name reads as what [Object.prototype] has
    under it, [undefined] for a tag; with a map, an axis with a value reads
    as the parsed float of its text, a feature that is a small integer as
    itself and one that is no number as 1 or 0, and a name without a value
    in the map as for the empty settings. *)
Theorem applyToElement_replaces_settings :
  forall (fm : FontManager) (s : ElementStyle) (style : FontStyle),
    applyToElement fm None style = None /\
    exists s' : ElementStyle,
      applyToElement fm (Some s) style = Some s' /\
      fontFamily s'
      = composeFamily fm (st_family style) (st_fallback style) (st_languages style) /\
      (st_axes style = None \/ st_axes style = Some [] ->
       fontVariationSettings (settings s') = "" /\
       forall k, getAxis (settings s') k = Some (Object_prototype k)) /\
      (st_features style = None \/ st_features style = Some [] ->
       fontFeatureSettings (settings s') = "" /\
       forall k, getFeature (settings s') k = Some (Object_prototype k)) /\
      (forall axes : obj,
          st_axes style = Some axes ->
          List.NoDup (map fst axes) ->
          (forall k v, In (k, v) axes -> nullish v = false ->
                       tag_ok k = true /\ plain_decimal (axis_text v) = true) ->
          (forall k v, In (k, v) axes -> nullish v = false ->
                       getAxis (settings s') k = Some (VNum (parseFloat (axis_text v)))) /\
          (forall k, (forall v, In (k, v) axes -> nullish v = true) ->
                     getAxis (settings s') k = Some (Object_prototype k))) /\
      (forall features : obj,
          st_features style = Some features ->
          List.NoDup (map fst features) ->
          (forall k v, In (k, v) features -> nullish v = false ->
                       tag_ok k = true /\ (isNumber v = true -> small_integer v)) ->
          (forall k v, In (k, v) features -> nullish v = false ->
                       getFeature (settings s') k
                       = Some (if isNumber v then v
                               else VNum (if truthy v then num_of_Z 1 else num_of_Z 0))) /\
          (forall k, (forall v, In (k, v) features -> nullish v = true) ->
                     getFeature (settings s') k = Some (Object_prototype k))) /\
      (forall k : string, tag_ok k = true -> Object_prototype k = VUndefined).
Proof.
  intros fm s style. split; [reflexivity |].
  unfold applyToElement. eexists. split; [reflexivity |].
  cbn [fontFamily settings]. split; [reflexivity |].
  split; [| split; [| split; [| split]]].
  - intros Hnone.
    assert (Hempty : with_keys (st_axes style) (fun o => axisToString (Some o)) "" = "")
      by (destruct Hnone as [-> | ->]; reflexivity).
    split; [exact Hempty |]. intros k. apply getAxis_empty. exact Hempty.
  - intros Hnone.
    assert (Hempty : with_keys (st_features style) (fun o => featuresToString (Some o)) "" = "")
      by (destruct Hnone as [-> | ->]; reflexivity).
    split; [exact Hempty |]. intros k. apply getFeature_empty. exact Hempty.
  - intros axes Haxes Hnd Hok. rewrite Haxes.
    assert (Htext : with_keys (Some axes) (fun o => axisToString (Some o)) ""
                    = axisToString (Some axes)) by (destruct axes; reflexivity).
    unfold getAxis. cbn [fontVariationSettings]. rewrite Htext.
    destruct (parseAxis_reads_back axes Hnd Hok) as (out & -> & _ & Hget & Hhas).
    split.
    + intros k v Hin Hv. f_equal. exact (Hget k v Hin Hv).
    + intros k Hk. f_equal. apply obj_get_absent.
      destruct (obj_has out k) eqn:Hh; [| reflexivity].
      destruct (Hhas k Hh) as (v & Hin & Hv). rewrite (Hk v Hin) in Hv. discriminate.
  - intros features Hfeat Hnd Hok. rewrite Hfeat.
    assert (Htext : with_keys (Some features) (fun o => featuresToString (Some o)) ""
                    = featuresToString (Some features)) by (destruct features; reflexivity).
    unfold getFeature. cbn [fontFeatureSettings]. rewrite Htext.
    destruct (parseFeatures_reads_back features Hnd) as (out & -> & _ & Hget & Hhas).
    { intros k v Hin Hv. destruct (Hok k v Hin Hv) as [Hk Hsmall].
      split; [exact Hk | apply small_not_infinite; exact Hsmall]. }
    split.
    + intros k v Hin Hv. f_equal. rewrite (Hget k v Hin Hv).
      destruct (Hok k v Hin Hv) as [_ Hsmall].
      destruct (isNumber v) eqn:Hnum; [| reflexivity].
      rewrite <- (small_integer_read v (Hsmall eq_refl)) at 2. rewrite Hnum. reflexivity.
    + intros k Hk. f_equal. apply obj_get_absent.
      destruct (obj_has out k) eqn:Hh; [| reflexivity].
      destruct (Hhas k Hh) as (v & Hin & Hv). rewrite (Hk v Hin) in Hv. discriminate.
  - exact Object_prototype_tag.
Qed.

(** ** The presets *)

Lemma presets_get_set (p : Presets.t) (nm : string) (style : FontStyle) (nm' : string) :
  Presets.get (Presets.set p nm style) nm'
  = if String.eqb nm nm' then Some style else Presets.get p nm'.
Proof.
  induction p as [| [k st] p IH]; cbn [Presets.set Presets.get].
  - destruct (String.eqb nm nm'); reflexivity.
  - destruct (String.eqb_spec k nm) as [-> | Hk]; cbn [Presets.get].
    + destruct (String.eqb nm nm'); reflexivity.
    + rewrite IH. destruct (String.eqb_spec nm nm') as [Heq | Hn]; [| reflexivity].
      destruct (String.eqb_spec k nm'); [congruence | reflexivity].
Qed.

Lemma presets_set_same (p : Presets.t) (nm : string) (style : FontStyle) :
  Presets.get p nm = Some style -> Presets.set p nm style = p.
Proof.
  induction p as [| [k st] p IH]; cbn [Presets.set Presets.get]; [discriminate |].
  destruct (String.eqb_spec k nm) as [-> | Hk].
  - intros H. injection H as ->. reflexivity.
  - intros H. rewrite (IH H). reflexivity.
Qed.

(** X21. [getPreset] returns the style that [registerPreset] stored last
    under the name, and the other presets are as they were; each
    registration emits [preset] and leaves the registry alone.  After
    [createKoreanPresets] the three Korean presets are there, and a second
    call leaves the presets as they are. *)
Theorem presets_keep_the_last_style :
  (forall (nm : string) (style : FontStyle) (st : Presets.t * FontManager),
      getPreset (registerPreset nm style st) nm = Some style /\
      (forall nm', nm' <> nm -> getPreset (registerPreset nm style st) nm' = getPreset st nm') /\
      emitted (snd (registerPreset nm style st))
      = (emitted (snd st) ++ [(None, EvPreset nm)])%list /\
      registry (snd (registerPreset nm style st)) = registry (snd st)) /\
  (forall st : Presets.t * FontManager,
      getPreset (createKoreanPresets st) "body-kr" = Some body_kr /\
      getPreset (createKoreanPresets st) "headline-kr" = Some headline_kr /\
      getPreset (createKoreanPresets st) "mono" = Some mono /\
      (forall nm, nm <> "body-kr" -> nm <> "headline-kr" -> nm <> "mono" ->
                  getPreset (createKoreanPresets st) nm = getPreset st nm) /\
      fst (createKoreanPresets (createKoreanPresets st)) = fst (createKoreanPresets st)).
Proof.
  split.
  - intros nm style st. unfold getPreset, registerPreset. cbn [fst snd emit emitted registry].
    split; [rewrite presets_get_set, string_eqb_refl; reflexivity |].
    split; [| split; reflexivity].
    intros nm' Hne. rewrite presets_get_set.
    destruct (String.eqb_spec nm nm'); [congruence | reflexivity].
  - intros st.
    assert (Hb : getPreset (createKoreanPresets st) "body-kr" = Some body_kr).
    { unfold getPreset, createKoreanPresets, registerPreset. cbn [fst].
      rewrite !presets_get_set. reflexivity. }
    assert (Hh : getPreset (createKoreanPresets st) "headline-kr" = Some headline_kr).
    { unfold getPreset, createKoreanPresets, registerPreset. cbn [fst].
      rewrite !presets_get_set. reflexivity. }
    assert (Hm : getPreset (createKoreanPresets st) "mono" = Some mono).
    { unfold getPreset, createKoreanPresets, registerPreset. cbn [fst].
      rewrite !presets_get_set. reflexivity. }
    split; [exact Hb |]. split; [exact Hh |]. split; [exact Hm |]. split.
    + intros nm H1 H2 H3. unfold getPreset, createKoreanPresets, registerPreset. cbn [fst].
      rewrite !presets_get_set.
      destruct (String.eqb_spec "mono" nm); [congruence |].
      destruct (String.eqb_spec "headline-kr" nm); [congruence |].
      destruct (String.eqb_spec "body-kr" nm); [congruence | reflexivity].
    + unfold getPreset in Hb, Hh, Hm.
      set (p := fst (createKoreanPresets st)) in *.
      unfold createKoreanPresets at 1. unfold registerPreset. cbn [fst]. fold p.
      rewrite (presets_set_same p "body-kr" body_kr Hb).
      rewrite (presets_set_same p "headline-kr" headline_kr Hh).
      apply (presets_set_same p "mono" mono Hm).
Qed.

(** ** [composeFamily] without conditions on the names *)

Lemma add_filter (nm : string) (parts : list string) :
  add (Some nm) parts
  = (parts ++ map cssEscape (List.filter (fun n => negb (String.eqb n "")) [nm]))%list.
Proof.
  unfold add. cbn [List.filter]. destruct (String.eqb nm ""); cbn [negb map].
  - rewrite app_nil_r. reflexivity.
  - reflexivity.
Qed.

Lemma add_all_filter (names parts : list string) :
  add_all names parts
  = (parts ++ map cssEscape (List.filter (fun n => negb (String.eqb n "")) names))%list.
Proof.
  revert parts. induction names as [| nm names IH]; intros parts; cbn [add_all].
  - cbn [List.filter map]. rewrite app_nil_r. reflexivity.
  - rewrite IH, add_filter, <- app_assoc, <- List.map_app, <- List.filter_app. reflexivity.
Qed.

Lemma add_matches_filter (primary : option string) (lms parts : list string) :
  add_matches primary lms parts
  = (parts ++ map cssEscape
       (List.filter (fun n => negb (String.eqb n ""))
          (List.filter (fun lm => match primary with
                                  | Some p => negb (String.eqb lm p)
                                  | None => true
                                  end) lms)))%list.
Proof.
  revert parts. induction lms as [| lm lms IH]; intros parts; cbn [add_matches].
  - cbn [List.filter map]. rewrite app_nil_r. reflexivity.
  - rewrite IH. cbn [List.filter].
    destruct (match primary with Some p => negb (String.eqb lm p) | None => true end).
    + rewrite add_filter, <- app_assoc, <- List.map_app, <- List.filter_app. reflexivity.
    + reflexivity.
Qed.

(** X22. [composeFamily], whatever its arguments: the text is the escaped
    names joined by a comma and a space, the names being the primary one,
    then the registered fonts that declare a language of the set, but for
    the primary one, then the fallback chain, with every empty name left
    out.  So a missing or empty primary name leaves the chain of the
    other names, and with no name at all the text is empty. *)
Theorem composeFamily_skips_empty_names :
  forall (fm : FontManager) (primary : option string) (fallback langs : option (list string)),
    composeFamily fm primary fallback langs
    = join ", " (map cssEscape (family_names fm primary fallback langs)) /\
    composeFamily fm (Some "") fallback langs = composeFamily fm None fallback langs /\
    (family_names fm primary fallback langs = [] ->
     composeFamily fm primary fallback langs = "").
Proof.
  intros fm primary fallback langs.
  assert (Hgen : forall primary0,
             composeFamily fm primary0 fallback langs
             = join ", " (map cssEscape (family_names fm primary0 fallback langs))).
  { intros primary0. unfold composeFamily, family_names.
    rewrite add_all_filter, add_matches_filter, langMatches_loop_filter.
    cbn [app]. rewrite !List.filter_app, !List.map_app, <- app_assoc. f_equal. f_equal.
    destruct primary0 as [p |]; [| reflexivity].
    rewrite add_filter. reflexivity. }
  split; [apply Hgen |]. split.
  - rewrite !Hgen. unfold family_names. f_equal. f_equal.
    rewrite !List.filter_app. cbn [List.filter String.eqb negb app]. f_equal.
    set (l := map name _). clearbody l.
    induction l as [| lm l IH]; [reflexivity |]. cbn [List.filter].
    destruct (String.eqb_spec lm "") as [-> | Hne].
    + cbn [negb List.filter String.eqb]. exact IH.
    + cbn [negb List.filter]. destruct (String.eqb_spec lm ""); [contradiction |].
      cbn [negb]. rewrite IH. reflexivity.
  - intros Hnone. rewrite Hgen, Hnone. reflexivity.
Qed.
